(** * zipe: the dependency-graph builder [parse] and the SFC compile steps

    A shallow embedding of the module that exports [parse] and the
    [ZipeModule] interface (the recursive graph-node builder) and of
    [src/compilers.ts] (the composite-component compile steps with their
    per-file artifact cache), followed by the properties the
    specification states about them.

    Conventions.
    - External collaborators (module resolver, content source, SFC parser,
      script transforms, import/export extractor, node's [path] functions,
      [hash_sum], the Vue compiler) are parameters: the fields of a record
      of services.
    - [parse] is an [async] function that starts the resolutions of all
      its dependencies before it awaits any of them, and each of them
      appends to the parent's lists when it completes. What the parent
      ends up with therefore depends on when each promise settles, so
      time is part of the model: an awaited call is a value of [Async A],
      the number of turns of the event loop its promise takes to settle
      together with what it settles to, and every call of [parse] has a
      start time and a settling time.
    - Every call of [parse] is recorded as a node of a call tree that holds
      the events of the call in program order, the calls it spawned in the
      order of the [for] loop, and how (and when) the call settled. *)

From Stdlib Require Import String Ascii List Arith Lia Bool Permutation.
From Stdlib Require Import DecimalString.
From stdpp Require Import base option list strings gmap.

Local Open Scope string_scope.
Local Open Scope list_scope.

(** ** Awaited values *)

Inductive Error : Type :=
| NotFound (path : string)
| ResolutionError (specifier importer : string)
| Thrown (message : string)
| TypeError.

(** What an [await] observes. The code after an [await] never runs in
    the turn that reaches the [await]; it runs one turn later when the
    promise is settled already, and [ticks] turns later than that
    otherwise. The promise is then rejected ([inl]) or fulfilled ([inr]). *)
Record Async (A : Type) : Type := mkAsync { ticks : nat; settle : Error + A }.
Arguments mkAsync {A} _ _.
Arguments ticks {A} _.
Arguments settle {A} _.

Definition fulfilled {A} (n : nat) (a : A) : Async A := mkAsync n (inr a).
Definition rejected {A} (n : nat) (e : Error) : Async A := mkAsync n (inl e).

(** ** Data model of the graph-node builder *)

Module ModuleInformation.
(** [module] is the resolver's flag for an external (package) module. *)
Record t : Type := mk { name : string; path : string; module : bool }.
End ModuleInformation.

Module ZipeDependency.
Record t : Type := mk {
  module : string;
  importPath : string;
  importLine : string;
  info : ModuleInformation.t;
  dynamic : bool
}.
End ZipeDependency.

Definition StyleHeader : Type := string.

Module Sfc.
Record styles_t : Type := mkStyles {
  styles_code : string;
  styles_map : option string;
  modules : option (list (string * string))
}.
Record template_t : Type := mkTemplate {
  template_code : string;
  template_map : option string
}.
Record script_t : Type := mkScript {
  code : string;
  map : option string;
  dependencies : list ZipeDependency.t;
  exports : list string
}.
Record t : Type := mk {
  scopeId : option string;
  styles : styles_t;
  template : template_t;
  script : script_t
}.

(** The value the object literal of [parse] gives to [item.sfc]. *)
Definition initial : t :=
  mk None (mkStyles "" None None) (mkTemplate "" None) (mkScript "" None [] []).

Definition with_script_dependencies (v : list ZipeDependency.t) (s : t) : t :=
  mk (scopeId s) (styles s) (template s)
     (mkScript (code (script s)) (map (script s)) v (exports (script s))).
Definition with_script_exports (v : list string) (s : t) : t :=
  mk (scopeId s) (styles s) (template s)
     (mkScript (code (script s)) (map (script s)) (dependencies (script s)) v).
End Sfc.

Module ZipeModule.
Record extra_t : Type := mkExtra { styles : list StyleHeader }.

(** The node. In [code] and [map], [None] is the absence of a text:
    the [null] and the [undefined] of the object literal, and also the
    [undefined] that either field holds after it has been assigned the
    property of a value that has no such property. *)
Record t : Type := mk {
  name : string;
  extension : string;
  rawContent : string;
  dependencies : list ZipeDependency.t;
  fullDependencies : list ZipeDependency.t;
  module : ModuleInformation.t;
  extra : extra_t;
  code : option string;
  map : option string;
  sfc : Sfc.t;
  exports : list string;
  dependenciesPromise : option (Async (list ZipeDependency.t))
}.

(** Assignments to one field of the node, the other fields kept. *)
Definition with_rawContent (v : string) (i : t) : t :=
  mk (name i) (extension i) v (dependencies i) (fullDependencies i) (module i)
     (extra i) (code i) (map i) (sfc i) (exports i) (dependenciesPromise i).
Definition with_dependencies (v : list ZipeDependency.t) (i : t) : t :=
  mk (name i) (extension i) (rawContent i) v (fullDependencies i) (module i)
     (extra i) (code i) (map i) (sfc i) (exports i) (dependenciesPromise i).
Definition with_fullDependencies (v : list ZipeDependency.t) (i : t) : t :=
  mk (name i) (extension i) (rawContent i) (dependencies i) v (module i)
     (extra i) (code i) (map i) (sfc i) (exports i) (dependenciesPromise i).
Definition with_extra_styles (v : list StyleHeader) (i : t) : t :=
  mk (name i) (extension i) (rawContent i) (dependencies i) (fullDependencies i)
     (module i) (mkExtra v) (code i) (map i) (sfc i) (exports i)
     (dependenciesPromise i).
Definition with_code (v : option string) (i : t) : t :=
  mk (name i) (extension i) (rawContent i) (dependencies i) (fullDependencies i)
     (module i) (extra i) v (map i) (sfc i) (exports i) (dependenciesPromise i).
Definition with_map (v : option string) (i : t) : t :=
  mk (name i) (extension i) (rawContent i) (dependencies i) (fullDependencies i)
     (module i) (extra i) (code i) v (sfc i) (exports i) (dependenciesPromise i).
Definition with_sfc (v : Sfc.t) (i : t) : t :=
  mk (name i) (extension i) (rawContent i) (dependencies i) (fullDependencies i)
     (module i) (extra i) (code i) (map i) v (exports i) (dependenciesPromise i).
Definition with_exports (v : list string) (i : t) : t :=
  mk (name i) (extension i) (rawContent i) (dependencies i) (fullDependencies i)
     (module i) (extra i) (code i) (map i) (sfc i) v (dependenciesPromise i).

(** The object literal of [parse] (source lines 95-128). *)
Definition fresh (name extension : string) (module : ModuleInformation.t) : t :=
  mk name extension "" [] [] module (mkExtra []) None None Sfc.initial [] None.
End ZipeModule.

(** ** Collaborators *)

(** A script transform answers [{code, map}]. *)
Abbreviation ZipeScriptTransform :=
  (string -> string -> Async (string * option string)).

(** What the read [transformers[extension]] answers for a key that is no
    entry of the registry itself: a member of its prototype, which is no
    script transform. Called like one (with the content first, and with
    no receiver) a member that is a function throws, or answers a value
    that is awaited and whose [code] and [map] the node takes over,
    [None] where the value has none; a member that is no function
    cannot be called. *)
Inductive Inherited : Type :=
| inherited_function
    (call : string -> string -> Error + Async (option string * option string))
| inherited_value.

Definition ModuleResolver : Type := string -> string -> Async ModuleInformation.t.

Record Services : Type := mkServices {
  (** [resolver.info(filePath, importer)] *)
  resolver_info : ModuleResolver;
  (** [fileCache.get(name)], the content source *)
  fileCache_get : string -> Async string;
  (** [sfcParser(rawContent, filePath, transformers)], answering [extra] *)
  sfcParser : string -> string -> gmap string ZipeScriptTransform -> Async Sfc.t;
  (** the registry [transformers]: its own entries, by extension *)
  transformers : gmap string ZipeScriptTransform;
  (** [parseImportsExports(code, name, resolver)] *)
  parseImportsExports :
    string -> string -> ModuleResolver -> list ZipeDependency.t * list string;
  (** [posix.basename] and [posix.extname] *)
  basename : string -> string;
  extname : string -> string;
  (** what the registry inherits from its prototype, by key *)
  inherited : string -> option Inherited
}.

(** [Object.prototype], the prototype of a registry written as an object
    literal. [parse] calls what it reads from the registry as a plain
    function in strict code, so the receiver is [undefined]:
    - [constructor] is [Object], which wraps the content in an object;
      [toString] answers a text and [isPrototypeOf] answers [false]:
      values without a [code] and without a [map];
    - the other methods start by turning the receiver into an object,
      which throws;
    - [__proto__] reads as the prototype itself, an object that is no
      function. *)
Definition Object_prototype (key : string) : option Inherited :=
  if bool_decide (key ∈ ["constructor"; "toString"; "isPrototypeOf"])
  then Some (inherited_function
               (fun content filePath => inr (mkAsync 0 (inr (None, None)))))
  else if bool_decide
            (key ∈ ["toLocaleString"; "valueOf"; "hasOwnProperty";
                    "propertyIsEnumerable"; "__defineGetter__"; "__defineSetter__";
                    "__lookupGetter__"; "__lookupSetter__"])
  then Some (inherited_function (fun content filePath => inl TypeError))
  else if bool_decide (key = "__proto__") then Some inherited_value
  else None.

(** The double quote, the line feed and the backslash, as texts. *)
Definition dq : string := String (ascii_of_nat 34) EmptyString.
Definition nl : string := String (ascii_of_nat 10) EmptyString.
Definition backslash : string := String (ascii_of_nat 92) EmptyString.

(** What follows the prefix [p] in [s], when [s] starts with [p]. *)
Fixpoint strip_prefix (p s : string) : option string :=
  match p, s with
  | EmptyString, _ => Some s
  | String a p', String b s' => if Ascii.eqb a b then strip_prefix p' s' else None
  | String _ _, EmptyString => None
  end.

(** [s.slice(1)] *)
Definition slice1 (s : string) : string :=
  match s with
  | EmptyString => EmptyString
  | String _ rest => rest
  end.

(** ** Instrumentation *)

(** What a call of [parse] does to the outside, in program order. The
    graph cache ([dependenciesCache]) offers lookups as well as [set]; the
    lookups are events too, so that their absence can be stated. *)
Inductive Event : Type :=
| resolver_info_call (filePath importer : string)
| dependenciesCache_set (key : string) (item : ZipeModule.t)
| dependenciesCache_has (key : string)
| dependenciesCache_get (key : string)
| fileCache_get_call (key : string)
| sfcParser_call (rawContent filePath : string)
| transformer_call (extension rawContent filePath : string)
| parseImportsExports_call (code name : string)
| console_warn (message : string).

Inductive Settled : Type :=
| Pending
| Rejected (at_time : nat) (e : Error)
| Resolved (at_time : nat) (item : ZipeModule.t).

(** One call [parse(filePath, importer, ...)]: its events, the calls its
    [for] loop made, in loop order, and its promise. *)
#[local] Unset Elimination Schemes.
Inductive Call : Type :=
| mkCall (filePath importer : string) (events : list Event)
         (children : list Call) (result : Settled).
#[local] Set Elimination Schemes.

Definition call_filePath (c : Call) : string :=
  match c with mkCall f _ _ _ _ => f end.
Definition call_importer (c : Call) : string :=
  match c with mkCall _ i _ _ _ => i end.
Definition events (c : Call) : list Event :=
  match c with mkCall _ _ e _ _ => e end.
Definition children (c : Call) : list Call :=
  match c with mkCall _ _ _ k _ => k end.
Definition result (c : Call) : Settled :=
  match c with mkCall _ _ _ _ r => r end.

(** ** [parse] *)

Section Parse.
Variable sv : Services.

(** The straight-line part of a call (source lines 86-174): everything
    up to the fan-out over the dependencies. Every [await] gives the
    event loop at least one turn. The node recorded with
    [dependenciesCache_set] is the object as it is when [set] runs; the
    same object is mutated afterwards. *)
Record Loaded : Type := mkLoaded {
  loaded_events : list Event;
  loaded_at : nat;
  loaded : Error + ZipeModule.t
}.

Definition load (t : nat) (filePath importer : string) : Loaded :=
  let r := resolver_info sv filePath importer in
  let t1 := t + S (ticks r) in
  let ev1 := [resolver_info_call filePath importer] in
  match settle r with
  | inl e => mkLoaded ev1 t1 (inl e)
  | inr module =>
    let name := basename sv (ModuleInformation.name module) in
    let extension := slice1 (extname sv (ModuleInformation.path module)) in
    let item := ZipeModule.fresh name extension module in
    let ev2 := ev1 ++ [dependenciesCache_set (ModuleInformation.path module) item;
                       fileCache_get_call (ModuleInformation.name module)] in
    let rd := fileCache_get sv (ModuleInformation.name module) in
    let t2 := t1 + S (ticks rd) in
    match settle rd with
    | inl e => mkLoaded ev2 t2 (inl e)
    | inr rawContent =>
      let item := ZipeModule.with_rawContent rawContent item in
      if String.eqb extension "vue" then
        let p := sfcParser sv rawContent filePath (transformers sv) in
        let t3 := t2 + S (ticks p) in
        let ev3 := ev2 ++ [sfcParser_call rawContent filePath] in
        match settle p with
        | inl e => mkLoaded ev3 t3 (inl e)
        | inr extra =>
          let item := ZipeModule.with_sfc extra item in
          let code := Sfc.code (Sfc.script (ZipeModule.sfc item)) in
          let '(imports, exports) :=
            parseImportsExports sv code (ModuleInformation.name module)
                                (resolver_info sv) in
          let ev4 := ev3 ++ [parseImportsExports_call
                               code (ModuleInformation.name module)] in
          let item := ZipeModule.with_sfc
                        (Sfc.with_script_dependencies imports (ZipeModule.sfc item))
                        item in
          let item := ZipeModule.with_sfc
                        (Sfc.with_script_exports exports (ZipeModule.sfc item))
                        item in
          let item := ZipeModule.with_dependencies
                        (ZipeModule.dependencies item ++ imports) item in
          mkLoaded ev4 t3 (inr item)
        end
      else
        match transformers sv !! extension with
        | Some transformer =>
          let p := transformer rawContent filePath in
          let t3 := t2 + S (ticks p) in
          let ev3 := ev2 ++ [transformer_call extension rawContent filePath] in
          match settle p with
          | inl e => mkLoaded ev3 t3 (inl e)
          | inr (code, map) =>
            let item := ZipeModule.with_code (Some code) item in
            let item := ZipeModule.with_map map item in
            let scode := Sfc.code (Sfc.script (ZipeModule.sfc item)) in
            let '(imports, exports) :=
              parseImportsExports sv scode (ModuleInformation.name module)
                                  (resolver_info sv) in
            let ev4 := ev3 ++ [parseImportsExports_call
                                 scode (ModuleInformation.name module)] in
            let item := ZipeModule.with_dependencies
                          (ZipeModule.dependencies item ++ imports) item in
            let item := ZipeModule.with_exports
                          (ZipeModule.exports item ++ exports) item in
            mkLoaded ev4 t3 (inr item)
          end
        | None =>
          match inherited sv extension with
          | Some (inherited_function call) =>
            let ev3 := ev2 ++ [transformer_call extension rawContent filePath] in
            match call rawContent filePath with
            | inl e => mkLoaded ev3 t2 (inl e)
            | inr p =>
              let t3 := t2 + S (ticks p) in
              match settle p with
              | inl e => mkLoaded ev3 t3 (inl e)
              | inr (code, map) =>
                let item := ZipeModule.with_code code item in
                let item := ZipeModule.with_map map item in
                let scode := Sfc.code (Sfc.script (ZipeModule.sfc item)) in
                let '(imports, exports) :=
                  parseImportsExports sv scode (ModuleInformation.name module)
                                      (resolver_info sv) in
                let ev4 := ev3 ++ [parseImportsExports_call
                                     scode (ModuleInformation.name module)] in
                let item := ZipeModule.with_dependencies
                              (ZipeModule.dependencies item ++ imports) item in
                let item := ZipeModule.with_exports
                              (ZipeModule.exports item ++ exports) item in
                mkLoaded ev4 t3 (inr item)
              end
            end
          | Some inherited_value => mkLoaded ev2 t2 (inl TypeError)
          | None =>
            mkLoaded
              (ev2 ++ [console_warn ("[zipe] no transformer found for " +:+ filePath)])
              t2 (inr item)
          end
        end
    end
  end.

(** The callback of [.then] at line 188: the parent takes over the
    style headers and the transitive list of a finished dependency. *)
Definition absorb (item x : ZipeModule.t) : ZipeModule.t :=
  let item := ZipeModule.with_extra_styles
                (ZipeModule.styles (ZipeModule.extra item)
                 ++ ZipeModule.styles (ZipeModule.extra x)) item in
  ZipeModule.with_fullDependencies
    (ZipeModule.fullDependencies item ++ ZipeModule.fullDependencies x) item.

(** The fulfilled sub-resolutions with their times, in loop order. *)
Fixpoint fulfilments (kids : list Call) : list (nat * ZipeModule.t) :=
  match kids with
  | [] => []
  | k :: kids' =>
    match result k with
    | Resolved t x => (t, x) :: fulfilments kids'
    | _ => fulfilments kids'
    end
  end.

Definition is_pending (c : Call) : bool :=
  match result c with Pending => true | _ => false end.

(** The earliest rejection among the sub-resolutions; of two at the
    same time, the one pushed first (how such a tie is broken is a
    choice of the model, and no property below depends on it). *)
Fixpoint first_rejection (kids : list Call) : option (nat * Error) :=
  match kids with
  | [] => None
  | k :: kids' =>
    match result k, first_rejection kids' with
    | Rejected t e, Some (t', e') =>
        if (t <=? t')%nat then Some (t, e) else Some (t', e')
    | Rejected t e, None => Some (t, e)
    | _, r => r
    end
  end.

(** The order in which the [.then] callbacks run: by settling time. The
    promises that settle in the same turn are taken in loop order; that
    is a choice of the model, and the properties below are stated so that
    they do not depend on it. *)
Fixpoint insert_by_time {A} (x : nat * A) (l : list (nat * A)) : list (nat * A) :=
  match l with
  | [] => [x]
  | y :: l' => if (x.1 <=? y.1)%nat then x :: l else y :: insert_by_time x l'
  end.

Definition completion_order {A} (l : list (nat * A)) : list (nat * A) :=
  foldr insert_by_time [] l.

Definition latest (t : nat) (l : list (nat * ZipeModule.t)) : nat :=
  foldr (fun x acc => Nat.max x.1 acc) t l.

(** The turns between the settling of the last sub-resolution and the
    settling of the call. The promise pushed at line 179 is the one
    [.then] answers: its callback runs, and it settles, one turn after
    the sub-resolution has settled. The promise of [Promise.all] settles
    one turn after that, and the code after [await] runs one turn later
    again. With no dependency [Promise.all] is fulfilled when it is
    called, and only the [await] takes its turn. *)
Definition turns (kids : list Call) : nat :=
  match kids with
  | [] => 1
  | _ :: _ => 3
  end.

(** [await Promise.all(promises)] and [return item] (lines 195-197):
    rejected as soon as one sub-resolution is, fulfilled once all are,
    and pending as long as one of them is and none is rejected. (When a
    sub-resolution is pending only for lack of fuel, more fuel may still
    turn up an earlier rejection: the time and the error of a rejection
    are those of the calls explored so far.) *)
Definition join (t : nat) (item : ZipeModule.t) (kids : list Call) : Settled :=
  match first_rejection kids with
  | Some (tr, e) => Rejected (tr + turns kids) e
  | None =>
    if existsb is_pending kids then Pending
    else
      let done := fulfilments kids in
      Resolved (latest t done + turns kids)
               (fold_left absorb (List.map snd (completion_order done)) item)
  end.

Definition not_external (x : ZipeDependency.t) : bool :=
  negb (ModuleInformation.module (ZipeDependency.info x)).

(** [parse]. The recursion of the source has no measure that decreases,
    so the embedding counts the depth it may still descend: with no
    fuel left the call is reported [Pending] with nothing observed. *)
Fixpoint parse (fuel : nat) (t : nat) (filePath importer : string) : Call :=
  match fuel with
  | 0 => mkCall filePath importer [] [] Pending
  | S fuel' =>
    let l := load t filePath importer in
    match loaded l with
    | inl e =>
      mkCall filePath importer (loaded_events l) [] (Rejected (loaded_at l) e)
    | inr item =>
      let item := ZipeModule.with_fullDependencies
                    (ZipeModule.fullDependencies item ++ ZipeModule.dependencies item)
                    item in
      let kids :=
        List.map
          (fun dependency =>
             parse fuel' (loaded_at l)
                   (ModuleInformation.path (ZipeDependency.info dependency))
                   (ModuleInformation.path (ZipeModule.module item)))
          (List.filter not_external (ZipeModule.dependencies item)) in
      mkCall filePath importer (loaded_events l) kids (join (loaded_at l) item kids)
    end
  end.

End Parse.

(** ** A small project to run [parse] on

    A resolver, a content source, a parser, a transform and an extractor
    that are simple enough to evaluate. Every file lives in [/src]; a
    specifier that starts with neither a dot nor a slash names a package.
    Every promise of these services settles within one turn. *)

Module Demo.

Fixpoint split_lines (s : string) : list string :=
  match s with
  | EmptyString => [EmptyString]
  | String c s' =>
    let r := split_lines s' in
    if Ascii.eqb c (ascii_of_nat 10) then EmptyString :: r
    else match r with
         | l :: ls => String c l :: ls
         | [] => [String c EmptyString]
         end
  end.

Fixpoint until_quote (s : string) : string :=
  match s with
  | EmptyString => EmptyString
  | String c s' =>
    if Ascii.eqb c (ascii_of_nat 34) then EmptyString else String c (until_quote s')
  end.

(** The part after the last slash. *)
Fixpoint basename (s : string) : string :=
  match s with
  | EmptyString => EmptyString
  | String c s' =>
    if existsb (Ascii.eqb "/"%char) (list_ascii_of_string s') then basename s'
    else if Ascii.eqb c "/"%char then s' else s
  end.

Fixpoint from_last_dot (s : string) : string :=
  match s with
  | EmptyString => EmptyString
  | String c s' =>
    if existsb (Ascii.eqb "."%char) (list_ascii_of_string s') then from_last_dot s'
    else if Ascii.eqb c "."%char then s else EmptyString
  end.

(** The extension of the last segment, with its dot; a leading dot of
    the segment starts no extension. *)
Definition extname (s : string) : string :=
  match basename s with
  | EmptyString => EmptyString
  | String _ rest => from_last_dot rest
  end.

Definition resolver_info : ModuleResolver := fun specifier importer =>
  match strip_prefix "./" specifier with
  | Some rest =>
      fulfilled 0 (ModuleInformation.mk ("/src/" +:+ rest) ("/src/" +:+ rest) false)
  | None =>
    match strip_prefix "/" specifier with
    | Some _ => fulfilled 0 (ModuleInformation.mk specifier specifier false)
    | None =>
      if String.eqb specifier EmptyString
      then rejected 0 (ResolutionError specifier importer)
      else fulfilled 0 (ModuleInformation.mk specifier ("/@modules/" +:+ specifier) true)
    end
  end.

Definition import_ (specifier : string) : string :=
  "import " +:+ dq +:+ specifier +:+ dq.

Definition files : list (string * string) :=
  [ ("/src/main.ts", import_ "./util.ts");
    ("/src/util.ts", "export const answer = 42");
    ("/src/logo.png", "PNG");
    ("/src/App.vue",
       import_ "vue" +:+ nl +:+ import_ "./A.vue" +:+ nl +:+ import_ "./B.vue");
    ("/src/A.vue", import_ "./C.vue");
    ("/src/B.vue", import_ "./E.vue");
    ("/src/C.vue", import_ "./D.vue");
    ("/src/D.vue", "export default {}");
    ("/src/E.vue", "export default {}");
    ("/src/Ping.vue", import_ "./Pong.vue");
    ("/src/Pong.vue", import_ "./Ping.vue") ].

Fixpoint lookup_file (key : string) (l : list (string * string)) : option string :=
  match l with
  | [] => None
  | (k, v) :: l' => if String.eqb k key then Some v else lookup_file key l'
  end.

Definition fileCache_get (key : string) : Async string :=
  match lookup_file key files with
  | Some content => fulfilled 0 content
  | None => rejected 0 (NotFound key)
  end.

(** The edges of the lines [import "<specifier>"] of [code], each
    resolved from [name]. *)
Definition parseImportsExports (code name : string) (resolver : ModuleResolver)
  : list ZipeDependency.t * list string :=
  (flat_map
     (fun line =>
        match strip_prefix ("import " +:+ dq) line with
        | Some rest =>
          let specifier := until_quote rest in
          match settle (resolver specifier name) with
          | inr info => [ZipeDependency.mk specifier specifier line info false]
          | inl _ => []
          end
        | None => []
        end)
     (split_lines code),
   flat_map
     (fun line =>
        match strip_prefix "export default" line with
        | Some _ => ["default"]
        | None => []
        end)
     (split_lines code)).

(** The whole file is its script block. *)
Definition sfcParser (rawContent filePath : string)
           (transformers : gmap string ZipeScriptTransform) : Async Sfc.t :=
  fulfilled 0 (Sfc.mk None (Sfc.mkStyles "" None None) (Sfc.mkTemplate "" None)
                      (Sfc.mkScript rawContent None [] [])).

(** A transform that leaves the text as it is. *)
Definition keep : ZipeScriptTransform := fun content filePath =>
  fulfilled 0 (content, None).

Definition transformers : gmap string ZipeScriptTransform :=
  <["ts" := keep]> (<["js" := keep]> ∅).

Definition services : Services :=
  mkServices resolver_info fileCache_get sfcParser transformers
             parseImportsExports basename extname Object_prototype.

(** The calls of the entry [Ping.vue], which imports [Pong.vue], which
    imports [Ping.vue]. *)
Definition ping_pong (c : string * string) : Prop :=
  c = ("/src/Ping.vue", "") \/ c = ("/src/Pong.vue", "/src/Ping.vue")
  \/ c = ("/src/Ping.vue", "/src/Pong.vue").

End Demo.

(** ** [compilers.ts]: the data of a composite file *)

(** JavaScript's truth test on a string and on [boolean | undefined]. *)
Definition truthy_string (s : string) : bool := negb (String.eqb s EmptyString).
Definition truthy_flag (b : option bool) : bool :=
  match b with Some true => true | _ => false end.

(** The decimal digits of an index, as a template literal prints it. *)
Definition decimal (n : nat) : string := NilEmpty.string_of_uint (Nat.to_uint n).

Definition hex_digit (n : nat) : string :=
  String (nth n (list_ascii_of_string "0123456789abcdef") "0"%char) EmptyString.

(** [JSON.stringify] on a string: quotes around the text, in which the
    quote, the backslash and the control characters are escaped. *)
Definition json_escape (c : ascii) : string :=
  let n := nat_of_ascii c in
  if (n =? 34)%nat then backslash +:+ dq
  else if (n =? 92)%nat then backslash +:+ backslash
  else if (n =? 8)%nat then backslash +:+ "b"
  else if (n =? 12)%nat then backslash +:+ "f"
  else if (n =? 10)%nat then backslash +:+ "n"
  else if (n =? 13)%nat then backslash +:+ "r"
  else if (n =? 9)%nat then backslash +:+ "t"
  else if (n <? 32)%nat then
    backslash +:+ "u00" +:+ hex_digit (n / 16) +:+ hex_digit (n mod 16)
  else String c EmptyString.

Fixpoint json_body (s : string) : string :=
  match s with
  | EmptyString => EmptyString
  | String c s' => json_escape c +:+ json_body s'
  end.

Definition JSON_stringify (s : string) : string := dq +:+ json_body s +:+ dq.

(** [s.replace(pattern, replacement)] with a string pattern: the first
    occurrence only. The replacement used by the source has no dollar
    sign, so it is inserted as it is. *)
Fixpoint replace_first (pattern replacement s : string) : string :=
  match strip_prefix pattern s with
  | Some rest => replacement +:+ rest
  | None =>
    match s with
    | EmptyString => EmptyString
    | String c s' => String c (replace_first pattern replacement s')
    end
  end.

(** The value of the [module] attribute of a style block: [true] for the
    bare attribute, or the name it gives. *)
Inductive StyleModule : Type :=
| module_flag (b : bool)
| module_name (name : string).

Definition truthy_module (m : option StyleModule) : bool :=
  match m with
  | None => false
  | Some (module_flag b) => b
  | Some (module_name n) => truthy_string n
  end.

(** A source map: its text, and the sources it embeds
    ([sourcesContent], which a map need not have). *)
Record SourceMap : Type := mkSourceMap {
  map_text : string;
  sourcesContent : option (list string)
}.

(** [map!.sourcesContent![0]], where there is such a text. *)
Definition original (map : option SourceMap) : option string :=
  match map with
  | Some m =>
    match sourcesContent m with
    | Some (source :: _) => Some source
    | _ => None
    end
  | None => None
  end.

Record SFCBlock : Type := mkBlock {
  content : string;
  lang : option string;
  block_map : option SourceMap
}.

Record SFCStyleBlock : Type := mkStyleBlock {
  style_content : string;
  style_lang : option string;
  style_map : option SourceMap;
  scoped : option bool;
  module : option StyleModule;
  loc_start_line : nat
}.

Record SFCDescriptor : Type := mkDescriptor {
  script : option SFCBlock;
  template : option SFCBlock;
  styles : list SFCStyleBlock
}.

(** Where compiler-sfc locates an error ([loc]). *)
Record SourceLocation : Type := mkLocation {
  start_line : nat;
  start_column : nat;
  start_offset : nat;
  end_offset : nat
}.

(** An entry of a list of errors: a text, or an object with a message,
    which may carry the location that compiler-sfc gives ([loc]) and the
    position that PostCSS gives ([line] and [column]). *)
Inductive CompilerError : Type :=
| error_text (text : string)
| error_object (message : string) (loc : option SourceLocation)
               (line column : option nat).

(** JavaScript's truth test on [number | undefined]. *)
Definition truthy_number (n : option nat) : bool :=
  match n with Some (S _) => true | _ => false end.

(** [s.split(/\n/g).length === 1] *)
Definition single_line (s : string) : bool :=
  forallb (fun c => negb (Ascii.eqb c (ascii_of_nat 10))) (list_ascii_of_string s).

Record SFCStyleCompileResults : Type := mkStyleResults {
  result_code : string;
  result_map : option string;
  result_errors : list CompilerError
}.

Record CacheEntry : Type := mkEntry {
  entry_descriptor : option SFCDescriptor;
  entry_template : option string;
  entry_script : option string;
  entry_styles : list (option SFCStyleCompileResults)
}.

(** A cached text as a condition sees it: the empty string counts as
    absent. *)
Definition truthy_text (s : option string) : option string :=
  match s with
  | Some c => if truthy_string c then Some c else None
  | None => None
  end.

(** [{ styles: [] }] *)
Definition empty_entry : CacheEntry := mkEntry None None None [].

(** [cached || { styles: [] }] *)
Definition or_empty (cached : option CacheEntry) : CacheEntry :=
  match cached with Some e => e | None => empty_entry end.

(** [a[i] = v] on a JavaScript array: an index past the end extends the
    array, the slots in between stay empty. *)
Fixpoint array_set {A} (i : nat) (v : A) (a : list (option A)) : list (option A) :=
  match i, a with
  | 0, [] => [Some v]
  | 0, _ :: a' => Some v :: a'
  | S i', [] => None :: array_set i' v []
  | S i', x :: a' => x :: array_set i' v a'
  end.

(** [a[i]], [undefined] for a missing or empty slot. *)
Definition array_get {A} (i : nat) (a : list (option A)) : option A :=
  match a !! i with Some (Some v) => Some v | _ => None end.

(** ** The artifact cache: [new LRUCache({ max: 65535 })]

    The entries from the most recently used to the least; [get] renews an
    entry, [set] puts one in front and drops what exceeds [max]. *)

Definition vueCache_max : nat := N.to_nat 65535.

Module LRU.
Definition t (V : Type) : Type := list (string * V).

Fixpoint find {V} (k : string) (c : t V) : option V :=
  match c with
  | [] => None
  | (k', v) :: c' => if String.eqb k' k then Some v else find k c'
  end.

Fixpoint remove {V} (k : string) (c : t V) : t V :=
  match c with
  | [] => []
  | (k', v) :: c' => if String.eqb k' k then remove k c' else (k', v) :: remove k c'
  end.

Definition get {V} (k : string) (c : t V) : option V * t V :=
  match find k c with
  | Some v => (Some v, (k, v) :: remove k c)
  | None => (None, c)
  end.

Definition set {V} (max : nat) (k : string) (v : V) (c : t V) : t V :=
  take max ((k, v) :: remove k c).
End LRU.

(** ** The compile steps of [compilers.ts] *)

(** The compilers behind the steps, and the helpers of other packages. *)
Record Toolchain : Type := mkToolchain {
  (** [resolveCompiler(root).parse(content, { filename })] *)
  compiler_parse : string -> string -> string -> SFCDescriptor * list CompilerError;
  (** [transform(content, publicPath, { loader })] of the esbuild service *)
  transform : string -> string -> string -> string * option string;
  (** [resolveCompiler(root).compileTemplate], given source, file name,
      incoming map, asset base, scope id and preprocessor *)
  compileTemplate :
    string -> string -> string -> option SourceMap -> string -> option string ->
    option string -> string * option SourceMap * list CompilerError;
  (** [resolveCompiler(root).compileStyleAsync], given source, file name,
      id, the scoped and modules flags, the preprocessor and the PostCSS
      configuration *)
  compileStyleAsync :
    string -> string -> string -> string -> bool -> bool -> option string ->
    option string -> SFCStyleCompileResults;
  loadPostcssConfig : string -> option string;
  (** [cachedRead(null, filename)] *)
  cachedRead : string -> Error + string;
  hash_sum : string -> string;
  hmrClientId : string;
  genSourceMapString : option SourceMap -> string;
  (** [path.posix.dirname] *)
  dirname : string -> string;
  (** [message.replace(filenameRE, "")] of lines 269-274, given the file
      name and the message: what the regular expression matches is left
      to the engine *)
  clean_message : string -> string -> string
}.

(** A call of one of the underlying compilers or of the file reader, or a
    block of diagnostics written to the console. A block is recorded with
    its header line and the errors that the loop over the errors gets to;
    which lines are written for an error (file, line, column, code frame)
    is left out, and so are the [debug] lines. *)
Inductive Invocation : Type :=
| invoke_parse (root content filename : string)
| invoke_transform (content publicPath loader : string)
| invoke_compileTemplate (root source filename : string) (scopeId : option string)
| invoke_compileStyleAsync (root source filename id : string) (scoped modules : bool)
| invoke_cachedRead (filename : string)
| diagnostics (header : string) (errors : list CompilerError).

(** The module-level state: [vueCache] and what has been called so far.
    Each step awaits its compiler before it goes on, so within a step
    nothing runs concurrently and the steps are plain state passing. *)
Record World : Type := mkWorld {
  vueCache : LRU.t CacheEntry;
  invoked : list Invocation
}.

Section Compilers.
Variable tc : Toolchain.

(** Whether the lines of one error can be written. Reading a property of
    [undefined] throws a [TypeError], and each loop reads, without a
    test, something that may be missing.
    - Lines 70-84 read [e.loc!.start] of every error.
    - Lines 194-209 write a text as it is; of an object they read
      [e.loc!.start] and then [template.map!.sourcesContent![0]], of which
      the code frame is made (with no first source the frame is asked of
      [undefined], whose lines cannot be split either).
    - Lines 257-289 write a text as it is; of an object they read
      [style.map!.sourcesContent![0]], and split it into lines, when the
      error has a line and a column and its cleaned message is a single
      line. *)
Definition parse_error_laid_out (e : CompilerError) : bool :=
  match e with
  | error_object _ (Some _) _ _ => true
  | _ => false
  end.

Definition template_error_laid_out (template : SFCBlock) (e : CompilerError) : bool :=
  match e with
  | error_text _ => true
  | error_object _ loc _ _ =>
    match loc, original (block_map template) with
    | Some _, Some _ => true
    | _, _ => false
    end
  end.

Definition style_error_laid_out (style : SFCStyleBlock) (filename : string)
           (e : CompilerError) : bool :=
  match e with
  | error_text _ => true
  | error_object message _ line column =>
    if truthy_number line && truthy_number column
       && single_line (clean_message tc filename message)
    then match original (style_map style) with Some _ => true | None => false end
    else true
  end.

(** The errors that [errors.forEach] gets to: the loop ends at the first
    error whose lines cannot be written. *)
Fixpoint reached (ok : CompilerError -> bool) (errors : list CompilerError)
  : list CompilerError :=
  match errors with
  | [] => []
  | e :: rest => e :: (if ok e then reached ok rest else [])
  end.

(** A block of diagnostics, written when there are errors, and whether
    the loop came to its end; when it did not, the step throws. *)
Definition report (header : string) (ok : CompilerError -> bool)
           (errors : list CompilerError) : list Invocation * bool :=
  match errors with
  | [] => ([], true)
  | _ => ([diagnostics header (reached ok errors)], forallb ok errors)
  end.

(** [parseSFC] (lines 39-92). The promise is rejected ([inl]) when the
    diagnostics throw, before anything is stored. *)
Definition parseSFC (root filename : string) (content : option string) (w : World)
  : (Error + option SFCDescriptor) * World :=
  let '(cached, cache) := LRU.get filename (vueCache w) in
  match cached ≫= entry_descriptor with
  | Some descriptor => (inr (Some descriptor), mkWorld cache (invoked w))
  | None =>
    let read :=
      match content with
      | Some c => if truthy_string c then (inr c, []) else
                    (cachedRead tc filename, [invoke_cachedRead filename])
      | None => (cachedRead tc filename, [invoke_cachedRead filename])
      end in
    match read.1 with
    | inl _ => (inr None, mkWorld cache (invoked w ++ read.2))
    | inr content =>
      let '(descriptor, errors) := compiler_parse tc root content filename in
      let printed := report "[vite] SFC parse error: " parse_error_laid_out errors in
      let calls := read.2 ++ [invoke_parse root content filename] ++ printed.1 in
      if printed.2 then
        let e := or_empty cached in
        let e := mkEntry (Some descriptor) (entry_template e) (entry_script e)
                         (entry_styles e) in
        (inr (Some descriptor),
         mkWorld (LRU.set vueCache_max filename e cache) (invoked w ++ calls))
      else (inl TypeError, mkWorld cache (invoked w ++ calls))
    end
  end.

(** The text of the behaviour block (lines 104-114), with the calls it
    takes. *)
Definition script_code (descriptor : SFCDescriptor) (publicPath : string)
  : string * list Invocation :=
  match script descriptor with
  | Some s =>
    let '(content, calls) :=
      if bool_decide (lang s = Some "ts")
      then ((transform tc (content s) publicPath "ts").1,
            [invoke_transform (content s) publicPath "ts"])
      else (content s, []) in
    (replace_first "export default" "const __script =" content, calls)
  | None => ("const __script = {}", [])
  end.

(** The state of the loop over the style blocks (lines 117-137): what
    has been appended to [code], and the two flags. *)
Record Wiring : Type := mkWiring {
  emitted : list string;
  hasScoped : bool;
  hasCSSModules : bool
}.

Definition styleRequest (publicPath : string) (i : nat) : string :=
  publicPath +:+ "?type=style&index=" +:+ decimal i.

Definition cssModules_declaration : string :=
  nl +:+ "const __cssModules = __script.__cssModules = {}".

Definition style_import (publicPath : string) (i : nat) : string :=
  nl +:+ "import __style" +:+ decimal i +:+ " from "
     +:+ JSON_stringify (styleRequest publicPath i +:+ "&module").

Definition cssModules_assignment (moduleName : string) (i : nat) : string :=
  nl +:+ "__cssModules[" +:+ JSON_stringify moduleName +:+ "] = __style"
     +:+ decimal i.

Definition updateStyle_call (id publicPath : string) (i : nat) : string :=
  nl +:+ "updateStyle(" +:+ dq +:+ id +:+ "-" +:+ decimal i +:+ dq +:+ ", "
     +:+ JSON_stringify (styleRequest publicPath i) +:+ ")".

Definition scopeId_assignment (id : string) : string :=
  nl +:+ "__script.__scopeId = " +:+ dq +:+ "data-v-" +:+ id +:+ dq.

Definition moduleName (s : SFCStyleBlock) : string :=
  match module s with
  | Some (module_name n) => n
  | _ => "$style"
  end.

(** The body of [descriptor.styles.forEach((s, i) => ...)]. *)
Definition style_step (id publicPath : string) (st : Wiring) (i : nat)
           (s : SFCStyleBlock) : Wiring :=
  let scoped' := if truthy_flag (scoped s) then true else hasScoped st in
  let st' :=
    if truthy_module (module s) then
      let declared :=
        if hasCSSModules st then emitted st
        else emitted st ++ [cssModules_declaration] in
      mkWiring (declared ++ [style_import publicPath i;
                             cssModules_assignment (moduleName s) i])
               scoped' true
    else mkWiring (emitted st) scoped' (hasCSSModules st) in
  mkWiring (emitted st' ++ [updateStyle_call id publicPath i])
           (hasScoped st') (hasCSSModules st').

Fixpoint style_loop (id publicPath : string) (st : Wiring) (i : nat)
         (l : list SFCStyleBlock) : Wiring :=
  match l with
  | [] => st
  | s :: l' => style_loop id publicPath (style_step id publicPath st i s) (S i) l'
  end.

(** Line 120. *)
Definition updateStyle_import : string :=
  nl +:+ "import { updateStyle } from " +:+ dq +:+ hmrClientId tc +:+ dq +:+ nl.

(** What lines 116-141 append to [code]. An array is always true in a
    condition, so the test of [descriptor.styles] always passes. *)
Definition style_wiring (descriptor : SFCDescriptor) (publicPath : string)
  : list string :=
  let id := hash_sum tc publicPath in
  let start := mkWiring [updateStyle_import] false false in
  let st := style_loop id publicPath start 0 (styles descriptor) in
  if hasScoped st then emitted st ++ [scopeId_assignment id] else emitted st.

(** What lines 143-155 append to [code]. *)
Definition template_wiring (descriptor : SFCDescriptor) (publicPath : string)
  : list string :=
  match template descriptor with
  | Some _ =>
    [nl +:+ "import { render as __render } from "
        +:+ JSON_stringify (publicPath +:+ "?type=template");
     nl +:+ "__script.render = __render"]
  | None => []
  end.

Definition closing (descriptor : SFCDescriptor) (filePath publicPath : string)
  : list string :=
  [nl +:+ "__script.__hmrId = " +:+ JSON_stringify publicPath;
   nl +:+ "__script.__file = " +:+ JSON_stringify filePath;
   nl +:+ "export default __script"]
  ++ match script descriptor with
     | Some s => [genSourceMapString tc (block_map s)]
     | None => []
     end.

(** Every operand of [code += ...] of [compileSFCMain], in order. *)
Definition fragments (descriptor : SFCDescriptor) (filePath publicPath : string)
  : list string :=
  [(script_code descriptor publicPath).1]
  ++ style_wiring descriptor publicPath
  ++ template_wiring descriptor publicPath
  ++ closing descriptor filePath publicPath.

Definition join_fragments (l : list string) : string :=
  fold_right String.append EmptyString l.

(** [compileSFCMain] (lines 94-161). *)
Definition compileSFCMain (descriptor : SFCDescriptor) (filePath publicPath : string)
           (w : World) : string * World :=
  let '(cached, cache) := LRU.get filePath (vueCache w) in
  match truthy_text (cached ≫= entry_script) with
  | Some code => (code, mkWorld cache (invoked w))
  | None =>
    let code := join_fragments (fragments descriptor filePath publicPath) in
    let e := or_empty cached in
    let e := mkEntry (entry_descriptor e) (entry_template e) (Some code)
                     (entry_styles e) in
    (code, mkWorld (LRU.set vueCache_max filePath e cache)
                   (invoked w ++ (script_code descriptor publicPath).2))
  end.

(** [compileSFCTemplate] (lines 163-219). The function throws ([inl])
    when the diagnostics do, before anything is stored. *)
Definition compileSFCTemplate (root : string) (template : SFCBlock)
           (filename publicPath : string) (scoped : bool) (w : World)
  : (Error + string) * World :=
  let '(cached, cache) := LRU.get filename (vueCache w) in
  match truthy_text (cached ≫= entry_template) with
  | Some code => (inr code, mkWorld cache (invoked w))
  | None =>
    let scopeId :=
      if scoped then Some ("data-v-" +:+ hash_sum tc publicPath) else None in
    let '(code, map, errors) :=
      compileTemplate tc root (content template) filename (block_map template)
                      (dirname tc publicPath) scopeId (lang template) in
    let printed := report "[vite] SFC template compilation error: "
                          (template_error_laid_out template) errors in
    let calls := [invoke_compileTemplate root (content template) filename scopeId]
                 ++ printed.1 in
    if printed.2 then
      let finalCode := code +:+ genSourceMapString tc map in
      let e := or_empty cached in
      let e := mkEntry (entry_descriptor e) (Some finalCode) (entry_script e)
                       (entry_styles e) in
      (inr finalCode,
       mkWorld (LRU.set vueCache_max filename e cache) (invoked w ++ calls))
    else (inl TypeError, mkWorld cache (invoked w ++ calls))
  end.

(** [compileSFCStyle] (lines 221-298). [x != null] holds of every value
    but [null] and [undefined]. The promise is rejected ([inl]) when the
    diagnostics throw, before anything is stored. *)
Definition compileSFCStyle (root : string) (style : SFCStyleBlock) (index : nat)
           (filename publicPath : string) (w : World)
  : (Error + SFCStyleCompileResults) * World :=
  let '(cached, cache) := LRU.get filename (vueCache w) in
  match cached ≫= (fun e => array_get index (entry_styles e)) with
  | Some cachedEntry => (inr cachedEntry, mkWorld cache (invoked w))
  | None =>
    let id := hash_sum tc publicPath in
    let postcssConfig := loadPostcssConfig tc root in
    let result :=
      compileStyleAsync tc root (style_content style) filename ("data-v-" +:+ id)
                        (bool_decide (is_Some (scoped style)))
                        (bool_decide (is_Some (module style)))
                        (style_lang style) postcssConfig in
    let printed := report "[vite] SFC style compilation error: "
                          (style_error_laid_out style filename)
                          (result_errors result) in
    let calls :=
      [invoke_compileStyleAsync root (style_content style) filename
                                ("data-v-" +:+ id)
                                (bool_decide (is_Some (scoped style)))
                                (bool_decide (is_Some (module style)))]
      ++ printed.1 in
    if printed.2 then
      let e := or_empty cached in
      let e := mkEntry (entry_descriptor e) (entry_template e) (entry_script e)
                       (array_set index result (entry_styles e)) in
      (inr result,
       mkWorld (LRU.set vueCache_max filename e cache) (invoked w ++ calls))
    else (inl TypeError, mkWorld cache (invoked w ++ calls))
  end.

End Compilers.

(** ** A toolchain to run the compile steps on *)

Module DemoSFC.

(** A file with a behaviour block, a view and the given style blocks,
    whatever the text. *)
Definition descriptor_of (styles : list SFCStyleBlock) : SFCDescriptor :=
  mkDescriptor (Some (mkBlock "export default { name: 'App' }" None None))
               (Some (mkBlock "<div/>" None None))
               styles.

Definition plain_style : SFCStyleBlock :=
  mkStyleBlock "a { color: red }" None None None None 1.
Definition scoped_style : SFCStyleBlock :=
  mkStyleBlock "a { color: red }" None None (Some true) None 1.
Definition theme_style : SFCStyleBlock :=
  mkStyleBlock ".a { color: red }" None None None (Some (module_name "theme")) 1.
Definition module_style : SFCStyleBlock :=
  mkStyleBlock ".a { color: red }" None None None (Some (module_flag true)) 1.

Definition genSourceMapString (map : option SourceMap) : string :=
  match map with
  | Some m =>
    if truthy_string (map_text m)
    then nl +:+ "//# sourceMappingURL=" +:+ map_text m else ""
  | None => ""
  end.

(** [render] is what the view compiles to, and [errors] what each of the
    three compilers reports; the toolchain answers them for every
    input. *)
Definition toolchain_of (render : string) (errors : list CompilerError) : Toolchain :=
  mkToolchain
    (fun root content filename => (descriptor_of [scoped_style; theme_style], errors))
    (fun content publicPath loader => (content, None))
    (fun root source filename inMap base scopeId preprocessLang =>
       (render, None, errors))
    (fun root source filename id scoped modules preprocessLang postcss =>
       mkStyleResults source None errors)
    (fun root => None)
    (fun filename => inl (NotFound filename))
    (fun publicPath => "h" +:+ decimal (String.length publicPath))
    "/vite/hmr"
    genSourceMapString
    (fun publicPath => "/")
    (fun filename message => message).

Definition toolchain_with (render : string) : Toolchain := toolchain_of render [].

Definition toolchain : Toolchain :=
  toolchain_with "export function render() {}".

(** A view compiler that answers no text at all. *)
Definition silent : Toolchain := toolchain_with "".

(** Compilers that report an error for which they give no location, as
    an object and with the position of PostCSS. *)
Definition unlocated : CompilerError :=
  error_object "Unexpected token" None (Some 1) (Some 1).

Definition faulty : Toolchain :=
  toolchain_of "export function render() {}" [unlocated].

Definition empty_world : World := mkWorld [] [].

End DemoSFC.

(** ** Notions the properties are stated with *)

(** Every call of the tree, the root first. *)
Fixpoint subcalls (c : Call) : list Call :=
  match c with
  | mkCall _ _ _ kids _ => c :: flat_map subcalls kids
  end.

(** No call of the tree is left pending: the recursion has come to an
    end everywhere. *)
Definition finished (c : Call) : Prop :=
  Forall (fun c' => result c' <> Pending) (subcalls c).

Definition node (c : Call) : option ZipeModule.t :=
  match result c with
  | Resolved _ item => Some item
  | _ => None
  end.

Definition direct_edges (c : Call) : list ZipeDependency.t :=
  match result c with
  | Resolved _ item => ZipeModule.dependencies item
  | _ => []
  end.

Definition transitive_edges (c : Call) : list ZipeDependency.t :=
  match result c with
  | Resolved _ item => ZipeModule.fullDependencies item
  | _ => []
  end.

(** The direct edges of every node of the tree: what can be reached from
    the root, an edge as often as it is reached. *)
Fixpoint tree_edges (c : Call) : list ZipeDependency.t :=
  match c with
  | mkCall _ _ _ kids _ => direct_edges c ++ flat_map tree_edges kids
  end.

Definition is_cache_lookup (e : Event) : bool :=
  match e with
  | dependenciesCache_has _ | dependenciesCache_get _ => true
  | _ => false
  end.

Definition is_cache_set (e : Event) : bool :=
  match e with dependenciesCache_set _ _ => true | _ => false end.

Definition is_read (e : Event) : bool :=
  match e with fileCache_get_call _ => true | _ => false end.

Definition is_warning (e : Event) : bool :=
  match e with console_warn _ => true | _ => false end.

(** Times that never decrease along the list. *)
Fixpoint in_order (l : list nat) : Prop :=
  match l with
  | [] => True
  | t :: l' => Forall (fun t' => t <= t') l' /\ in_order l'
  end.

(** Times that grow along the list: no two settle in the same turn. *)
Fixpoint strictly_in_order (l : list nat) : Prop :=
  match l with
  | [] => True
  | t :: l' => Forall (fun t' => t < t') l' /\ strictly_in_order l'
  end.

Section Graph.
Variable sv : Services.

(** The calls the [for] loop of [parse(filePath, importer)] makes: one
    for each direct dependency that is not external. *)
Definition spawned (filePath importer : string) : list (string * string) :=
  match loaded (load sv 0 filePath importer) with
  | inr item =>
    List.map (fun d => (ModuleInformation.path (ZipeDependency.info d),
                        ModuleInformation.path (ZipeModule.module item)))
             (List.filter not_external (ZipeModule.dependencies item))
  | inl _ => []
  end.

(** [imports child parent]: the call [parent] makes the call [child]. *)
Definition imports (child parent : string * string) : Prop :=
  In child (spawned parent.1 parent.2).

(** [reaches c e]: the call [e] is [c] or is made below [c]. *)
Inductive reaches : string * string -> string * string -> Prop :=
| reaches_here (c : string * string) : reaches c c
| reaches_step (c d e : string * string) :
    imports d c -> reaches d e -> reaches c e.

(** The straight-line part of the call succeeds: its resolution, its
    read and its parse or transform are all fulfilled. *)
Definition loads (c : string * string) : Prop :=
  exists item, loaded (load sv 0 c.1 c.2) = inr item.

(** A set of calls each of which makes a call of the set again: the
    calls on an import cycle, for one. *)
Definition recurring (S : string * string -> Prop) : Prop :=
  forall c, S c -> exists d, imports d c /\ S d.

End Graph.

(** What a call does around its read. Its first event is the
    resolution. If that is rejected there is no other event. If it
    answers [m], the next two events are the registration of the fresh
    node under [m.path] and the read of [m.name], and no event after
    them is a registration or a read. *)
Definition registers_before_reading (sv : Services) (c : Call) : Prop :=
  let f := call_filePath c in
  let i := call_importer c in
  (exists e, settle (resolver_info sv f i) = inl e
             /\ events c = [resolver_info_call f i])
  \/ (exists m rest,
        settle (resolver_info sv f i) = inr m
        /\ events c
           = resolver_info_call f i
             :: dependenciesCache_set
                  (ModuleInformation.path m)
                  (ZipeModule.fresh (basename sv (ModuleInformation.name m))
                                    (slice1 (extname sv (ModuleInformation.path m)))
                                    m)
             :: fileCache_get_call (ModuleInformation.name m)
             :: rest
        /\ Forall (fun e => is_read e = false /\ is_cache_set e = false) rest).

(** The fragments of a file none of whose style blocks is a CSS module. *)
Definition plain_fragment (tc : Toolchain) (id publicPath f : string) : Prop :=
  f = updateStyle_import tc \/ exists i, f = updateStyle_call id publicPath i.

(** A declaration of [__cssModules] goes before its first use. *)
Definition declared (st : Wiring) : Prop :=
  hasCSSModules st = true -> In cssModules_declaration (emitted st).

(** [fragment] is a part of [text]. *)
Definition occurs_in (fragment text : string) : Prop :=
  exists before after, text = before +:+ fragment +:+ after.

(** ** A project with a shared dependency

    [Top.vue] imports [Left.vue] and [Right.vue], and both import
    [Shared.vue]; [Broken.vue] imports [Shared.vue] and a file that does
    not exist. The services are those of the project above, over this
    table of files. *)

Module Diamond.

Definition files : list (string * string) :=
  [ ("/src/Top.vue", Demo.import_ "./Left.vue" +:+ nl +:+ Demo.import_ "./Right.vue");
    ("/src/Left.vue", Demo.import_ "./Shared.vue");
    ("/src/Right.vue", Demo.import_ "./Shared.vue");
    ("/src/Shared.vue", "export default {}");
    ("/src/Broken.vue",
       Demo.import_ "./Shared.vue" +:+ nl +:+ Demo.import_ "./Missing.vue") ].

Definition fileCache_get (key : string) : Async string :=
  match Demo.lookup_file key files with
  | Some content => fulfilled 0 content
  | None => rejected 0 (NotFound key)
  end.

Definition services : Services :=
  mkServices Demo.resolver_info fileCache_get Demo.sfcParser Demo.transformers
             Demo.parseImportsExports Demo.basename Demo.extname Object_prototype.

End Diamond.

(** ** A project with a slow read

    [T.vue] imports [Y.vue] and then [X.vue]. Below [Y.vue] there are
    two more files, one after the other; below [X.vue] there is one, but
    the read of [X.vue] takes five turns longer than the others. *)

Module Slow.

Definition files : list (string * string) :=
  [ ("/src/T.vue", Demo.import_ "./Y.vue" +:+ nl +:+ Demo.import_ "./X.vue");
    ("/src/Y.vue", Demo.import_ "./Y1.vue");
    ("/src/Y1.vue", Demo.import_ "./logo.png");
    ("/src/logo.png", "PNG");
    ("/src/X.vue", Demo.import_ "./x.png");
    ("/src/x.png", "PNG") ].

Definition fileCache_get (key : string) : Async string :=
  match Demo.lookup_file key files with
  | Some content => fulfilled (if String.eqb key "/src/X.vue" then 5 else 0) content
  | None => rejected 0 (NotFound key)
  end.

Definition services : Services :=
  mkServices Demo.resolver_info fileCache_get Demo.sfcParser Demo.transformers
             Demo.parseImportsExports Demo.basename Demo.extname Object_prototype.

End Slow.

(** ** A project with files named after members of [Object.prototype]

    No transform is registered for the extensions of these files, but
    the registry of the project above is an object literal, and its
    prototype has a member of each of these names. *)

Module Members.

Definition files : list (string * string) :=
  [ ("/src/notes.constructor", "notes");
    ("/src/notes.__proto__", "notes") ].

Definition fileCache_get (key : string) : Async string :=
  match Demo.lookup_file key files with
  | Some content => fulfilled 0 content
  | None => rejected 0 (NotFound key)
  end.

Definition services : Services :=
  mkServices Demo.resolver_info fileCache_get Demo.sfcParser Demo.transformers
             Demo.parseImportsExports Demo.basename Demo.extname Object_prototype.

End Members.

(** Every event of every call of the tree, call after call. *)
Definition all_events (c : Call) : list Event := flat_map events (subcalls c).

(** A cache as the library keeps it: no more entries than [max], and one
    entry for a key at most. *)
Definition well_kept (max : nat) {V} (c : LRU.t V) : Prop :=
  length c <= max /\ List.NoDup (List.map fst c).

(** What a step may do to the cache: renew the entry of [path], or renew
    it and then store [e'] under [path]. *)
Definition cache_step (path : string) (c c' : LRU.t CacheEntry)
           (stored : option CacheEntry) : Prop :=
  match stored with
  | None => c' = (LRU.get path c).2
  | Some e' => c' = LRU.set vueCache_max path e' (LRU.get path c).2
  end.

(** The declaration of [__cssModules] is in the text once the flag is
    set and not before, and it is there once; every assignment has the
    declaration before it. *)
Definition wired (l : list string) (flag : bool) : Prop :=
  count_occ string_dec l cssModules_declaration = (if flag then 1 else 0)
  /\ forall n name i,
       l !! n = Some (cssModules_assignment name i) ->
       exists m, m < n /\ l !! m = Some cssModules_declaration.

(** ** [vite/transformers.ts]: the registry of script transforms

    The entries of the object literal [scriptTransforms]. [esbuild]
    stands for [transform] of vite's esbuild service, given the content,
    the file path and the loader; [parse] passes no other option. Being
    an object literal, the registry inherits from [Object.prototype]:
    for a key that is none of its entries, the read of the key answers
    what [Object_prototype] has. *)
Definition scriptTransforms
           (esbuild : string -> string -> string -> Async (string * option string))
  : gmap string ZipeScriptTransform :=
  list_to_map
    [ ("ts", fun content filepath => esbuild content filepath "ts");
      ("js", fun content filepath => esbuild content filepath "js");
      ("jsx", fun content filepath => esbuild content filepath "jsx");
      ("tsx", fun content filepath => esbuild content filepath "tsx");
      ("json", fun content filepath => esbuild content filepath "json") ].

(** The project above with the registry of [vite/transformers.ts], over
    a compiler that marks the text with the loader it was given. *)
Module DemoTransforms.

Definition esbuild (content filepath loader : string)
  : Async (string * option string) :=
  fulfilled 1 ("/* " +:+ loader +:+ " */ " +:+ content, None).

Definition services : Services :=
  mkServices Demo.resolver_info Demo.fileCache_get Demo.sfcParser
             (scriptTransforms esbuild)
             Demo.parseImportsExports Demo.basename Demo.extname Object_prototype.

End DemoTransforms.

(** ** Occurrences of a name in a text *)

(** Whether [p] occurs in [s], as a test. *)
Fixpoint occursb (p s : string) : bool :=
  match strip_prefix p s with
  | Some _ => true
  | None =>
    match s with
    | EmptyString => false
    | String _ s' => occursb p s'
    end
  end.

(** Whether [c] is a character of [p]. *)
Definition mem (c : ascii) (p : string) : bool :=
  existsb (Ascii.eqb c) (list_ascii_of_string p).

(** Whether [s] starts, or ends, with a character that [p] does not
    have: no occurrence of [p] can then reach over that end of [s]. *)
Definition starts_foreign (p s : string) : bool :=
  match s with
  | EmptyString => false
  | String c _ => negb (mem c p)
  end.

Fixpoint last_char (s : string) : option ascii :=
  match s with
  | EmptyString => None
  | String c EmptyString => Some c
  | String _ s' => last_char s'
  end.

Definition ends_foreign (p s : string) : bool :=
  match last_char s with
  | Some c => negb (mem c p)
  | None => false
  end.

(** A character that [JSON.stringify] leaves as it is. *)
Definition plain (c : ascii) : bool :=
  let n := nat_of_ascii c in
  negb (n =? 34)%nat && negb (n =? 92)%nat && negb (n <? 32)%nat.

(** The texts that [compileSFCMain] is handed and puts into the code it
    generates: the behaviour text as it is taken over, the id of the
    client of hot module replacement, the hash of the public path, the
    two paths, and the source map of the behaviour block as a comment. *)
Definition handed_in (tc : Toolchain) (descriptor : SFCDescriptor)
           (filePath publicPath : string) : list string :=
  [(script_code tc descriptor publicPath).1; hmrClientId tc;
   hash_sum tc publicPath; publicPath; filePath]
  ++ match script descriptor with
     | Some s => [genSourceMapString tc (block_map s)]
     | None => []
     end.

(** * Properties *)

(** ** Facts about [load], [join] and [parse] *)

Ltac load_cases :=
  unfold load; repeat case_match; simpl in *; simplify_eq; simpl.

Section ParseFacts.
Variable sv : Services.

(** The time a call starts at does not change what it loads. *)
Lemma load_loaded_time t f i :
  loaded (load sv t f i) = loaded (load sv 0 f i).
Proof. load_cases; try reflexivity; congruence. Qed.

(** What the straight-line part leaves in the node. *)
Lemma load_node t f i item :
  loaded (load sv t f i) = inr item ->
  ZipeModule.fullDependencies item = []
  /\ ZipeModule.dependenciesPromise item = None
  /\ ZipeModule.styles (ZipeModule.extra item) = []
  /\ settle (resolver_info sv f i) = inr (ZipeModule.module item).
Proof. load_cases; intros; simplify_eq; auto. Qed.

Lemma absorb_all_fullDependencies (l : list (nat * ZipeModule.t)) item :
  ZipeModule.fullDependencies (fold_left absorb (List.map snd l) item)
  = ZipeModule.fullDependencies item
    ++ flat_map (fun r => ZipeModule.fullDependencies r.2) l.
Proof.
  revert item. induction l as [|x l IH]; intros item; simpl.
  - by rewrite app_nil_r.
  - rewrite IH. simpl. by rewrite <- app_assoc.
Qed.

Lemma absorb_all_kept xs item :
  let item' := fold_left absorb xs item in
  ZipeModule.dependencies item' = ZipeModule.dependencies item
  /\ ZipeModule.dependenciesPromise item' = ZipeModule.dependenciesPromise item
  /\ ZipeModule.code item' = ZipeModule.code item
  /\ ZipeModule.rawContent item' = ZipeModule.rawContent item
  /\ ZipeModule.module item' = ZipeModule.module item.
Proof.
  revert item. induction xs as [|x xs IH]; intros item; simpl; [done|].
  destruct (IH (absorb item x)) as (-> & -> & -> & -> & ->). done.
Qed.

Lemma insert_by_time_perm {A} (x : nat * A) l :
  Permutation (insert_by_time x l) (x :: l).
Proof.
  induction l as [|y l IH]; simpl; [done|].
  case_match; [done|]. rewrite IH. apply perm_swap.
Qed.

Lemma completion_order_perm {A} (l : list (nat * A)) :
  Permutation (completion_order l) l.
Proof.
  induction l as [|x l IH]; simpl; [done|].
  rewrite insert_by_time_perm. by constructor.
Qed.

Lemma insert_by_time_first {A} (x : nat * A) l :
  Forall (fun y => x.1 <= y.1) l -> insert_by_time x l = x :: l.
Proof.
  destruct l as [|y l]; simpl; [done|].
  intros H. apply Forall_cons_1 in H as [H _].
  apply Nat.leb_le in H. by rewrite H.
Qed.

Lemma completion_order_in_order {A} (l : list (nat * A)) :
  in_order (List.map fst l) -> completion_order l = l.
Proof.
  induction l as [|x l IH]; simpl; [done|].
  intros [H1 H2]. rewrite IH by done.
  apply insert_by_time_first. rewrite List.Forall_map in H1. exact H1.
Qed.

Lemma strictly_in_order_weaken l : strictly_in_order l -> in_order l.
Proof.
  induction l as [|t l IH]; simpl; [done|].
  intros [H1 H2]. split; [|auto].
  eapply Forall_impl; [exact H1|]. simpl. intros; lia.
Qed.

Lemma insert_by_time_in_order {A} (x : nat * A) l :
  in_order (List.map fst l) -> in_order (List.map fst (insert_by_time x l)).
Proof.
  induction l as [|y l IH]; simpl; [by repeat constructor|].
  intros [Hy Hl]. destruct (x.1 <=? y.1)%nat eqn:E; simpl.
  - apply Nat.leb_le in E. split; [|done].
    constructor; [done|]. eapply Forall_impl; [exact Hy|]. simpl. intros; lia.
  - apply Nat.leb_gt in E. split; [|auto].
    rewrite List.Forall_map in Hy |- *.
    rewrite List.Forall_forall in Hy |- *. intros z Hz.
    apply (Permutation_in _ (insert_by_time_perm x l)) in Hz as [<-|Hz];
      [lia|auto].
Qed.

Lemma completion_order_sorted {A} (l : list (nat * A)) :
  in_order (List.map fst (completion_order l)).
Proof.
  induction l as [|x l IH]; simpl; [done|]. by apply insert_by_time_in_order.
Qed.

Lemma fulfilments_all kids :
  first_rejection kids = None -> existsb is_pending kids = false ->
  Forall2 (fun k r => result k = Resolved r.1 r.2) kids (fulfilments kids).
Proof.
  induction kids as [|k kids IH]; simpl; [constructor|].
  unfold is_pending at 1.
  destruct (result k) eqn:Hk; simpl.
  - discriminate.
  - destruct (first_rejection kids) as [[? ?]|]; [case_match|]; discriminate.
  - intros H1 H2. constructor; [done|auto].
Qed.

Lemma join_resolved t item kids t' item' :
  join t item kids = Resolved t' item' ->
  Forall2 (fun k r => result k = Resolved r.1 r.2) kids (fulfilments kids)
  /\ t' = latest t (fulfilments kids) + turns kids
  /\ item' = fold_left absorb
               (List.map snd (completion_order (fulfilments kids))) item.
Proof.
  unfold join. destruct (first_rejection kids) as [[? ?]|] eqn:Hr; [discriminate|].
  destruct (existsb is_pending kids) eqn:Hp; [discriminate|].
  intros H. injection H as <- <-. split; [|done].
  by apply fulfilments_all.
Qed.

Lemma latest_bounds t l :
  t <= latest t l /\ Forall (fun r => r.1 <= latest t l) l.
Proof.
  induction l as [|x l [IH1 IH2]]; simpl; [split; [lia|constructor]|].
  split; [lia|]. constructor; [lia|].
  eapply Forall_impl; [exact IH2|]. simpl. intros; lia.
Qed.

(** The unfolding of [parse] at a call that has loaded its module. *)
Lemma parse_loaded fuel t f i item :
  loaded (load sv t f i) = inr item ->
  let item1 := ZipeModule.with_fullDependencies
                 (ZipeModule.fullDependencies item ++ ZipeModule.dependencies item)
                 item in
  let kids :=
    List.map
      (fun d => parse sv fuel (loaded_at (load sv t f i))
                      (ModuleInformation.path (ZipeDependency.info d))
                      (ModuleInformation.path (ZipeModule.module item)))
      (List.filter not_external (ZipeModule.dependencies item)) in
  parse sv (S fuel) t f i
  = mkCall f i (loaded_events (load sv t f i)) kids
           (join (loaded_at (load sv t f i)) item1 kids).
Proof. intros H. simpl. rewrite H. reflexivity. Qed.

Lemma parse_failed fuel t f i e :
  loaded (load sv t f i) = inl e ->
  parse sv (S fuel) t f i
  = mkCall f i (loaded_events (load sv t f i)) []
           (Rejected (loaded_at (load sv t f i)) e).
Proof. intros H. simpl. rewrite H. reflexivity. Qed.


Lemma parse_resolved fuel t f i t' item :
  result (parse sv fuel t f i) = Resolved t' item ->
  exists n item0,
    fuel = S n /\ loaded (load sv t f i) = inr item0.
Proof.
  destruct fuel as [|n]; simpl; [discriminate|].
  destruct (loaded (load sv t f i)) as [e|item0] eqn:Hl; simpl; [discriminate|].
  intros _. eauto.
Qed.

Lemma flat_map_fulfilments kids :
  Forall2 (fun k r => result k = Resolved r.1 r.2) kids (fulfilments kids) ->
  flat_map (fun r => ZipeModule.fullDependencies r.2) (fulfilments kids)
  = flat_map transitive_edges kids.
Proof.
  induction kids as [|k kids IH]; simpl; [done|].
  unfold transitive_edges at 1.
  destruct (result k) eqn:Hk; simpl; intros H.
  - inversion H; subst; simpl in *; congruence.
  - inversion H; subst; simpl in *; congruence.
  - inversion H; subst. f_equal. auto.
Qed.

Lemma node_fulfilments kids :
  Forall2 (fun k r => result k = Resolved r.1 r.2) kids (fulfilments kids) ->
  List.map node kids = List.map (fun r => Some r.2) (fulfilments kids).
Proof.
  induction kids as [|k kids IH]; simpl; [done|].
  unfold node at 1.
  destruct (result k) eqn:Hk; simpl; intros H.
  - inversion H; subst; simpl in *; congruence.
  - inversion H; subst; simpl in *; congruence.
  - inversion H; subst. f_equal. auto.
Qed.

End ParseFacts.

Section ParseTree.
Variable sv : Services.

Lemma flat_map_Forall2_perm {A B C} (f : A -> list C) (g : B -> list C) l l' :
  Forall2 (fun a b => Permutation (g b) (f a)) l l' ->
  Permutation (flat_map g l') (flat_map f l).
Proof.
  induction 1; simpl; [done|]. by apply Permutation_app.
Qed.

(** The node of a fulfilled call: the unfolding that the results about
    nodes start from. *)
Lemma parse_node fuel t f i t' item :
  result (parse sv fuel t f i) = Resolved t' item ->
  exists n item0,
    fuel = S n
    /\ loaded (load sv t f i) = inr item0
    /\ let kids := children (parse sv fuel t f i) in
       kids = List.map
                (fun d => parse sv n (loaded_at (load sv t f i))
                            (ModuleInformation.path (ZipeDependency.info d))
                            (ModuleInformation.path (ZipeModule.module item0)))
                (List.filter not_external (ZipeModule.dependencies item0))
       /\ Forall2 (fun k r => result k = Resolved r.1 r.2) kids (fulfilments kids)
       /\ t' = latest (loaded_at (load sv t f i)) (fulfilments kids) + turns kids
       /\ item = fold_left absorb
                   (List.map snd (completion_order (fulfilments kids)))
                   (ZipeModule.with_fullDependencies
                      (ZipeModule.fullDependencies item0
                       ++ ZipeModule.dependencies item0) item0).
Proof.
  intros H.
  destruct (parse_resolved sv _ _ _ _ _ _ H) as (n & item0 & -> & Hl).
  exists n, item0. split; [done|]. split; [done|].
  rewrite (parse_loaded sv n t f i item0 Hl) in H |- *.
  cbn zeta in *. simpl in H. simpl.
  apply join_resolved in H as (Hall & Ht & Hi). auto.
Qed.

Lemma node_edges fuel t f i t' item :
  result (parse sv fuel t f i) = Resolved t' item ->
  exists item0,
    loaded (load sv t f i) = inr item0
    /\ ZipeModule.dependencies item = ZipeModule.dependencies item0
    /\ ZipeModule.module item = ZipeModule.module item0
    /\ ZipeModule.fullDependencies item
       = ZipeModule.dependencies item
         ++ flat_map (fun r => ZipeModule.fullDependencies r.2)
              (completion_order (fulfilments (children (parse sv fuel t f i)))).
Proof.
  intros H. destruct (parse_node _ _ _ _ _ _ H) as (n & item0 & -> & Hl & Hk).
  cbn zeta in Hk. destruct Hk as (Hkids & Hall & Ht & Hi).
  exists item0. split; [done|].
  destruct (load_node sv _ _ _ _ Hl) as (Hfull & _).
  pose proof (absorb_all_kept
    (List.map snd (completion_order (fulfilments (children (parse sv (S n) t f i)))))
    (ZipeModule.with_fullDependencies
       (ZipeModule.fullDependencies item0 ++ ZipeModule.dependencies item0) item0))
    as (Hd & _ & _ & _ & Hm).
  cbn zeta in Hd, Hm. rewrite <- Hi in Hd, Hm. simpl in Hd, Hm.
  split; [done|]. split; [done|].
  rewrite Hi at 1. rewrite absorb_all_fullDependencies. simpl.
  by rewrite Hfull, Hd.
Qed.

Lemma tree_edges_parse fuel : forall t f i t' item,
  result (parse sv fuel t f i) = Resolved t' item ->
  Permutation (ZipeModule.fullDependencies item) (tree_edges (parse sv fuel t f i)).
Proof.
  induction fuel as [|n IH]; intros t f i t' item H; [discriminate|].
  destruct (node_edges _ _ _ _ _ _ H) as (item0 & Hl & Hd & Hm & ->).
  destruct (parse_node _ _ _ _ _ _ H) as (n' & item0' & Hn & Hl' & Hk).
  injection Hn as <-. rewrite Hl in Hl'. injection Hl' as <-.
  cbn zeta in Hk. destruct Hk as (Hkids & Hall & _ & _).
  destruct (parse sv (S n) t f i) as [f' i' ev kids r] eqn:Hp.
  simpl in *. unfold direct_edges. simpl. subst r.
  apply Permutation_app_head.
  rewrite completion_order_perm.
  apply flat_map_Forall2_perm.
  clear Hp.
  assert (Hcalls : Forall (fun k => exists t f i, k = parse sv n t f i) kids).
  { subst kids. apply List.Forall_map, Forall_forall. intros; eauto. }
  revert Hcalls. clear Hkids.
  induction Hall as [|k r kids rs Hk Hall IHall]; intros Hcalls; constructor.
  - apply Forall_cons_1 in Hcalls as [(tk & fk & ik & ->) _]. eauto.
  - apply Forall_cons_1 in Hcalls as [_ Hcalls]. auto.
Qed.

(** Below a fulfilled call every call is fulfilled. *)
Lemma resolved_tree fuel : forall t f i t' item,
  result (parse sv fuel t f i) = Resolved t' item ->
  Forall (fun c => node c <> None) (subcalls (parse sv fuel t f i)).
Proof.
  induction fuel as [|n IH]; intros t f i t' item H; [discriminate|].
  destruct (parse_node _ _ _ _ _ _ H) as (n' & item0 & Hn & Hl & Hk).
  injection Hn as <-. cbn zeta in Hk. destruct Hk as (Hkids & Hall & _ & _).
  destruct (parse sv (S n) t f i) as [f' i' ev kids r] eqn:Hp.
  simpl in *. subst r. constructor; [unfold node; simpl; discriminate|].
  apply Forall_flat_map.
  assert (Hcalls : Forall (fun k => exists t f i, k = parse sv n t f i) kids).
  { subst kids. apply List.Forall_map, List.Forall_forall. intros; eauto. }
  clear Hkids Hp.
  induction Hall as [|k r kids rs Hk Hall IHall]; constructor.
  - apply Forall_cons_1 in Hcalls as [(tk & fk & ik & ->) _]. eauto.
  - apply Forall_cons_1 in Hcalls as [_ Hcalls]. auto.
Qed.

(** Every call of the tree is a call of [parse]. *)
Lemma subcalls_parse fuel : forall t f i,
  Forall (fun c => exists n t' f' i', c = parse sv n t' f' i')
         (subcalls (parse sv fuel t f i)).
Proof.
  induction fuel as [|n IH]; intros t f i.
  - simpl. constructor; [|constructor]. by exists 0, t, f, i.
  - destruct (loaded (load sv t f i)) as [e|item0] eqn:Hl.
    + rewrite (parse_failed sv n t f i e Hl). simpl.
      constructor; [|constructor].
      exists (S n), t, f, i. by rewrite (parse_failed sv n t f i e Hl).
    + rewrite (parse_loaded sv n t f i item0 Hl). cbn zeta. simpl.
      constructor.
      * exists (S n), t, f, i. by rewrite (parse_loaded sv n t f i item0 Hl).
      * apply Forall_flat_map, List.Forall_map, Forall_forall. intros d _. apply IH.
Qed.

End ParseTree.

Section CallFacts.
Variable sv : Services.

Lemma parse_arguments fuel t f i :
  call_filePath (parse sv fuel t f i) = f /\ call_importer (parse sv fuel t f i) = i.
Proof.
  destruct fuel as [|n]; simpl; [done|].
  by destruct (loaded (load sv t f i)).
Qed.

Lemma children_arguments n t0 m (l : list ZipeDependency.t) :
  List.map (fun k => (call_filePath k, call_importer k))
           (List.map (fun d => parse sv n t0
                                 (ModuleInformation.path (ZipeDependency.info d)) m) l)
  = List.map (fun d => (ModuleInformation.path (ZipeDependency.info d), m)) l.
Proof.
  induction l as [|d l IH]; simpl; [done|].
  destruct (parse_arguments n t0 (ModuleInformation.path (ZipeDependency.info d)) m)
    as [-> ->].
  by rewrite IH.
Qed.

Lemma turns_positive kids : 0 < turns kids.
Proof. destruct kids; simpl; lia. Qed.

Lemma resolved_before (T T' : nat) kids (rs : list (nat * ZipeModule.t)) :
  Forall2 (fun k r => result k = Resolved r.1 r.2) kids rs ->
  Forall (fun r => r.1 <= T) rs ->
  T < T' ->
  Forall (fun k => exists tk x, result k = Resolved tk x /\ tk < T') kids.
Proof.
  induction 1 as [|k r kids rs Hk Hall IH]; intros Hb HT; constructor.
  - apply Forall_cons_1 in Hb as [Hb _]. exists r.1, r.2. split; [done|]. lia.
  - apply Forall_cons_1 in Hb as [_ Hb]. auto.
Qed.

Lemma resolved_after_children fuel t f i t' item :
  result (parse sv fuel t f i) = Resolved t' item ->
  Forall (fun k => exists tk x, result k = Resolved tk x /\ tk < t')
         (children (parse sv fuel t f i)).
Proof.
  intros H. destruct (parse_node sv _ _ _ _ _ _ H) as (n & item0 & -> & Hl & Hk).
  cbn zeta in Hk. destruct Hk as (_ & Hall & -> & _).
  set (kids := children (parse sv (S n) t f i)) in *.
  apply (resolved_before (latest (loaded_at (load sv t f i)) (fulfilments kids))
                         _ kids (fulfilments kids) Hall).
  - apply latest_bounds.
  - pose proof (turns_positive kids). lia.
Qed.

End CallFacts.


Section EventFacts.
Variable sv : Services.

Lemma load_events t f i :
  let ev := loaded_events (load sv t f i) in
  (exists e, settle (resolver_info sv f i) = inl e
             /\ ev = [resolver_info_call f i])
  \/ (exists m rest,
        settle (resolver_info sv f i) = inr m
        /\ ev = resolver_info_call f i
                :: dependenciesCache_set
                     (ModuleInformation.path m)
                     (ZipeModule.fresh (basename sv (ModuleInformation.name m))
                                       (slice1 (extname sv (ModuleInformation.path m)))
                                       m)
                :: fileCache_get_call (ModuleInformation.name m)
                :: rest
        /\ Forall (fun e => is_read e = false /\ is_cache_set e = false) rest).
Proof.
  cbn zeta. unfold load.
  destruct (settle (resolver_info sv f i)) as [e|m] eqn:Hr; simpl.
  { left. eauto. }
  right. exists m.
  repeat case_match; simpl; eexists; (split; [reflexivity|]);
    (split; [reflexivity|]); repeat constructor.
Qed.

Lemma load_no_lookup t f i :
  Forall (fun e => is_cache_lookup e = false) (loaded_events (load sv t f i)).
Proof. load_cases; repeat constructor. Qed.

Lemma parse_events fuel t f i :
  events (parse sv (S fuel) t f i) = loaded_events (load sv t f i).
Proof. simpl. by destruct (loaded (load sv t f i)). Qed.

Lemma parse_registers_before_reading fuel t f i :
  registers_before_reading sv (parse sv (S fuel) t f i).
Proof.
  unfold registers_before_reading.
  destruct (parse_arguments sv (S fuel) t f i) as [-> ->].
  rewrite parse_events. apply load_events.
Qed.

End EventFacts.


Section Branches.
Variable sv : Services.

(** The branch of line 172: a warning and the node as it is. *)
Lemma load_unsupported t f i m content :
  settle (resolver_info sv f i) = inr m ->
  settle (fileCache_get sv (ModuleInformation.name m)) = inr content ->
  slice1 (extname sv (ModuleInformation.path m)) <> "vue" ->
  transformers sv !! slice1 (extname sv (ModuleInformation.path m)) = None ->
  inherited sv (slice1 (extname sv (ModuleInformation.path m))) = None ->
  let item := ZipeModule.fresh (basename sv (ModuleInformation.name m))
                               (slice1 (extname sv (ModuleInformation.path m))) m in
  loaded (load sv t f i) = inr (ZipeModule.with_rawContent content item)
  /\ loaded_events (load sv t f i)
     = [resolver_info_call f i;
        dependenciesCache_set (ModuleInformation.path m) item;
        fileCache_get_call (ModuleInformation.name m);
        console_warn ("[zipe] no transformer found for " +:+ f)].
Proof.
  intros Hr Hc Hvue Htr Hin. cbn zeta. unfold load. rewrite Hr, Hc.
  destruct (String.eqb_spec (slice1 (extname sv (ModuleInformation.path m))) "vue")
    as [E|_]; [contradiction|].
  rewrite Htr, Hin. simpl. done.
Qed.

(** The read of line 132 rejected. *)
Lemma load_not_found t f i m e :
  settle (resolver_info sv f i) = inr m ->
  settle (fileCache_get sv (ModuleInformation.name m)) = inl e ->
  load sv t f i
  = mkLoaded
      [resolver_info_call f i;
       dependenciesCache_set
         (ModuleInformation.path m)
         (ZipeModule.fresh (basename sv (ModuleInformation.name m))
                           (slice1 (extname sv (ModuleInformation.path m))) m);
       fileCache_get_call (ModuleInformation.name m)]
      (t + S (ticks (resolver_info sv f i))
       + S (ticks (fileCache_get sv (ModuleInformation.name m))))
      (inl e).
Proof. intros Hr Hc. unfold load. rewrite Hr, Hc. reflexivity. Qed.

(** The branch of lines 153-170: the extractor is given the script text
    of the composite sub-result, which is still the empty string of the
    object literal. *)
Lemma load_transformed t f i m content transformer code map :
  settle (resolver_info sv f i) = inr m ->
  settle (fileCache_get sv (ModuleInformation.name m)) = inr content ->
  slice1 (extname sv (ModuleInformation.path m)) <> "vue" ->
  transformers sv !! slice1 (extname sv (ModuleInformation.path m)) = Some transformer ->
  settle (transformer content f) = inr (code, map) ->
  exists item,
    loaded (load sv t f i) = inr item
    /\ ZipeModule.code item = Some code
    /\ ZipeModule.map item = map
    /\ ZipeModule.dependencies item
       = (parseImportsExports sv "" (ModuleInformation.name m) (resolver_info sv)).1
    /\ ZipeModule.exports item
       = (parseImportsExports sv "" (ModuleInformation.name m) (resolver_info sv)).2.
Proof.
  intros Hr Hc Hvue Htr Ht. unfold load. rewrite Hr, Hc.
  destruct (String.eqb_spec (slice1 (extname sv (ModuleInformation.path m))) "vue")
    as [E|_]; [contradiction|].
  rewrite Htr, Ht. simpl.
  destruct (parseImportsExports sv "" (ModuleInformation.name m) (resolver_info sv))
    as [imports exports].
  eexists. split; [reflexivity|]. simpl. done.
Qed.

End Branches.


Section Termination.
Variable sv : Services.

Lemma finished_unfold f i ev kids r :
  finished (mkCall f i ev kids r) <-> r <> Pending /\ Forall finished kids.
Proof.
  unfold finished. simpl. rewrite Forall_cons, Forall_flat_map. done.
Qed.

Lemma spawned_loaded t f i item0 :
  loaded (load sv t f i) = inr item0 ->
  spawned sv f i
  = List.map (fun d => (ModuleInformation.path (ZipeDependency.info d),
                        ModuleInformation.path (ZipeModule.module item0)))
             (List.filter not_external (ZipeModule.dependencies item0)).
Proof.
  intros Hl. unfold spawned. rewrite load_loaded_time in Hl. by rewrite Hl.
Qed.

(** More fuel changes nothing once the recursion has come to an end. *)
Lemma finished_parse_stable n : forall t f i m,
  finished (parse sv n t f i) -> n <= m -> parse sv m t f i = parse sv n t f i.
Proof.
  induction n as [|n IH]; intros t f i m Hfin Hle.
  - simpl in Hfin. apply finished_unfold in Hfin as [H _]. congruence.
  - destruct m as [|m]; [lia|].
    destruct (loaded (load sv t f i)) as [e|item0] eqn:Hl.
    + by rewrite !(parse_failed sv _ t f i e Hl).
    + rewrite (parse_loaded sv n t f i item0 Hl) in Hfin |- *.
      rewrite (parse_loaded sv m t f i item0 Hl).
      cbn zeta in *. apply finished_unfold in Hfin as [_ Hkids].
      assert (Heq :
        List.map (fun d => parse sv m (loaded_at (load sv t f i))
                     (ModuleInformation.path (ZipeDependency.info d))
                     (ModuleInformation.path (ZipeModule.module item0)))
                 (List.filter not_external (ZipeModule.dependencies item0))
        = List.map (fun d => parse sv n (loaded_at (load sv t f i))
                     (ModuleInformation.path (ZipeDependency.info d))
                     (ModuleInformation.path (ZipeModule.module item0)))
                 (List.filter not_external (ZipeModule.dependencies item0))).
      { apply map_ext_in. intros d Hd. apply IH; [|lia].
        rewrite List.Forall_map, List.Forall_forall in Hkids. by apply Hkids. }
      by rewrite Heq.
Qed.

Lemma join_settled t item kids :
  Forall (fun k => result k <> Pending) kids -> join t item kids <> Pending.
Proof.
  intros H. unfold join.
  destruct (first_rejection kids) as [[? ?]|]; [discriminate|].
  assert (existsb is_pending kids = false) as ->; [|discriminate].
  induction H as [|k kids Hk _ IH]; simpl; [done|].
  rewrite IH. unfold is_pending. by destruct (result k).
Qed.

Lemma join_fulfilled t item kids :
  Forall (fun k => exists tk x, result k = Resolved tk x) kids ->
  exists t' item', join t item kids = Resolved t' item'.
Proof.
  intros H. unfold join.
  assert (first_rejection kids = None) as ->.
  { induction H as [|k kids (tk & x & Hk) _ IH]; simpl; [done|]. by rewrite Hk, IH. }
  assert (existsb is_pending kids = false) as ->; [|eauto].
  induction H as [|k kids (tk & x & Hk) _ IH]; simpl; [done|].
  rewrite IH. unfold is_pending. by rewrite Hk.
Qed.

Lemma finished_root c : finished c -> result c <> Pending.
Proof. destruct c. intros H. by apply finished_unfold in H as [H _]. Qed.

(** One amount of fuel for all the calls of a list. *)
Lemma common_fuel (P : nat -> string * string -> Prop) (l : list (string * string)) :
  (forall n m c, P n c -> n <= m -> P m c) ->
  Forall (fun c => exists n, P n c) l ->
  exists n, Forall (P n) l.
Proof.
  intros Hmono. induction 1 as [|c l [n Hn] _ [n' IH]].
  - exists 0. constructor.
  - exists (Nat.max n n'). constructor.
    + eapply Hmono; [exact Hn|lia].
    + eapply Forall_impl; [exact IH|]. intros c' Hc'. eapply Hmono; [exact Hc'|lia].
Qed.

Definition ends_within (n : nat) (c : string * string) : Prop :=
  forall t,
    finished (parse sv n t c.1 c.2)
    /\ ((forall e, reaches sv c e -> loads sv e) ->
        exists t' item, result (parse sv n t c.1 c.2) = Resolved t' item).

Lemma ends_within_mono n m c : ends_within n c -> n <= m -> ends_within m c.
Proof.
  intros H Hle t. destruct (H t) as [Hfin Hres].
  by rewrite (finished_parse_stable n t c.1 c.2 m Hfin Hle).
Qed.

Lemma acyclic_ends c :
  Acc (imports sv) c -> exists n, ends_within n c.
Proof.
  induction 1 as [[f i] _ IH].
  destruct (loaded (load sv 0 f i)) as [e|item0] eqn:Hl.
  - exists 1. intros t. cbn [fst snd].
    assert (Hl' : loaded (load sv t f i) = inl e) by (by rewrite load_loaded_time).
    rewrite (parse_failed sv 0 t f i e Hl'). split.
    + apply finished_unfold. split; [discriminate|constructor].
    + intros Hloads. destruct (Hloads (f, i) (reaches_here sv _)) as [item Hitem].
      simpl in Hitem. congruence.
  - destruct (common_fuel ends_within (spawned sv f i)) as [n Hn].
    { intros ? ? ?. apply ends_within_mono. }
    { apply List.Forall_forall. intros d Hd. apply IH. exact Hd. }
    exists (S n). intros t. cbn [fst snd].
    assert (Hl' : loaded (load sv t f i) = inr item0) by (by rewrite load_loaded_time).
    rewrite (parse_loaded sv n t f i item0 Hl'). cbn zeta.
    rewrite (spawned_loaded t f i item0 Hl') in Hn.
    rewrite List.Forall_map in Hn. simpl in Hn.
    split.
    + apply finished_unfold. split.
      * apply join_settled. rewrite List.Forall_map.
        eapply Forall_impl; [exact Hn|]. intros d Hd. simpl in Hd.
        apply finished_root, Hd.
      * rewrite List.Forall_map.
        eapply Forall_impl; [exact Hn|]. intros d Hd. apply Hd.
    + intros Hloads. simpl. apply join_fulfilled. rewrite List.Forall_map.
      rewrite List.Forall_forall in Hn |- *. intros d Hd.
      apply (Hn d Hd). intros e He. apply Hloads.
      eapply reaches_step; [|exact He].
      unfold imports. simpl. rewrite (spawned_loaded t f i item0 Hl').
      apply in_map_iff. eauto.
Qed.

Lemma fulfilled_member kids (rs : list (nat * ZipeModule.t)) :
  Forall2 (fun k r => result k = Resolved r.1 r.2) kids rs ->
  forall k, In k kids -> exists r, result k = Resolved r.1 r.2.
Proof.
  induction 1 as [|k r ks rs' Hk _ IH]; intros k' Hin; [destruct Hin|].
  destruct Hin as [<-|Hin]; eauto.
Qed.

(** A call on a cycle: whatever the fuel, the tree still has a pending
    call, and the call is not fulfilled. *)
Lemma recurring_never_ends (S : string * string -> Prop) :
  recurring sv S ->
  forall n c t,
    S c ->
    ~ finished (parse sv n t c.1 c.2)
    /\ forall t' item, result (parse sv n t c.1 c.2) <> Resolved t' item.
Proof.
  intros Hrec. induction n as [|n IH]; intros [f i] t Hc; simpl.
  - split; [|discriminate]. intros H. by apply finished_unfold in H as [H _].
  - destruct (Hrec _ Hc) as ([f' i'] & Himp & Hd).
    unfold imports in Himp. simpl in Himp.
    destruct (loaded (load sv t f i)) as [e|item0] eqn:Hl.
    { unfold spawned in Himp. rewrite load_loaded_time in Hl. rewrite Hl in Himp.
      destruct Himp. }
    rewrite (spawned_loaded t f i item0 Hl) in Himp.
    apply in_map_iff in Himp as (d & Heq & Hin). injection Heq as <- <-.
    destruct (IH (ModuleInformation.path (ZipeDependency.info d),
                  ModuleInformation.path (ZipeModule.module item0))
                 (loaded_at (load sv t f i)) Hd) as [Hnf Hnr].
    simpl in Hnf, Hnr.
    set (kid := fun d0 => parse sv n (loaded_at (load sv t f i))
                   (ModuleInformation.path (ZipeDependency.info d0))
                   (ModuleInformation.path (ZipeModule.module item0))).
    split.
    + intros H. apply finished_unfold in H as [_ H].
      rewrite List.Forall_map, List.Forall_forall in H. apply Hnf, (H d Hin).
    + intros t' item H. apply join_resolved in H as (Hall & _).
      assert (Hk : exists tk x, result (kid d) = Resolved tk x).
      { assert (Hin' : In (kid d)
                  (List.map kid (List.filter not_external
                                   (ZipeModule.dependencies item0))))
          by (apply in_map_iff; eauto).
        destruct (fulfilled_member _ _ Hall _ Hin') as (r & Hr). eauto. }
      destruct Hk as (tk & x & Hk). by apply (Hnr tk x).
Qed.

Lemma parse_no_lookup fuel t f i :
  Forall (fun c => Forall (fun e => is_cache_lookup e = false) (events c))
         (subcalls (parse sv fuel t f i)).
Proof.
  eapply Forall_impl; [apply subcalls_parse|].
  intros c (n & t' & f' & i' & ->).
  destruct n as [|n]; [constructor|].
  rewrite parse_events. apply load_no_lookup.
Qed.

(** Conversely, a finished tree shows that nothing below the call
    recurs, and a fulfilled call that everything below it loaded. *)
Lemma finished_acyclic n : forall t f i,
  finished (parse sv n t f i) -> Acc (imports sv) (f, i).
Proof.
  induction n as [|n IH]; intros t f i Hfin.
  - simpl in Hfin. apply finished_unfold in Hfin as [H _]. congruence.
  - constructor. intros [f' i'] Himp. unfold imports in Himp. simpl in Himp.
    destruct (loaded (load sv t f i)) as [e|item0] eqn:Hl.
    { unfold spawned in Himp. rewrite load_loaded_time in Hl. rewrite Hl in Himp.
      destruct Himp. }
    rewrite (spawned_loaded t f i item0 Hl) in Himp.
    apply in_map_iff in Himp as (d & Heq & Hin). injection Heq as <- <-.
    rewrite (parse_loaded sv n t f i item0 Hl) in Hfin. cbn zeta in Hfin.
    apply finished_unfold in Hfin as [_ Hkids].
    rewrite List.Forall_map, List.Forall_forall in Hkids.
    eapply IH, (Hkids d Hin).
Qed.

Lemma fulfilled_loads n : forall t f i t' item,
  result (parse sv n t f i) = Resolved t' item ->
  forall e, reaches sv (f, i) e -> loads sv e.
Proof.
  induction n as [|n IH]; intros t f i t' item H e Hr; [discriminate|].
  destruct (parse_node sv _ _ _ _ _ _ H) as (n' & item0 & Hn & Hl & Hk).
  injection Hn as <-. cbn zeta in Hk. destruct Hk as (Hkids & Hall & _).
  inversion Hr as [|c [f' i'] e' Himp Hr']; subst.
  - exists item0. simpl. by rewrite <- (load_loaded_time sv t).
  - unfold imports in Himp. simpl in Himp.
    rewrite (spawned_loaded t f i item0 Hl) in Himp.
    apply in_map_iff in Himp as (d & Heq & Hin). injection Heq as <- <-.
    assert (Hin' : In (parse sv n (loaded_at (load sv t f i))
                         (ModuleInformation.path (ZipeDependency.info d))
                         (ModuleInformation.path (ZipeModule.module item0)))
                      (children (parse sv (S n) t f i))).
    { rewrite Hkids. apply in_map_iff. eauto. }
    destruct (fulfilled_member _ _ Hall _ Hin') as (r & Hres).
    eapply IH; [exact Hres|exact Hr'].
Qed.

End Termination.


(** ** The claims about [parse] *)

(** C3, as amended. The transitive list of a returned node is its direct
    edges followed by the transitive lists of its non-external direct
    dependencies, one whole list after the other, in an order in which
    the fulfilment times of the sub-resolutions never decrease: the order
    of completion. There is one sub-resolution for each non-external
    direct dependency, in declaration order, and each is fulfilled. The
    list is a rearrangement of the concatenation in declaration order and
    is equal to it when the sub-resolutions complete in declaration
    order, one after the other. Nothing is deduplicated: every call below
    a returned node has returned a node, and the list is a rearrangement
    of the direct edges of all these nodes, so it holds every direct and
    indirect dependency reached from the entry, as often as it is
    reached. *)
Theorem fullDependencies_completion_order
        (sv : Services) (fuel t : nat) (filePath importer : string)
        (t' : nat) (item : ZipeModule.t) :
  result (parse sv fuel t filePath importer) = Resolved t' item ->
  let kids := children (parse sv fuel t filePath importer) in
  let done := fulfilments kids in
  kids = List.map
           (fun d => parse sv (pred fuel) (loaded_at (load sv t filePath importer))
                       (ModuleInformation.path (ZipeDependency.info d))
                       (ModuleInformation.path (ZipeModule.module item)))
           (List.filter not_external (ZipeModule.dependencies item))
  /\ List.map node kids = List.map (fun r => Some r.2) done
  /\ (exists order,
        Permutation order done
        /\ in_order (List.map fst order)
        /\ ZipeModule.fullDependencies item
           = ZipeModule.dependencies item
             ++ flat_map (fun r => ZipeModule.fullDependencies r.2) order)
  /\ (strictly_in_order (List.map fst done) ->
      ZipeModule.fullDependencies item
      = ZipeModule.dependencies item ++ flat_map transitive_edges kids)
  /\ Permutation (ZipeModule.fullDependencies item)
                 (ZipeModule.dependencies item ++ flat_map transitive_edges kids)
  /\ Forall (fun c => node c <> None)
            (subcalls (parse sv fuel t filePath importer))
  /\ Permutation (ZipeModule.fullDependencies item)
                 (tree_edges (parse sv fuel t filePath importer)).
Proof.
  intros H kids done.
  destruct (node_edges sv _ _ _ _ _ _ H) as (item0 & Hl & Hd & Hm & Hfull).
  destruct (parse_node sv _ _ _ _ _ _ H) as (n & item0' & -> & Hl' & Hk).
  rewrite Hl in Hl'. injection Hl' as <-.
  cbn zeta in Hk. destruct Hk as (Hkids & Hall & _ & _).
  fold kids in Hkids, Hall, Hfull. fold done in Hfull.
  pose proof (flat_map_fulfilments kids Hall) as Hflat. fold done in Hflat.
  split; [|split; [|split; [|split; [|split; [|split]]]]].
  - rewrite Hkids at 1. simpl. by rewrite Hd, Hm.
  - by apply node_fulfilments.
  - exists (completion_order done). split; [apply completion_order_perm|].
    split; [apply completion_order_sorted|exact Hfull].
  - intros Hord. rewrite Hfull, <- Hflat.
    by rewrite (completion_order_in_order done (strictly_in_order_weaken _ Hord)).
  - rewrite Hfull, <- Hflat. apply Permutation_app_head.
    by rewrite completion_order_perm.
  - by eapply resolved_tree.
  - by eapply tree_edges_parse.
Qed.

(** The claim as stated fails on the demo project: [App.vue] imports
    [vue] (a package), [A.vue] and [B.vue]; [A.vue] imports [C.vue], which
    imports [D.vue]; [B.vue] imports [E.vue]. The resolutions of [A.vue]
    and [B.vue] start in the same turn; that of [B.vue] only waits for
    [E.vue], that of [A.vue] for [C.vue] and then [D.vue], so the callback
    for [B.vue] runs first and the list of [B.vue] comes before the list
    of [A.vue]. *)
Lemma fullDependencies_declaration_order_fails :
  exists t item,
    result (parse Demo.services 5 0 "/src/App.vue" "") = Resolved t item
    /\ List.map ZipeDependency.importPath (ZipeModule.fullDependencies item)
       = ["vue"; "./A.vue"; "./B.vue"; "./E.vue"; "./C.vue"; "./D.vue"]
    /\ List.map ZipeDependency.importPath
         (ZipeModule.dependencies item
          ++ flat_map transitive_edges
               (children (parse Demo.services 5 0 "/src/App.vue" "")))
       = ["vue"; "./A.vue"; "./B.vue"; "./C.vue"; "./D.vue"; "./E.vue"]
    /\ ZipeModule.fullDependencies item
       <> ZipeModule.dependencies item
          ++ flat_map transitive_edges
               (children (parse Demo.services 5 0 "/src/App.vue" "")).
Proof.
  eexists _, _. split; [vm_compute; reflexivity|].
  split; [vm_compute; reflexivity|]. split; [vm_compute; reflexivity|].
  intros H. apply (f_equal (List.map ZipeDependency.importPath)) in H.
  vm_compute in H. discriminate H.
Qed.

(** The theorem at the entry [App.vue] of the demo project, and at the
    entry [T.vue] of the project with a slow read. There [Y.vue], with
    two levels below it, is fulfilled in turn 18, and [X.vue], with one
    level below it and a read that is five turns late, in turn 17: the
    list of [X.vue] comes first. *)
Lemma fullDependencies_completion_order_witness :
  (exists t item,
     result (parse Demo.services 5 0 "/src/App.vue" "") = Resolved t item
     /\ List.map ZipeDependency.module (ZipeModule.fullDependencies item)
        = ["vue"; "./A.vue"; "./B.vue"; "./E.vue"; "./C.vue"; "./D.vue"]
     /\ Permutation (ZipeModule.fullDependencies item)
                    (tree_edges (parse Demo.services 5 0 "/src/App.vue" "")))
  /\ (exists t item,
        result (parse Slow.services 4 0 "./T.vue" "") = Resolved t item
        /\ List.map fst (fulfilments (children (parse Slow.services 4 0 "./T.vue" "")))
           = [18; 17]
        /\ List.map ZipeDependency.module (ZipeModule.fullDependencies item)
           = ["./Y.vue"; "./X.vue"; "./x.png"; "./Y1.vue"; "./logo.png"]
        /\ Permutation (ZipeModule.fullDependencies item)
                       (tree_edges (parse Slow.services 4 0 "./T.vue" ""))).
Proof.
  split.
  - eexists _, _. split; [vm_compute; reflexivity|].
    split; [vm_compute; reflexivity|].
    refine (proj2 (proj2 (proj2 (proj2 (proj2 (proj2
      (fullDependencies_completion_order Demo.services 5 0 "/src/App.vue" ""
         _ _ _))))))).
    vm_compute; reflexivity.
  - eexists _, _. split; [vm_compute; reflexivity|].
    split; [vm_compute; reflexivity|]. split; [vm_compute; reflexivity|].
    refine (proj2 (proj2 (proj2 (proj2 (proj2 (proj2
      (fullDependencies_completion_order Slow.services 4 0 "./T.vue" ""
         _ _ _))))))).
    vm_compute; reflexivity.
Defined.

(** C10. Every node that [parse] returns has [dependenciesPromise] equal
    to [null] (the object literal sets it and nothing assigns it), and
    when [parse] returns every sub-resolution has been fulfilled, at an
    earlier time. *)
Theorem dependenciesPromise_stays_null
        (sv : Services) (fuel t : nat) (filePath importer : string)
        (t' : nat) (item : ZipeModule.t) :
  result (parse sv fuel t filePath importer) = Resolved t' item ->
  ZipeModule.dependenciesPromise item = None
  /\ Forall (fun k => exists tk x, result k = Resolved tk x /\ tk < t')
            (children (parse sv fuel t filePath importer)).
Proof.
  intros H. split; [|by eapply resolved_after_children].
  destruct (parse_node sv _ _ _ _ _ _ H) as (n & item0 & -> & Hl & Hk).
  cbn zeta in Hk. destruct Hk as (_ & _ & _ & ->).
  destruct (load_node sv _ _ _ _ Hl) as (_ & Hp & _).
  match goal with |- ZipeModule.dependenciesPromise (fold_left absorb ?xs ?i) = _ =>
    destruct (absorb_all_kept xs i) as (_ & -> & _) end.
  exact Hp.
Qed.

(** The theorem at the entry [App.vue] of the demo project. *)
Lemma dependenciesPromise_stays_null_witness :
  exists t item,
    result (parse Demo.services 5 0 "/src/App.vue" "") = Resolved t item
    /\ ZipeModule.dependenciesPromise item = None.
Proof.
  eexists _, _. split; [vm_compute; reflexivity|].
  refine (proj1 (dependenciesPromise_stays_null
                   Demo.services 5 0 "/src/App.vue" "" _ _ _)).
  vm_compute; reflexivity.
Defined.

(** C7. The calls a call of [parse] makes are exactly those for its
    direct dependencies that are not flagged external, in declaration
    order, each with the dependency's resolved path and the node's own
    path. A dependency flagged external is not among them, and it is an
    edge of the returned node, in [dependencies] and in
    [fullDependencies]. *)
Theorem external_dependencies_not_parsed
        (sv : Services) (fuel t : nat) (filePath importer : string)
        (item0 : ZipeModule.t) :
  loaded (load sv t filePath importer) = inr item0 ->
  let call := parse sv (S fuel) t filePath importer in
  let spawning := List.filter not_external (ZipeModule.dependencies item0) in
  List.map (fun k => (call_filePath k, call_importer k)) (children call)
  = List.map (fun d => (ModuleInformation.path (ZipeDependency.info d),
                        ModuleInformation.path (ZipeModule.module item0)))
             spawning
  /\ forall d,
       In d (ZipeModule.dependencies item0) ->
       ModuleInformation.module (ZipeDependency.info d) = true ->
       ~ In d spawning
       /\ forall t' item,
            result call = Resolved t' item ->
            In d (ZipeModule.dependencies item)
            /\ In d (ZipeModule.fullDependencies item).
Proof.
  intros Hl call spawning. split.
  - unfold call. rewrite (parse_loaded sv fuel t filePath importer item0 Hl).
    cbn zeta. simpl. apply children_arguments.
  - intros d Hd Hext. split.
    + unfold spawning. rewrite filter_In. unfold not_external.
      rewrite Hext. simpl. intros [_ ?]. discriminate.
    + intros t' item H.
      destruct (node_edges sv _ _ _ _ _ _ H) as (item0' & Hl' & Hdeps & _ & Hfull).
      rewrite Hl in Hl'. injection Hl' as <-.
      rewrite Hfull, Hdeps. split; [done|]. apply in_or_app. by left.
Qed.

(** The theorem at [App.vue]: the package [vue] is an edge of the node and
    only [A.vue] and [B.vue] are parsed. *)
Lemma external_dependencies_not_parsed_witness :
  List.map (fun k => (call_filePath k, call_importer k))
           (children (parse Demo.services 5 0 "/src/App.vue" ""))
  = [("/src/A.vue", "/src/App.vue"); ("/src/B.vue", "/src/App.vue")]
  /\ exists t' item,
       result (parse Demo.services 5 0 "/src/App.vue" "") = Resolved t' item
       /\ List.map ZipeDependency.module (ZipeModule.dependencies item)
          = ["vue"; "./A.vue"; "./B.vue"].
Proof.
  split.
  - refine (eq_trans
              (proj1 (external_dependencies_not_parsed
                        Demo.services 4 0 "/src/App.vue" "" _ _)) _).
    + vm_compute. reflexivity.
    + vm_compute. reflexivity.
  - eexists _, _. split; vm_compute; reflexivity.
Defined.

(** C9. A call of [parse] begins with the resolution; if that succeeds,
    the call inserts the fresh node into the graph cache under the
    resolved path, and only then reads the content, under the resolved
    name, with no second insertion or read after it; if the resolution
    is rejected the call does nothing else. This holds of the entry call
    and of every call below it that the recursion has got to (in the
    model: every call of the tree but those cut off, pending, where the
    fuel runs out), hence of every call of a recursion that has come to
    its end. So no content is read before the node of that call is
    registered. *)
Theorem node_registered_before_read
        (sv : Services) (fuel t : nat) (filePath importer : string) :
  registers_before_reading sv (parse sv (S fuel) t filePath importer)
  /\ Forall (fun c => result c <> Pending -> registers_before_reading sv c)
            (subcalls (parse sv fuel t filePath importer))
  /\ (finished (parse sv fuel t filePath importer) ->
      Forall (registers_before_reading sv)
             (subcalls (parse sv fuel t filePath importer))).
Proof.
  assert (Hall : Forall (fun c => result c <> Pending -> registers_before_reading sv c)
                        (subcalls (parse sv fuel t filePath importer))).
  { eapply Forall_impl; [apply subcalls_parse|].
    intros c (n & t' & f' & i' & ->) Hc. destruct n as [|n]; [done|].
    apply parse_registers_before_reading. }
  split; [apply parse_registers_before_reading|]. split; [exact Hall|].
  intros Hfin. unfold finished in Hfin.
  rewrite List.Forall_forall in Hall, Hfin |- *. auto.
Qed.

(** The theorem at the entry [App.vue] of the demo project: every call
    of the recursion registers its node and then reads. *)
Lemma node_registered_before_read_witness :
  Forall (registers_before_reading Demo.services)
         (subcalls (parse Demo.services 5 0 "/src/App.vue" ""))
  /\ List.map (fun c => take 3 (List.map
                 (fun e => match e with
                           | resolver_info_call f _ => "resolve " +:+ f
                           | dependenciesCache_set k _ => "register " +:+ k
                           | fileCache_get_call k => "read " +:+ k
                           | _ => "other"
                           end) (events c)))
              (children (parse Demo.services 5 0 "/src/App.vue" ""))
     = [["resolve /src/A.vue"; "register /src/A.vue"; "read /src/A.vue"];
        ["resolve /src/B.vue"; "register /src/B.vue"; "read /src/B.vue"]].
Proof.
  split; [|vm_compute; reflexivity].
  apply (proj2 (proj2 (node_registered_before_read Demo.services 5 0
                         "/src/App.vue" ""))).
  unfold finished. vm_compute. repeat constructor; discriminate.
Defined.




(** C2, as amended. When the content source rejects the read, [parse]
    does not return a node: its promise is rejected with that same error,
    and no recursive call is made. The node that was put into the graph
    cache before the read is the fresh one: empty [rawContent], no
    dependencies, no transitive dependencies. *)
Theorem not_found_rejects_and_leaves_placeholder
        (sv : Services) (fuel t : nat) (filePath importer : string)
        (m : ModuleInformation.t) (e : Error) :
  settle (resolver_info sv filePath importer) = inr m ->
  settle (fileCache_get sv (ModuleInformation.name m)) = inl e ->
  let call := parse sv (S fuel) t filePath importer in
  let placeholder :=
    ZipeModule.fresh (basename sv (ModuleInformation.name m))
                     (slice1 (extname sv (ModuleInformation.path m))) m in
  (exists t', result call = Rejected t' e)
  /\ events call
     = [resolver_info_call filePath importer;
        dependenciesCache_set (ModuleInformation.path m) placeholder;
        fileCache_get_call (ModuleInformation.name m)]
  /\ children call = []
  /\ ZipeModule.rawContent placeholder = ""
  /\ ZipeModule.dependencies placeholder = []
  /\ ZipeModule.fullDependencies placeholder = [].
Proof.
  intros Hr Hc call placeholder.
  pose proof (load_not_found sv t filePath importer m e Hr Hc) as Hl.
  unfold call. simpl. rewrite Hl. simpl. eauto 10.
Qed.

(** The theorem at [absent.ts], a path the content source does not have. *)
Lemma not_found_rejects_and_leaves_placeholder_witness :
  (exists t', result (parse Demo.services 1 0 "/src/absent.ts" "")
              = Rejected t' (NotFound "/src/absent.ts"))
  /\ children (parse Demo.services 1 0 "/src/absent.ts" "") = [].
Proof.
  pose proof (not_found_rejects_and_leaves_placeholder
                Demo.services 0 0 "/src/absent.ts" ""
                (ModuleInformation.mk "/src/absent.ts" "/src/absent.ts" false)
                (NotFound "/src/absent.ts") eq_refl eq_refl) as H.
  cbn zeta in H. destruct H as (H1 & _ & H2 & _). exact (conj H1 H2).
Defined.

(** The claim as stated fails: for a path the content source rejects with
    [NotFound], no amount of fuel and no start time make [parse] return a
    node. *)
Lemma not_found_is_raised :
  settle (fileCache_get Demo.services "/src/absent.ts")
  = inl (NotFound "/src/absent.ts")
  /\ forall fuel t,
       ~ exists t' item,
           result (parse Demo.services fuel t "/src/absent.ts" "") = Resolved t' item.
Proof.
  split; [reflexivity|].
  intros [|n] t (t' & item & H); [discriminate|].
  vm_compute in H. discriminate.
Qed.

(** C1, evaluated on the project above. For the entry [main.ts] with the
    registered [ts] transform the node holds the transformed code, and
    the extractor finds the import of [./util.ts] in that code; but
    [parse] hands the extractor the empty script text of the composite
    sub-result (line 162 reads [item.sfc.script.code], not [item.code]),
    so the node has no direct and no transitive edge. *)
Theorem transformed_code_is_not_what_is_extracted :
  exists t item code,
    result (parse Demo.services 2 0 "/src/main.ts" "") = Resolved t item
    /\ ZipeModule.code item = Some code
    /\ List.map ZipeDependency.importPath
         (parseImportsExports Demo.services code "/src/main.ts"
                              (resolver_info Demo.services)).1
       = ["./util.ts"]
    /\ ZipeModule.dependencies item = []
    /\ ZipeModule.fullDependencies item = []
    /\ In (parseImportsExports_call "" "/src/main.ts")
          (events (parse Demo.services 2 0 "/src/main.ts" "")).
Proof.
  eexists _, _, _. split; [vm_compute; reflexivity|].
  split; [reflexivity|]. split; [vm_compute; reflexivity|].
  split; [reflexivity|]. split; [reflexivity|].
  vm_compute. tauto.
Qed.

(** C5, as amended. (1) A call below which the import relation is well
    founded (no cycle can be reached) comes to an end: some amount of
    fuel leaves no call of the tree pending, more fuel changes nothing,
    and the call returns a node provided every module it reaches
    resolves, can be read and compiles. (2) No call ever looks a path up in the graph cache: the
    only graph-cache events are insertions. (3) A call that belongs to a
    set of calls each of which spawns a call of the set again (an import
    cycle among non-external modules) never comes to an end: whatever the
    fuel, a call of its tree is still pending and it returns no node. *)
Theorem parse_ends_unless_imports_recur (sv : Services) :
  (forall c,
     Acc (imports sv) c ->
     exists fuel,
       forall t,
         finished (parse sv fuel t c.1 c.2)
         /\ (forall fuel', fuel <= fuel' ->
             parse sv fuel' t c.1 c.2 = parse sv fuel t c.1 c.2)
         /\ ((forall e, reaches sv c e -> loads sv e) ->
             exists t' item, result (parse sv fuel t c.1 c.2) = Resolved t' item))
  /\ (forall fuel t filePath importer,
        Forall (fun c => Forall (fun e => is_cache_lookup e = false) (events c))
               (subcalls (parse sv fuel t filePath importer)))
  /\ (forall S,
        recurring sv S ->
        forall c, S c ->
        forall fuel t,
          ~ finished (parse sv fuel t c.1 c.2)
          /\ forall t' item, result (parse sv fuel t c.1 c.2) <> Resolved t' item).
Proof.
  split; [|split].
  - intros c Hacc. destruct (acyclic_ends sv c Hacc) as [n Hn].
    exists n. intros t. destruct (Hn t) as [Hfin Hres].
    split; [done|]. split; [|done].
    intros fuel' Hle. by apply finished_parse_stable.
  - intros. apply parse_no_lookup.
  - intros S Hrec c Hc fuel t. by apply (recurring_never_ends sv S Hrec).
Qed.

(** The claim as stated fails: the recursion from [Broken.vue], which
    imports [Shared.vue] and a file that is missing, reaches no cycle and
    comes to an end, but it returns no node, whatever the fuel and the
    start time. *)
Lemma acyclic_recursion_returns_no_node :
  Acc (imports Diamond.services) ("./Broken.vue", "")
  /\ (forall t, finished (parse Diamond.services 3 t "./Broken.vue" ""))
  /\ forall fuel t,
       ~ exists t' item,
           result (parse Diamond.services fuel t "./Broken.vue" "") = Resolved t' item.
Proof.
  assert (Hfin : forall t, finished (parse Diamond.services 3 t "./Broken.vue" "")).
  { intros t. unfold finished. vm_compute. repeat constructor; discriminate. }
  split; [exact (finished_acyclic Diamond.services 3 0 _ _ (Hfin 0))|].
  split; [exact Hfin|].
  intros fuel t (t' & item & H).
  destruct (Nat.le_gt_cases 3 fuel) as [Hle|Hlt].
  - rewrite (finished_parse_stable Diamond.services 3 t _ _ fuel (Hfin t) Hle) in H.
    vm_compute in H. discriminate.
  - destruct fuel as [|[|[|n]]]; [| | |lia]; vm_compute in H; discriminate.
Qed.

(** The recursion from [App.vue] ends within depth five. *)
Lemma demo_App_finished :
  finished (parse Demo.services 5 0 "/src/App.vue" "").
Proof. unfold finished. vm_compute. repeat constructor; discriminate. Qed.

(** [Ping.vue] and [Pong.vue] import each other. *)
Lemma ping_pong_recurring : recurring Demo.services Demo.ping_pong.
Proof.
  intros c [->|[->| ->]].
  - exists ("/src/Pong.vue", "/src/Ping.vue"). split; [|unfold Demo.ping_pong; auto].
    unfold imports. vm_compute. auto.
  - exists ("/src/Ping.vue", "/src/Pong.vue"). split; [|unfold Demo.ping_pong; auto].
    unfold imports. vm_compute. auto.
  - exists ("/src/Pong.vue", "/src/Ping.vue"). split; [|unfold Demo.ping_pong; auto].
    unfold imports. vm_compute. auto.
Qed.

(** The theorem at the acyclic entry [App.vue] and at the entry
    [Ping.vue] of a cycle. *)
Lemma parse_ends_unless_imports_recur_witness :
  (exists fuel, forall t,
      finished (parse Demo.services fuel t "/src/App.vue" "")
      /\ exists t' item,
           result (parse Demo.services fuel t "/src/App.vue" "") = Resolved t' item)
  /\ (forall fuel t, ~ finished (parse Demo.services fuel t "/src/Ping.vue" "")).
Proof.
  destruct (parse_ends_unless_imports_recur Demo.services) as (Hends & _ & Hnever).
  split.
  - destruct (Hends ("/src/App.vue", "")
                    (finished_acyclic Demo.services 5 0 _ _ demo_App_finished))
      as [fuel Hfuel].
    exists fuel. intros t. destruct (Hfuel t) as (Hfin & _ & Hres).
    split; [exact Hfin|]. apply Hres.
    eapply (fulfilled_loads Demo.services 5 0 "/src/App.vue" "").
    vm_compute. reflexivity.
  - intros fuel t.
    exact (proj1 (Hnever Demo.ping_pong ping_pong_recurring ("/src/Ping.vue", "")
                         (or_introl eq_refl) fuel t)).
Defined.


(** ** Facts about the artifact cache *)

Section CacheFacts.
Context {V : Type}.

Lemma eqb_same (k : string) : String.eqb k k = true.
Proof. apply String.eqb_refl. Qed.

Lemma LRU_find_set (max : nat) (k : string) (v : V) (c : LRU.t V) :
  0 < max -> LRU.find k (LRU.set max k v c) = Some v.
Proof.
  intros H. unfold LRU.set. destruct max as [|n]; [lia|].
  simpl. by rewrite eqb_same.
Qed.

Lemma LRU_get_find (k : string) (c : LRU.t V) : (LRU.get k c).1 = LRU.find k c.
Proof. unfold LRU.get. by destruct (LRU.find k c). Qed.

Lemma LRU_find_get (k : string) (c : LRU.t V) :
  LRU.find k (LRU.get k c).2 = LRU.find k c.
Proof.
  unfold LRU.get. destruct (LRU.find k c) eqn:E; simpl; [|done].
  by rewrite eqb_same.
Qed.

End CacheFacts.

Lemma vueCache_max_positive : 0 < vueCache_max.
Proof. unfold vueCache_max. simpl. apply Pos2Nat.is_pos. Qed.

#[global] Opaque vueCache_max.

Lemma vueCache_find_set (k : string) (e : CacheEntry) (c : LRU.t CacheEntry) :
  LRU.find k (LRU.set vueCache_max k e c) = Some e.
Proof. apply LRU_find_set, vueCache_max_positive. Qed.

(** ** Facts about the generated text *)

Lemma append_empty (a b : string) : a +:+ b = "" -> a = "" /\ b = "".
Proof. destruct a; simpl; [done|discriminate]. Qed.

Lemma append_cons (ch : ascii) (a b : string) :
  String ch a +:+ b = String ch (a +:+ b).
Proof. reflexivity. Qed.

Lemma append_assoc (a b c : string) : (a +:+ b) +:+ c = a +:+ (b +:+ c).
Proof.
  induction a as [|ch a IH]; [done|]. by rewrite !append_cons, IH.
Qed.

Lemma join_fragments_app (a b : list string) :
  join_fragments (a ++ b) = join_fragments a +:+ join_fragments b.
Proof.
  induction a as [|x a IH]; [done|].
  change (x +:+ join_fragments (a ++ b)
          = (x +:+ join_fragments a) +:+ join_fragments b).
  rewrite IH. symmetry. apply append_assoc.
Qed.

Lemma array_get_set {A} (i : nat) (v : A) (a : list (option A)) :
  array_get i (array_set i v a) = Some v.
Proof.
  revert a. induction i as [|i IH]; intros [|x a]; simpl; try done.
  - apply (IH []).
  - apply IH.
Qed.

Section CompileFacts.
Variable tc : Toolchain.

Lemma compileSFCMain_text descriptor filePath publicPath :
  truthy_string (join_fragments (fragments tc descriptor filePath publicPath)) = true.
Proof.
  unfold truthy_string. apply negb_true_iff, String.eqb_neq.
  unfold fragments. rewrite !join_fragments_app. intros H.
  apply append_empty in H as [_ H]. apply append_empty in H as [_ H].
  apply append_empty in H as [_ H].
  unfold closing in H. simpl in H. discriminate.
Qed.

End CompileFacts.

Section StepFacts.
Variable tc : Toolchain.

Lemma truthy_text_some s : truthy_string s = true -> truthy_text (Some s) = Some s.
Proof. intros H. simpl. by rewrite H. Qed.

Lemma parseSFC_hit root filename content w e d :
  LRU.find filename (vueCache w) = Some e ->
  entry_descriptor e = Some d ->
  (parseSFC tc root filename content w).1 = inr (Some d)
  /\ invoked (parseSFC tc root filename content w).2 = invoked w.
Proof.
  intros Hf Hd. unfold parseSFC, LRU.get. rewrite Hf. simpl. rewrite Hd. done.
Qed.

Lemma compileSFCMain_hit descriptor filePath publicPath w e code :
  LRU.find filePath (vueCache w) = Some e ->
  entry_script e = Some code ->
  truthy_string code = true ->
  (compileSFCMain tc descriptor filePath publicPath w).1 = code
  /\ invoked (compileSFCMain tc descriptor filePath publicPath w).2 = invoked w.
Proof.
  intros Hf Hs Ht. unfold compileSFCMain, LRU.get. rewrite Hf.
  cbn -[truthy_text]. rewrite Hs, (truthy_text_some _ Ht). done.
Qed.

Lemma compileSFCTemplate_hit root template filename publicPath scoped w e code :
  LRU.find filename (vueCache w) = Some e ->
  entry_template e = Some code ->
  truthy_string code = true ->
  (compileSFCTemplate tc root template filename publicPath scoped w).1 = inr code
  /\ invoked (compileSFCTemplate tc root template filename publicPath scoped w).2
     = invoked w.
Proof.
  intros Hf Hs Ht. unfold compileSFCTemplate, LRU.get. rewrite Hf.
  cbn -[truthy_text]. rewrite Hs, (truthy_text_some _ Ht). done.
Qed.

Lemma compileSFCStyle_hit root style index filename publicPath w e r :
  LRU.find filename (vueCache w) = Some e ->
  array_get index (entry_styles e) = Some r ->
  (compileSFCStyle tc root style index filename publicPath w).1 = inr r
  /\ invoked (compileSFCStyle tc root style index filename publicPath w).2
     = invoked w.
Proof.
  intros Hf Hs. unfold compileSFCStyle, LRU.get. rewrite Hf. simpl.
  rewrite Hs. done.
Qed.

(** What each step leaves in the cache when it has answered. *)
Lemma parseSFC_stores root filename content w d :
  (parseSFC tc root filename content w).1 = inr (Some d) ->
  exists e, LRU.find filename (vueCache (parseSFC tc root filename content w).2)
            = Some e
            /\ entry_descriptor e = Some d.
Proof.
  unfold parseSFC.
  destruct (LRU.get filename (vueCache w)) as [cached cache] eqn:Hg.
  pose proof (LRU_get_find filename (vueCache w)) as Hfind.
  pose proof (LRU_find_get filename (vueCache w)) as Hfind'.
  rewrite Hg in Hfind, Hfind'. simpl in Hfind, Hfind'.
  destruct (cached ≫= entry_descriptor) as [d'|] eqn:Hd; simpl.
  - intros [= ->]. destruct cached as [e|]; [|discriminate].
    exists e. simpl in Hd. by rewrite Hfind', <- Hfind.
  - match goal with |- context [match ?r.1 with _ => _ end] => destruct r as [[err|c] calls] end;
      simpl; [discriminate|].
    destruct (compiler_parse tc root c filename) as [d' errors].
    destruct (report _ _ errors) as [printed []]; simpl; [|discriminate].
    intros [= ->]. eexists. split; [apply vueCache_find_set|done].
Qed.

Lemma compileSFCMain_stores descriptor filePath publicPath w :
  exists e,
    LRU.find filePath (vueCache (compileSFCMain tc descriptor filePath publicPath w).2)
    = Some e
    /\ entry_script e = Some (compileSFCMain tc descriptor filePath publicPath w).1
    /\ truthy_string (compileSFCMain tc descriptor filePath publicPath w).1 = true.
Proof.
  unfold compileSFCMain.
  destruct (LRU.get filePath (vueCache w)) as [cached cache] eqn:Hg.
  pose proof (LRU_get_find filePath (vueCache w)) as Hfind.
  pose proof (LRU_find_get filePath (vueCache w)) as Hfind'.
  rewrite Hg in Hfind, Hfind'. simpl in Hfind, Hfind'.
  destruct (truthy_text (cached ≫= entry_script)) as [code|] eqn:Hd; simpl.
  - destruct cached as [e|]; [|discriminate]. simpl in Hd.
    destruct (entry_script e) as [code'|] eqn:Hs; [|discriminate]. simpl in Hd.
    destruct (truthy_string code') eqn:Ht; [|discriminate]. injection Hd as ->.
    exists e. by rewrite Hfind', <- Hfind.
  - eexists. split; [apply vueCache_find_set|]. split; [done|].
    apply compileSFCMain_text.
Qed.

Lemma compileSFCTemplate_stores root template filename publicPath scoped w code :
  (compileSFCTemplate tc root template filename publicPath scoped w).1 = inr code ->
  exists e,
    LRU.find filename
      (vueCache (compileSFCTemplate tc root template filename publicPath scoped w).2)
    = Some e
    /\ truthy_text (entry_template e) = truthy_text (Some code).
Proof.
  unfold compileSFCTemplate.
  destruct (LRU.get filename (vueCache w)) as [cached cache] eqn:Hg.
  pose proof (LRU_get_find filename (vueCache w)) as Hfind.
  pose proof (LRU_find_get filename (vueCache w)) as Hfind'.
  rewrite Hg in Hfind, Hfind'. simpl in Hfind, Hfind'.
  destruct (truthy_text (cached ≫= entry_template)) as [code0|] eqn:Hd; simpl.
  - intros [= ->]. destruct cached as [e|]; [|discriminate]. simpl in Hd.
    exists e. rewrite Hfind', <- Hfind. split; [done|].
    rewrite Hd. destruct (entry_template e) as [code'|]; [|discriminate].
    simpl in Hd. destruct (truthy_string code') eqn:Ht; [|discriminate].
    injection Hd as ->. simpl. by rewrite Ht.
  - destruct (compileTemplate tc root (content template) filename (block_map template)
                (dirname tc publicPath)
                (if scoped then Some ("data-v-" +:+ hash_sum tc publicPath) else None)
                (lang template)) as [[code0 map] errors].
    destruct (report _ _ errors) as [printed []]; simpl; [|discriminate].
    intros [= <-]. eexists. split; [apply vueCache_find_set|done].
Qed.

Lemma compileSFCStyle_stores root style index filename publicPath w r :
  (compileSFCStyle tc root style index filename publicPath w).1 = inr r ->
  exists e,
    LRU.find filename
      (vueCache (compileSFCStyle tc root style index filename publicPath w).2)
    = Some e
    /\ array_get index (entry_styles e) = Some r.
Proof.
  unfold compileSFCStyle.
  destruct (LRU.get filename (vueCache w)) as [cached cache] eqn:Hg.
  pose proof (LRU_get_find filename (vueCache w)) as Hfind.
  pose proof (LRU_find_get filename (vueCache w)) as Hfind'.
  rewrite Hg in Hfind, Hfind'. simpl in Hfind, Hfind'.
  destruct (cached ≫= (fun e => array_get index (entry_styles e))) as [r0|] eqn:Hd;
    simpl.
  - intros [= ->]. destruct cached as [e|]; [|discriminate]. simpl in Hd.
    exists e. by rewrite Hfind', <- Hfind.
  - destruct (report _ _ _) as [printed []]; simpl; [|discriminate].
    intros [= <-]. eexists. split; [apply vueCache_find_set|]. simpl.
    apply array_get_set.
Qed.

(** A step that throws has looked its path up and stored nothing. *)
Lemma parseSFC_thrown root filename content w err :
  (parseSFC tc root filename content w).1 = inl err ->
  err = TypeError
  /\ vueCache (parseSFC tc root filename content w).2
     = (LRU.get filename (vueCache w)).2.
Proof.
  unfold parseSFC.
  destruct (LRU.get filename (vueCache w)) as [cached cache].
  destruct (cached ≫= entry_descriptor) as [d'|]; simpl; [discriminate|].
  match goal with |- context [match ?r.1 with _ => _ end] => destruct r as [[e|c] calls] end;
    simpl; [discriminate|].
  destruct (compiler_parse tc root c filename) as [d' errors].
  destruct (report _ _ errors) as [printed []]; simpl; [discriminate|].
  by intros [= <-].
Qed.

Lemma compileSFCTemplate_thrown root template filename publicPath scoped w err :
  (compileSFCTemplate tc root template filename publicPath scoped w).1 = inl err ->
  err = TypeError
  /\ vueCache (compileSFCTemplate tc root template filename publicPath scoped w).2
     = (LRU.get filename (vueCache w)).2.
Proof.
  unfold compileSFCTemplate.
  destruct (LRU.get filename (vueCache w)) as [cached cache].
  destruct (truthy_text (cached ≫= entry_template)) as [code0|]; simpl; [discriminate|].
  destruct (compileTemplate tc _ _ _ _ _ _ _) as [[code0 map] errors].
  destruct (report _ _ errors) as [printed []]; simpl; [discriminate|].
  by intros [= <-].
Qed.

Lemma compileSFCStyle_thrown root style index filename publicPath w err :
  (compileSFCStyle tc root style index filename publicPath w).1 = inl err ->
  err = TypeError
  /\ vueCache (compileSFCStyle tc root style index filename publicPath w).2
     = (LRU.get filename (vueCache w)).2.
Proof.
  unfold compileSFCStyle.
  destruct (LRU.get filename (vueCache w)) as [cached cache].
  destruct (cached ≫= (fun e => array_get index (entry_styles e))) as [r0|];
    simpl; [discriminate|].
  destruct (report _ _ _) as [printed []]; simpl; [discriminate|].
  by intros [= <-].
Qed.

End StepFacts.

Section WiringFacts.
Variable tc : Toolchain.
Variables id publicPath : string.

Lemma style_step_emitted st i s f :
  In f (emitted (style_step id publicPath st i s)) ->
  In f (emitted st)
  \/ f = updateStyle_call id publicPath i
  \/ (truthy_module (module s) = true
      /\ (f = cssModules_declaration \/ f = style_import publicPath i
          \/ f = cssModules_assignment (moduleName s) i)).
Proof.
  unfold style_step. destruct (truthy_module (module s)); simpl.
  - destruct (hasCSSModules st); rewrite ?in_app_iff; simpl; intuition.
  - rewrite in_app_iff. simpl. intuition.
Qed.

Lemma style_step_keeps st i s f :
  In f (emitted st) -> In f (emitted (style_step id publicPath st i s)).
Proof.
  intros H. unfold style_step. destruct (truthy_module (module s)); simpl.
  - destruct (hasCSSModules st); rewrite ?in_app_iff; simpl; intuition.
  - rewrite in_app_iff. simpl. intuition.
Qed.

Lemma style_loop_keeps l : forall st i f,
  In f (emitted st) -> In f (emitted (style_loop id publicPath st i l)).
Proof.
  induction l as [|s l IH]; intros st i f H; simpl; [done|].
  by apply IH, style_step_keeps.
Qed.

Lemma style_loop_plain l : forall st i,
  Forall (fun s => truthy_module (module s) = false) l ->
  Forall (plain_fragment tc id publicPath) (emitted st) ->
  Forall (plain_fragment tc id publicPath) (emitted (style_loop id publicPath st i l)).
Proof.
  induction l as [|s l IH]; intros st i Hl Hst; simpl; [done|].
  apply Forall_cons_1 in Hl as [Hs Hl]. apply IH; [done|].
  apply List.Forall_forall. intros f Hf.
  apply style_step_emitted in Hf as [Hf|[->|[Hm _]]].
  - rewrite List.Forall_forall in Hst. by apply Hst.
  - right. eauto.
  - congruence.
Qed.

Lemma style_loop_hasScoped l : forall st i,
  hasScoped (style_loop id publicPath st i l)
  = hasScoped st || existsb (fun s => truthy_flag (scoped s)) l.
Proof.
  induction l as [|s l IH]; intros st i; simpl; [by rewrite orb_false_r|].
  rewrite IH. unfold style_step.
  destruct (truthy_module (module s)), (truthy_flag (scoped s)), (hasScoped st);
    simpl; reflexivity.
Qed.

Lemma style_step_declared st i s : declared st -> declared (style_step id publicPath st i s).
Proof.
  unfold declared, style_step. intros H.
  destruct (truthy_module (module s)); simpl.
  - intros _. destruct (hasCSSModules st); rewrite !in_app_iff; simpl; intuition.
  - intros H'. rewrite in_app_iff. left. auto.
Qed.

Lemma style_step_module st i s :
  truthy_module (module s) = true ->
  declared st ->
  let st' := style_step id publicPath st i s in
  In cssModules_declaration (emitted st')
  /\ In (style_import publicPath i) (emitted st')
  /\ In (cssModules_assignment (moduleName s) i) (emitted st').
Proof.
  intros Hm Hd. cbn zeta. unfold style_step. rewrite Hm. simpl.
  unfold declared in Hd.
  destruct (hasCSSModules st); rewrite !in_app_iff; simpl; intuition.
Qed.

Lemma style_loop_module l : forall st i j s,
  declared st ->
  l !! j = Some s ->
  truthy_module (module s) = true ->
  let st' := style_loop id publicPath st i l in
  In cssModules_declaration (emitted st')
  /\ In (style_import publicPath (i + j)) (emitted st')
  /\ In (cssModules_assignment (moduleName s) (i + j)) (emitted st').
Proof.
  induction l as [|s0 l IH]; intros st i j s Hd Hj Hm; [discriminate|].
  destruct j as [|j]; simpl in Hj.
  - injection Hj as ->. cbn zeta. simpl. rewrite Nat.add_0_r.
    destruct (style_step_module st i s Hm Hd) as (H1 & H2 & H3).
    repeat split; by apply style_loop_keeps.
  - cbn zeta. simpl. replace (i + S j) with (S i + j) by lia.
    apply IH; [by apply style_step_declared|done|done].
Qed.

End WiringFacts.

Lemma occurs_in_join f l : In f l -> occurs_in f (join_fragments l).
Proof.
  induction l as [|x l IH]; intros H; [destruct H|]. destruct H as [<-|H].
  - exists "", (join_fragments l). reflexivity.
  - destruct (IH H) as (b & a & Heq). exists (x +:+ b), a.
    change (join_fragments (x :: l)) with (x +:+ join_fragments l).
    by rewrite Heq, append_assoc.
Qed.

Lemma occurs_in_middle f a b c : occurs_in f b -> occurs_in f (a +:+ b +:+ c).
Proof.
  intros (x & y & ->). exists (a +:+ x), (y +:+ c).
  by rewrite !append_assoc.
Qed.

Section Distinct.
Variable tc : Toolchain.
Variables id publicPath : string.

Lemma declaration_not_plain :
  ~ plain_fragment tc id publicPath cssModules_declaration.
Proof. intros [H|[i H]]; discriminate H. Qed.

Lemma assignment_not_plain name i :
  ~ plain_fragment tc id publicPath (cssModules_assignment name i).
Proof. intros [H|[j H]]; discriminate H. Qed.

Lemma declaration_not_scopeId : cssModules_declaration <> scopeId_assignment id.
Proof. discriminate. Qed.

Lemma assignment_not_scopeId name i :
  cssModules_assignment name i <> scopeId_assignment id.
Proof. discriminate. Qed.

End Distinct.

(** ** Occurrences of a name in the generated text *)

Section Occurrences.
Variable p : string.

Lemma append_nil_r (s : string) : s +:+ "" = s.
Proof. induction s as [|c s IH]; [done|]. by rewrite append_cons, IH. Qed.

Lemma strip_prefix_append : forall s rest,
  strip_prefix p s = Some rest <-> s = p +:+ rest.
Proof.
  induction p as [|a q IH]; intros s rest.
  - change ("" +:+ rest) with rest. simpl. split; congruence.
  - rewrite append_cons. destruct s as [|b s]; simpl; [split; discriminate|].
    destruct (Ascii.eqb_spec a b) as [->|Hne].
    + rewrite IH. split; congruence.
    + split; [discriminate|]. intros H. injection H as H _. congruence.
Qed.

Lemma occursb_unfold s :
  occursb p s
  = match strip_prefix p s with
    | Some _ => true
    | None => match s with
              | EmptyString => false
              | String _ s' => occursb p s'
              end
    end.
Proof. by destruct s. Qed.

Lemma occursb_spec s : occursb p s = true <-> occurs_in p s.
Proof.
  split.
  - induction s as [|c s IH]; rewrite occursb_unfold.
    + destruct (strip_prefix p "") as [rest|] eqn:E; [|discriminate].
      intros _. apply strip_prefix_append in E. by exists "", rest.
    + destruct (strip_prefix p (String c s)) as [rest|] eqn:E.
      * intros _. apply strip_prefix_append in E. by exists "", rest.
      * intros H. destruct (IH H) as (a & b & ->). by exists (String c a), b.
  - intros (a & b & ->). induction a as [|c a IH]; rewrite occursb_unfold.
    + change ("" +:+ p +:+ b) with (p +:+ b).
      by rewrite (proj2 (strip_prefix_append (p +:+ b) b) eq_refl).
    + rewrite append_cons. by destruct (strip_prefix p _).
Qed.

Lemma occursb_false s : occursb p s = false -> ~ occurs_in p s.
Proof. intros H Ho. apply occursb_spec in Ho. congruence. Qed.

Lemma mem_append c (a b : string) : mem c (a +:+ b) = mem c a || mem c b.
Proof.
  unfold mem. induction a as [|x a IH]; [done|].
  rewrite append_cons. simpl. by rewrite IH, orb_assoc.
Qed.

Lemma mem_last (s : string) c : last_char s = Some c -> mem c s = true.
Proof.
  induction s as [|x s IH]; [discriminate|]. simpl.
  destruct s as [|y s].
  - intros [= ->]. unfold mem. simpl. by rewrite Ascii.eqb_refl.
  - intros H. unfold mem in *. simpl in *. rewrite (IH H). apply orb_true_r.
Qed.

Lemma last_char_append (a b : string) :
  b <> "" -> last_char (a +:+ b) = last_char b.
Proof.
  intros Hb. induction a as [|x a IH]; [done|].
  rewrite append_cons. simpl. rewrite IH.
  destruct (a +:+ b) eqn:E; [|done].
  apply append_empty in E as [_ ->]. done.
Qed.

(** Two ways to cut the same text. *)
Lemma append_eq_append : forall a b x y : string,
  a +:+ b = x +:+ y ->
  (exists m, a = x +:+ m /\ y = m +:+ b) \/ (exists m, x = a +:+ m /\ b = m +:+ y).
Proof.
  induction a as [|c a IH]; intros b x y H.
  - right. exists x. by split.
  - destruct x as [|d x].
    + left. exists (String c a). by split.
    + rewrite !append_cons in H. injection H as -> H.
      destruct (IH _ _ _ H) as [(m & -> & ->)|(m & -> & ->)]; [left|right];
        exists m; by rewrite ?append_cons.
Qed.

(** An occurrence in [a +:+ b] lies in [a], lies in [b], or reaches over
    the seam. *)
Lemma occurs_in_append (a b : string) :
  occurs_in p (a +:+ b) ->
  occurs_in p a \/ occurs_in p b
  \/ exists a1 p1 p2 b2,
       p1 <> "" /\ p2 <> "" /\ p = p1 +:+ p2 /\ a = a1 +:+ p1 /\ b = p2 +:+ b2.
Proof.
  intros (x & y & H).
  destruct (append_eq_append _ _ _ _ H) as [(m & Ha & Hy)|(m & Hx & Hb)].
  - destruct (append_eq_append _ _ _ _ Hy) as [(n & Hp & Hb)|(n & Hm & _)].
    + destruct n as [|c n].
      * left. exists x, "". rewrite Ha, Hp. by rewrite !append_nil_r.
      * destruct m as [|d m].
        -- right. left. exists "", y. by rewrite Hb, Hp.
        -- right. right. exists x, (String d m), (String c n), y. done.
    + left. exists x, n. by rewrite Ha, Hm.
  - right. left. exists m, y. done.
Qed.

Lemma clean_append_l (a b : string) :
  ~ occurs_in p a -> ~ occurs_in p b -> starts_foreign p b = true ->
  ~ occurs_in p (a +:+ b).
Proof.
  intros Ha Hb Hs Ho.
  apply occurs_in_append in Ho
    as [Ho|[Ho|(a1 & p1 & p2 & b2 & _ & Hp2 & Hp & _ & ->)]]; [done|done|].
  destruct p2 as [|c p2]; [done|]. rewrite append_cons in Hs. simpl in Hs.
  rewrite Hp, mem_append in Hs. unfold mem at 2 in Hs. simpl in Hs.
  rewrite Ascii.eqb_refl, orb_true_r in Hs. discriminate.
Qed.

Lemma clean_append_r (a b : string) :
  ~ occurs_in p a -> ~ occurs_in p b -> ends_foreign p a = true ->
  ~ occurs_in p (a +:+ b).
Proof.
  intros Ha Hb Hs Ho.
  apply occurs_in_append in Ho
    as [Ho|[Ho|(a1 & p1 & p2 & b2 & Hp1 & _ & Hp & -> & _)]]; [done|done|].
  unfold ends_foreign in Hs. rewrite (last_char_append _ _ Hp1) in Hs.
  destruct (last_char p1) as [c|] eqn:E; [|discriminate].
  apply mem_last in E. rewrite Hp, mem_append, E in Hs. discriminate.
Qed.

Lemma starts_foreign_append (a b : string) :
  starts_foreign p a = true -> starts_foreign p (a +:+ b) = true.
Proof. by destruct a. Qed.

(** Fragments that each start with a character foreign to [p]. *)
Lemma clean_join (l : list string) :
  Forall (fun f => ~ occurs_in p f /\ starts_foreign p f = true) l ->
  p <> "" ->
  ~ occurs_in p (join_fragments l)
  /\ (l <> [] -> starts_foreign p (join_fragments l) = true).
Proof.
  intros Hl Hp. induction Hl as [|f l [Hf Hs] _ [IH1 IH2]].
  - split; [|done]. intros (a & b & H). symmetry in H.
    apply append_empty in H as [_ H]. apply append_empty in H as [H _]. done.
  - change (join_fragments (f :: l)) with (f +:+ join_fragments l).
    split; [|intros _; by apply starts_foreign_append].
    destruct l as [|g l]; [simpl; by rewrite append_nil_r|].
    apply clean_append_l; [done|done|]. by apply IH2.
Qed.

(** The first character of [p] is in every text that [p] occurs in. *)
Lemma occurs_in_mem c q s :
  p = String c q -> occurs_in p s -> mem c s = true.
Proof.
  intros Hp (a & b & ->). rewrite Hp, mem_append, append_cons.
  unfold mem at 2. simpl. by rewrite Ascii.eqb_refl, orb_true_r.
Qed.

End Occurrences.

(** The digits of an index hold no underscore. *)
Lemma mem_decimal (n : nat) : mem "_" (decimal n) = false.
Proof.
  unfold decimal. generalize (Nat.to_uint n). intros u.
  induction u; simpl; try done.
Qed.

(** What [JSON.stringify] does to the characters. *)
Lemma json_escape_plain c : plain c = true -> json_escape c = String c "".
Proof.
  destruct c as [[] [] [] [] [] [] [] []]; vm_compute; intros H;
    first [reflexivity|discriminate H].
Qed.

Lemma json_escape_other c : plain c = false -> mem "_" (json_escape c) = false.
Proof.
  destruct c as [[] [] [] [] [] [] [] []]; vm_compute; intros H;
    first [reflexivity|discriminate H].
Qed.

Lemma json_escape_other_head c :
  plain c = false ->
  exists tail, json_escape c = String (ascii_of_nat 92) tail.
Proof.
  destruct c as [[] [] [] [] [] [] [] []]; vm_compute; intros H;
    first [discriminate H|eexists; reflexivity].
Qed.

Lemma plain_not_backslash c : plain c = true -> Ascii.eqb c (ascii_of_nat 92) = false.
Proof.
  destruct c as [[] [] [] [] [] [] [] []]; vm_compute; intros H;
    first [reflexivity|discriminate H].
Qed.

Lemma json_body_plain c s :
  plain c = true -> json_body (String c s) = String c (json_body s).
Proof. intros H. simpl. by rewrite (json_escape_plain _ H). Qed.

Section Stringified.
Variables (q : string).
Let p := String "_" q.
Hypothesis q_plain : forallb plain (list_ascii_of_string q) = true.

Lemma strip_prefix_json_body : forall (r s rest : string),
  forallb plain (list_ascii_of_string r) = true ->
  strip_prefix r (json_body s) = Some rest ->
  exists rest', strip_prefix r s = Some rest'.
Proof.
  induction r as [|c r IH]; intros s rest Hr H; [simpl; eauto|].
  simpl in Hr. apply andb_true_iff in Hr as [Hc Hr].
  destruct s as [|c0 s]; [discriminate|].
  destruct (plain c0) eqn:Hc0.
  - rewrite (json_body_plain _ _ Hc0) in H. simpl in H |- *.
    destruct (Ascii.eqb c c0); [|discriminate]. by eapply IH.
  - exfalso. simpl json_body in H.
    destruct (json_escape_other_head _ Hc0) as (tail & E).
    rewrite E, append_cons in H. simpl in H.
    rewrite (plain_not_backslash _ Hc) in H. discriminate H.
Qed.

Lemma occursb_skip (e t : string) :
  mem "_" e = false -> occursb p (e +:+ t) = occursb p t.
Proof.
  induction e as [|c e IH]; [done|]. intros H. unfold mem in H. simpl in H.
  apply orb_false_iff in H as [Hc He]. rewrite append_cons, occursb_unfold.
  unfold p at 1. simpl. rewrite Hc. by apply IH.
Qed.

Lemma occursb_json_body : forall s,
  occursb p (json_body s) = true -> occursb p s = true.
Proof.
  assert (Hp : forallb plain (list_ascii_of_string p) = true).
  { unfold p. simpl. by rewrite q_plain. }
  induction s as [|c0 s IH]; [done|].
  destruct (plain c0) eqn:Hc0.
  - rewrite (occursb_unfold p (json_body (String c0 s))),
            (occursb_unfold p (String c0 s)).
    destruct (strip_prefix p (json_body (String c0 s))) as [rest|] eqn:E.
    + intros _. destruct (strip_prefix_json_body p _ _ Hp E) as (rest' & ->). done.
    + rewrite (json_body_plain _ _ Hc0). intros H. rewrite (IH H).
      by destruct (strip_prefix p (String c0 s)).
  - simpl json_body. rewrite (occursb_skip _ _ (json_escape_other _ Hc0)).
    intros H. rewrite occursb_unfold, (IH H).
    by destruct (strip_prefix p (String c0 s)).
Qed.

Lemma clean_json_body s : ~ occurs_in p s -> ~ occurs_in p (json_body s).
Proof.
  intros H Ho. apply H. apply occursb_spec, occursb_json_body.
  by apply occursb_spec.
Qed.

End Stringified.

(** ** The name [__cssModules] in the generated text *)

Lemma clean_decimal (n : nat) : ~ occurs_in "__cssModules" (decimal n).
Proof.
  intros H. apply (occurs_in_mem _ _ _ _ eq_refl) in H.
  by rewrite mem_decimal in H.
Qed.

Lemma clean_stringified (s : string) :
  ~ occurs_in "__cssModules" s -> ~ occurs_in "__cssModules" (json_body s).
Proof. by apply (clean_json_body "_cssModules"). Qed.

(** [clean] proves that [__cssModules] does not occur in a text made of
    literals and of texts that are known not to hold it. *)
Ltac clean :=
  lazymatch goal with
  | H : ~ occurs_in _ ?s |- ~ occurs_in _ ?s => exact H
  | |- ~ occurs_in _ (decimal _) => apply clean_decimal
  | |- ~ occurs_in _ (json_body _) => apply clean_stringified; clean
  | |- ~ occurs_in _ (_ +:+ _) =>
    first [ apply clean_append_l; [ | | reflexivity]; clean
          | apply clean_append_r; [ | | reflexivity]; clean ]
  | |- ~ occurs_in _ _ => apply occursb_false; vm_compute; reflexivity
  end.

Section NoCssModules.
Variable tc : Toolchain.
Variables (descriptor : SFCDescriptor) (filePath publicPath : string).
Hypothesis no_module :
  Forall (fun s => truthy_module (module s) = false) (styles descriptor).
Hypothesis inputs :
  Forall (fun text => ~ occurs_in "__cssModules" text)
         (handed_in tc descriptor filePath publicPath).

Let good (f : string) : Prop :=
  ~ occurs_in "__cssModules" f /\ starts_foreign "__cssModules" f = true.

Lemma inputs_clean :
  ~ occurs_in "__cssModules" (script_code tc descriptor publicPath).1
  /\ ~ occurs_in "__cssModules" (hmrClientId tc)
  /\ ~ occurs_in "__cssModules" (hash_sum tc publicPath)
  /\ ~ occurs_in "__cssModules" publicPath
  /\ ~ occurs_in "__cssModules" filePath
  /\ forall s, script descriptor = Some s ->
               ~ occurs_in "__cssModules" (genSourceMapString tc (block_map s)).
Proof.
  pose proof inputs as H. unfold handed_in in H.
  apply Forall_app in H as [H Hmap].
  repeat (apply Forall_cons_1 in H as [? H]).
  repeat (split; [done|]). intros s Hs. rewrite Hs in Hmap.
  by apply Forall_cons_1 in Hmap as [? _].
Qed.

Lemma style_wiring_good : Forall good (style_wiring tc descriptor publicPath).
Proof.
  destruct inputs_clean as (_ & Hhmr & Hid & Hpub & _).
  assert (Hplain : forall f,
            plain_fragment tc (hash_sum tc publicPath) publicPath f -> good f).
  { intros f [->|[i ->]]; (split; [|reflexivity]).
    - unfold updateStyle_import. clean.
    - unfold updateStyle_call, JSON_stringify, styleRequest. clean. }
  unfold style_wiring.
  assert (Hloop : Forall (plain_fragment tc (hash_sum tc publicPath) publicPath)
            (emitted (style_loop (hash_sum tc publicPath) publicPath
                        (mkWiring [updateStyle_import tc] false false) 0
                        (styles descriptor)))).
  { apply style_loop_plain; [exact no_module|]. repeat constructor. }
  assert (Hgood : Forall good
            (emitted (style_loop (hash_sum tc publicPath) publicPath
                        (mkWiring [updateStyle_import tc] false false) 0
                        (styles descriptor)))).
  { eapply Forall_impl; [exact Hloop|]. exact Hplain. }
  destruct (hasScoped _); [|exact Hgood].
  apply Forall_app. split; [exact Hgood|]. constructor; [|constructor].
  split; [|reflexivity]. unfold scopeId_assignment. clean.
Qed.

Lemma template_wiring_good : Forall good (template_wiring descriptor publicPath).
Proof.
  destruct inputs_clean as (_ & _ & _ & Hpub & _).
  unfold template_wiring. destruct (template descriptor); [|constructor].
  repeat constructor; try reflexivity; unfold JSON_stringify; clean.
Qed.

(** The lines at the end, the comment with the source map taken together
    with the line before it. *)
Lemma closing_good :
  exists l,
    Forall good l /\ l <> []
    /\ join_fragments (closing tc descriptor filePath publicPath) = join_fragments l.
Proof.
  destruct inputs_clean as (_ & _ & _ & Hpub & Hfile & Hmap).
  unfold closing.
  destruct (script descriptor) as [s|].
  - specialize (Hmap s eq_refl).
    exists [nl +:+ "__script.__hmrId = " +:+ JSON_stringify publicPath;
            nl +:+ "__script.__file = " +:+ JSON_stringify filePath;
            (nl +:+ "export default __script")
              +:+ genSourceMapString tc (block_map s)].
    split; [|split; [done|]].
    + repeat constructor; try reflexivity; unfold JSON_stringify; clean.
    + unfold join_fragments. cbn [fold_right app]. by rewrite !append_nil_r.
  - exists [nl +:+ "__script.__hmrId = " +:+ JSON_stringify publicPath;
            nl +:+ "__script.__file = " +:+ JSON_stringify filePath;
            nl +:+ "export default __script"].
    split; [|split; [done|reflexivity]].
    repeat constructor; try reflexivity; unfold JSON_stringify; clean.
Qed.

(** With no CSS module among the style blocks, the generated text holds
    the name only if one of the texts handed in does. *)
Lemma generated_text_clean :
  ~ occurs_in "__cssModules"
      (join_fragments (fragments tc descriptor filePath publicPath)).
Proof.
  destruct inputs_clean as (Hscript & _).
  destruct closing_good as (l & Hl & Hne & Hjoin).
  assert (E : join_fragments (style_wiring tc descriptor publicPath
                              ++ template_wiring descriptor publicPath
                              ++ closing tc descriptor filePath publicPath)
              = join_fragments (style_wiring tc descriptor publicPath
                                ++ template_wiring descriptor publicPath ++ l))
    by (by rewrite !join_fragments_app, Hjoin).
  unfold fragments.
  rewrite (join_fragments_app [(script_code tc descriptor publicPath).1]), E.
  unfold join_fragments at 1. cbn [fold_right]. rewrite append_nil_r.
  assert (Hall : Forall good (style_wiring tc descriptor publicPath
                              ++ template_wiring descriptor publicPath ++ l)).
  { rewrite !Forall_app. auto using style_wiring_good, template_wiring_good. }
  destruct (clean_join "__cssModules" _ Hall) as [Hclean Hstart]; [done|].
  apply clean_append_l; [done|done|]. apply Hstart.
  intros H. apply app_eq_nil in H as [_ H]. by apply app_eq_nil in H as [_ H].
Qed.

End NoCssModules.

(** ** The claims about the compile steps *)

(** C4, as amended. Each compile step first looks the path up in the
    artifact cache and answers the cached sub-field, calling nothing, when
    that sub-field is present and, for the behaviour code and the view
    code, which are texts, not the empty string. Hence a second run of a
    step on the same file and cache calls nothing again when the first
    run has answered: for the parsed structure (when the first run
    produced one), for the behaviour code always, for a style block, and
    for the view when its compiled text is not empty. A first run that
    throws while it writes its diagnostics has stored nothing: the entry
    of the path is what it was. *)
Theorem cached_artifacts_are_reused (tc : Toolchain) :
  (forall root filename content w e d,
     LRU.find filename (vueCache w) = Some e ->
     entry_descriptor e = Some d ->
     (parseSFC tc root filename content w).1 = inr (Some d)
     /\ invoked (parseSFC tc root filename content w).2 = invoked w)
  /\ (forall descriptor filePath publicPath w e code,
        LRU.find filePath (vueCache w) = Some e ->
        entry_script e = Some code ->
        code <> "" ->
        (compileSFCMain tc descriptor filePath publicPath w).1 = code
        /\ invoked (compileSFCMain tc descriptor filePath publicPath w).2 = invoked w)
  /\ (forall root template filename publicPath scoped w e code,
        LRU.find filename (vueCache w) = Some e ->
        entry_template e = Some code ->
        code <> "" ->
        (compileSFCTemplate tc root template filename publicPath scoped w).1
        = inr code
        /\ invoked (compileSFCTemplate tc root template filename publicPath scoped w).2
           = invoked w)
  /\ (forall root style index filename publicPath w e r,
        LRU.find filename (vueCache w) = Some e ->
        array_get index (entry_styles e) = Some r ->
        (compileSFCStyle tc root style index filename publicPath w).1 = inr r
        /\ invoked (compileSFCStyle tc root style index filename publicPath w).2
           = invoked w)
  /\ (forall root filename content w d,
        let first := parseSFC tc root filename content w in
        let second := parseSFC tc root filename content first.2 in
        first.1 = inr (Some d) ->
        second.1 = first.1 /\ invoked second.2 = invoked first.2)
  /\ (forall descriptor filePath publicPath w,
        let first := compileSFCMain tc descriptor filePath publicPath w in
        let second := compileSFCMain tc descriptor filePath publicPath first.2 in
        second.1 = first.1 /\ invoked second.2 = invoked first.2)
  /\ (forall root template filename publicPath scoped w code,
        let first := compileSFCTemplate tc root template filename publicPath scoped w in
        let second :=
          compileSFCTemplate tc root template filename publicPath scoped first.2 in
        first.1 = inr code ->
        code <> "" ->
        second.1 = first.1 /\ invoked second.2 = invoked first.2)
  /\ (forall root style index filename publicPath w r,
        let first := compileSFCStyle tc root style index filename publicPath w in
        let second := compileSFCStyle tc root style index filename publicPath first.2 in
        first.1 = inr r ->
        second.1 = first.1 /\ invoked second.2 = invoked first.2)
  /\ (forall root filename w err,
        (forall content,
           (parseSFC tc root filename content w).1 = inl err ->
           LRU.find filename (vueCache (parseSFC tc root filename content w).2)
           = LRU.find filename (vueCache w))
        /\ (forall template publicPath scoped,
              (compileSFCTemplate tc root template filename publicPath scoped w).1
              = inl err ->
              LRU.find filename
                (vueCache
                   (compileSFCTemplate tc root template filename publicPath scoped w).2)
              = LRU.find filename (vueCache w))
        /\ (forall style index publicPath,
              (compileSFCStyle tc root style index filename publicPath w).1 = inl err ->
              LRU.find filename
                (vueCache (compileSFCStyle tc root style index filename publicPath w).2)
              = LRU.find filename (vueCache w))).
Proof.
  assert (Htruthy : forall s, s <> "" -> truthy_string s = true).
  { intros s Hs. unfold truthy_string. by apply negb_true_iff, String.eqb_neq. }
  split; [|split; [|split; [|split; [|split; [|split; [|split; [|split]]]]]]].
  - intros root filename text w e d. apply parseSFC_hit.
  - intros descriptor filePath publicPath w e code Hf He Hc.
    eapply compileSFCMain_hit; eauto.
  - intros root block filename publicPath flag w e code Hf He Hc.
    eapply compileSFCTemplate_hit; eauto.
  - intros root style index filename publicPath w e r.
    apply compileSFCStyle_hit.
  - intros root filename text w d first second Hd. subst first second.
    destruct (parseSFC_stores tc root filename text w d Hd) as (e & Hf & He).
    rewrite Hd.
    apply (parseSFC_hit tc root filename text _ e d Hf He).
  - intros descriptor filePath publicPath w first second. subst first second.
    destruct (compileSFCMain_stores tc descriptor filePath publicPath w)
      as (e & Hf & He & Ht).
    apply (compileSFCMain_hit tc descriptor filePath publicPath _ e _ Hf He Ht).
  - intros root block filename publicPath flag w code first second Hfirst Hsome.
    subst first second.
    destruct (compileSFCTemplate_stores tc root block filename publicPath flag w
                code Hfirst) as (e & Hf & He).
    rewrite (truthy_text_some _ (Htruthy _ Hsome)) in He.
    destruct (entry_template e) as [code'|] eqn:Hc; [|discriminate].
    simpl in He. destruct (truthy_string code') eqn:Ht; [|discriminate].
    injection He as ->. rewrite Hfirst.
    apply (compileSFCTemplate_hit tc root block filename publicPath flag _ e _
             Hf Hc Ht).
  - intros root style index filename publicPath w r first second Hfirst.
    subst first second.
    destruct (compileSFCStyle_stores tc root style index filename publicPath w r
                Hfirst) as (e & Hf & He).
    rewrite Hfirst.
    apply (compileSFCStyle_hit tc root style index filename publicPath _ e _ Hf He).
  - intros root filename w err. split; [|split].
    + intros text H. apply parseSFC_thrown in H as [_ ->]. apply LRU_find_get.
    + intros block publicPath flag H.
      apply compileSFCTemplate_thrown in H as [_ ->]. apply LRU_find_get.
    + intros style index publicPath H.
      apply compileSFCStyle_thrown in H as [_ ->]. apply LRU_find_get.
Qed.

(** The theorem on the view of a file compiled twice: one call of the
    view compiler in all. *)
Lemma cached_artifacts_are_reused_witness :
  invoked (compileSFCTemplate DemoSFC.toolchain "/" (mkBlock "<div/>" None None)
             "/abs/App.vue" "/App.vue" false
             (compileSFCTemplate DemoSFC.toolchain "/" (mkBlock "<div/>" None None)
                "/abs/App.vue" "/App.vue" false DemoSFC.empty_world).2).2
  = [invoke_compileTemplate "/" "<div/>" "/abs/App.vue" None].
Proof.
  destruct (cached_artifacts_are_reused DemoSFC.toolchain)
    as (_ & _ & _ & _ & _ & _ & Htemplate & _).
  destruct (Htemplate "/" (mkBlock "<div/>" None None) "/abs/App.vue" "/App.vue"
                      false DemoSFC.empty_world "export function render() {}")
    as [_ Hsame].
  - vm_compute. reflexivity.
  - discriminate.
  - rewrite Hsame. vm_compute. reflexivity.
Defined.

(** The claim as stated fails for a view whose compiled text is empty:
    after the first run the view sub-field of the entry is present, and
    the second run calls the view compiler again. *)
Lemma empty_cached_template_is_compiled_again :
  LRU.find "/abs/App.vue"
    (vueCache (compileSFCTemplate DemoSFC.silent "/" (mkBlock "<div/>" None None)
                 "/abs/App.vue" "/App.vue" false DemoSFC.empty_world).2)
    ≫= entry_template = Some ""
  /\ invoked (compileSFCTemplate DemoSFC.silent "/" (mkBlock "<div/>" None None)
                "/abs/App.vue" "/App.vue" false DemoSFC.empty_world).2
     = [invoke_compileTemplate "/" "<div/>" "/abs/App.vue" None]
  /\ invoked (compileSFCTemplate DemoSFC.silent "/" (mkBlock "<div/>" None None)
                "/abs/App.vue" "/App.vue" false
                (compileSFCTemplate DemoSFC.silent "/" (mkBlock "<div/>" None None)
                   "/abs/App.vue" "/App.vue" false DemoSFC.empty_world).2).2
     = [invoke_compileTemplate "/" "<div/>" "/abs/App.vue" None;
        invoke_compileTemplate "/" "<div/>" "/abs/App.vue" None].
Proof. vm_compute. auto. Qed.



(** ** More facts about [parse] *)

Section NodeFacts.
Variable sv : Services.

(** The callbacks leave every field but the two lists they append to. *)
Lemma absorb_all_fields xs item :
  let item' := fold_left absorb xs item in
  ZipeModule.name item' = ZipeModule.name item
  /\ ZipeModule.extension item' = ZipeModule.extension item
  /\ ZipeModule.map item' = ZipeModule.map item
  /\ ZipeModule.sfc item' = ZipeModule.sfc item
  /\ ZipeModule.exports item' = ZipeModule.exports item.
Proof.
  revert item. induction xs as [|x xs IH]; intros item; simpl; [done|].
  destruct (IH (absorb item x)) as (-> & -> & -> & -> & ->). done.
Qed.

Lemma absorb_all_styles (l : list (nat * ZipeModule.t)) item :
  ZipeModule.styles (ZipeModule.extra (fold_left absorb (List.map snd l) item))
  = ZipeModule.styles (ZipeModule.extra item)
    ++ flat_map (fun r => ZipeModule.styles (ZipeModule.extra r.2)) l.
Proof.
  revert item. induction l as [|x l IH]; intros item; simpl.
  - by rewrite app_nil_r.
  - rewrite IH. simpl. by rewrite <- app_assoc.
Qed.

(** The node of a fulfilled call is the loaded node but for its
    transitive list and its style headers. *)
Lemma node_fields fuel t f i t' item :
  result (parse sv fuel t f i) = Resolved t' item ->
  exists item0,
    loaded (load sv t f i) = inr item0
    /\ ZipeModule.name item = ZipeModule.name item0
    /\ ZipeModule.extension item = ZipeModule.extension item0
    /\ ZipeModule.rawContent item = ZipeModule.rawContent item0
    /\ ZipeModule.module item = ZipeModule.module item0
    /\ ZipeModule.code item = ZipeModule.code item0
    /\ ZipeModule.map item = ZipeModule.map item0
    /\ ZipeModule.sfc item = ZipeModule.sfc item0
    /\ ZipeModule.exports item = ZipeModule.exports item0
    /\ ZipeModule.dependencies item = ZipeModule.dependencies item0.
Proof.
  intros H. destruct (parse_node sv _ _ _ _ _ _ H) as (n & item0 & -> & Hl & Hk).
  cbn zeta in Hk. destruct Hk as (_ & _ & _ & ->).
  exists item0. split; [done|].
  match goal with |- context [fold_left absorb ?xs ?i] =>
    destruct (absorb_all_fields xs i) as (-> & -> & -> & -> & ->);
    destruct (absorb_all_kept xs i) as (-> & _ & -> & -> & ->) end.
  done.
Qed.

Lemma fulfilments_member kids r :
  In r (fulfilments kids) -> exists k, In k kids /\ result k = Resolved r.1 r.2.
Proof.
  induction kids as [|k kids IH]; simpl; [done|].
  destruct (result k) eqn:Hk; simpl.
  - intros H. destruct (IH H) as (k' & ? & ?). eauto.
  - intros H. destruct (IH H) as (k' & ? & ?). eauto.
  - intros [<-|H]; [eauto|]. destruct (IH H) as (k' & ? & ?). eauto.
Qed.

Lemma flat_map_all_nil {A B} (f : A -> list B) l :
  (forall x, In x l -> f x = []) -> flat_map f l = [].
Proof.
  induction l as [|x l IH]; simpl; [done|].
  intros H. rewrite (H x), IH; auto.
Qed.

Lemma styles_never_collected fuel : forall t f i t' item,
  result (parse sv fuel t f i) = Resolved t' item ->
  ZipeModule.styles (ZipeModule.extra item) = [].
Proof.
  induction fuel as [|n IH]; intros t f i t' item H; [discriminate|].
  destruct (parse_node sv _ _ _ _ _ _ H) as (n' & item0 & Hn & Hl & Hk).
  injection Hn as <-. cbn zeta in Hk. destruct Hk as (Hkids & _ & _ & ->).
  destruct (load_node sv _ _ _ _ Hl) as (_ & _ & Hs & _).
  rewrite absorb_all_styles.
  set (kids := children (parse sv (S n) t f i)) in *. clearbody kids.
  simpl. rewrite Hs. simpl.
  apply flat_map_all_nil. intros r Hr.
  apply (Permutation_in _ (completion_order_perm _)) in Hr.
  apply fulfilments_member in Hr as (k & Hk & Hres).
  rewrite Hkids in Hk. apply in_map_iff in Hk as (d & <- & _).
  eapply IH, Hres.
Qed.

(** The number of calls of a fulfilled tree: one for the entry and one
    for every edge of the tree that is not external. *)
Lemma calls_count fuel : forall t f i t' item,
  result (parse sv fuel t f i) = Resolved t' item ->
  length (subcalls (parse sv fuel t f i))
  = S (length (List.filter not_external (tree_edges (parse sv fuel t f i)))).
Proof.
  induction fuel as [|n IH]; intros t f i t' item H; [discriminate|].
  destruct (node_edges sv _ _ _ _ _ _ H) as (item0 & Hl & Hd & _ & _).
  destruct (parse_node sv _ _ _ _ _ _ H) as (n' & item0' & Hn & Hl' & Hk).
  injection Hn as <-. rewrite Hl in Hl'. injection Hl' as <-.
  cbn zeta in Hk. destruct Hk as (Hkids & Hall & _ & _).
  destruct (parse sv (S n) t f i) as [f' i' ev kids r] eqn:Hp.
  simpl in *. subst r. unfold direct_edges. simpl. f_equal.
  rewrite List.filter_app, List.length_app, Hd.
  assert (Hcalls : Forall (fun k => exists t f i, k = parse sv n t f i) kids).
  { subst kids. apply List.Forall_map, List.Forall_forall. intros; eauto. }
  assert (Hlen : length kids
                 = length (List.filter not_external (ZipeModule.dependencies item0)))
    by (by rewrite Hkids, List.length_map).
  rewrite <- Hlen. clear Hkids Hp Hlen.
  induction Hall as [|k r kids rs Hk Hall IHall]; simpl; [done|].
  apply Forall_cons_1 in Hcalls as [(tk & fk & ik & ->) Hcalls].
  rewrite List.length_app, List.filter_app, List.length_app, (IH _ _ _ _ _ Hk), (IHall Hcalls).
  lia.
Qed.

(** A call that loads its module reads once. *)
Lemma loaded_reads_once t f i item0 :
  loaded (load sv t f i) = inr item0 ->
  length (List.filter is_read (loaded_events (load sv t f i))) = 1.
Proof.
  intros Hl. destruct (load_node sv _ _ _ _ Hl) as (_ & _ & _ & Hr).
  destruct (load_events sv t f i) as [(e & He & _)|(m & rest & _ & -> & Hrest)];
    [congruence|].
  simpl. f_equal.
  induction Hrest as [|e rest [He _] _ IH]; simpl; [done|]. by rewrite He.
Qed.

Lemma reads_count fuel : forall t f i t' item,
  result (parse sv fuel t f i) = Resolved t' item ->
  length (List.filter is_read (all_events (parse sv fuel t f i)))
  = length (subcalls (parse sv fuel t f i)).
Proof.
  intros t f i t' item H.
  pose proof (resolved_tree sv fuel t f i t' item H) as Hres.
  pose proof (subcalls_parse sv fuel t f i) as Hcalls.
  unfold all_events.
  induction (subcalls (parse sv fuel t f i)) as [|c l IH]; simpl; [done|].
  apply Forall_cons_1 in Hres as [Hc Hres].
  apply Forall_cons_1 in Hcalls as [(n & tc & fc & ic & ->) Hcalls].
  rewrite List.filter_app, List.length_app, (IH Hres Hcalls).
  unfold node in Hc.
  destruct (result (parse sv n tc fc ic)) as [| |tr x] eqn:Hr; try done.
  destruct (parse_resolved sv _ _ _ _ _ _ Hr) as (n' & item0 & -> & Hl).
  rewrite (parse_loaded sv n' tc fc ic item0 Hl). simpl.
  by rewrite (loaded_reads_once tc fc ic item0 Hl).
Qed.

End NodeFacts.

Section LoadShape.
Variable sv : Services.

(** What a loaded node holds, by the branch that made it. *)
Lemma load_shape t f i item0 :
  loaded (load sv t f i) = inr item0 ->
  exists m content,
    settle (resolver_info sv f i) = inr m
    /\ settle (fileCache_get sv (ModuleInformation.name m)) = inr content
    /\ ZipeModule.module item0 = m
    /\ ZipeModule.name item0 = basename sv (ModuleInformation.name m)
    /\ ZipeModule.extension item0 = slice1 (extname sv (ModuleInformation.path m))
    /\ ZipeModule.rawContent item0 = content
    /\ ((ZipeModule.extension item0 = "vue"
         /\ exists extra,
              settle (sfcParser sv content f (transformers sv)) = inr extra
              /\ ZipeModule.code item0 = None
              /\ ZipeModule.map item0 = None
              /\ ZipeModule.exports item0 = []
              /\ ZipeModule.dependencies item0
                 = (parseImportsExports sv (Sfc.code (Sfc.script extra))
                      (ModuleInformation.name m) (resolver_info sv)).1
              /\ ZipeModule.sfc item0
                 = Sfc.with_script_exports
                     (parseImportsExports sv (Sfc.code (Sfc.script extra))
                        (ModuleInformation.name m) (resolver_info sv)).2
                     (Sfc.with_script_dependencies
                        (parseImportsExports sv (Sfc.code (Sfc.script extra))
                           (ModuleInformation.name m) (resolver_info sv)).1
                        extra))
        \/ (ZipeModule.extension item0 <> "vue"
            /\ exists transformer code map,
                 transformers sv !! ZipeModule.extension item0 = Some transformer
                 /\ settle (transformer content f) = inr (code, map)
                 /\ ZipeModule.code item0 = Some code
                 /\ ZipeModule.map item0 = map
                 /\ ZipeModule.sfc item0 = Sfc.initial
                 /\ ZipeModule.dependencies item0
                    = (parseImportsExports sv "" (ModuleInformation.name m)
                         (resolver_info sv)).1
                 /\ ZipeModule.exports item0
                    = (parseImportsExports sv "" (ModuleInformation.name m)
                         (resolver_info sv)).2)
        \/ (ZipeModule.extension item0 <> "vue"
            /\ transformers sv !! ZipeModule.extension item0 = None
            /\ ZipeModule.sfc item0 = Sfc.initial
            /\ ((inherited sv (ZipeModule.extension item0) = None
                 /\ ZipeModule.code item0 = None
                 /\ ZipeModule.map item0 = None
                 /\ ZipeModule.dependencies item0 = []
                 /\ ZipeModule.exports item0 = [])
                \/ (exists call p code map,
                      inherited sv (ZipeModule.extension item0)
                      = Some (inherited_function call)
                      /\ call content f = inr p
                      /\ settle p = inr (code, map)
                      /\ ZipeModule.code item0 = code
                      /\ ZipeModule.map item0 = map
                      /\ ZipeModule.dependencies item0
                         = (parseImportsExports sv "" (ModuleInformation.name m)
                              (resolver_info sv)).1
                      /\ ZipeModule.exports item0
                         = (parseImportsExports sv "" (ModuleInformation.name m)
                              (resolver_info sv)).2)))).
Proof.
  unfold load.
  destruct (settle (resolver_info sv f i)) as [e|m] eqn:Hr; [discriminate|].
  destruct (settle (fileCache_get sv (ModuleInformation.name m))) as [e|content] eqn:Hc;
    [discriminate|].
  cbn zeta.
  destruct (String.eqb_spec (slice1 (extname sv (ModuleInformation.path m))) "vue")
    as [Hvue|Hvue].
  - destruct (settle (sfcParser sv content f (transformers sv))) as [e|extra] eqn:Hp;
      [discriminate|].
    simpl.
    destruct (parseImportsExports sv (Sfc.code (Sfc.script extra))
                (ModuleInformation.name m) (resolver_info sv)) as [imports exports]
      eqn:Hx.
    simpl. intros [= <-]. exists m, content. simpl.
    repeat (split; [done|]). left. split; [done|].
    exists extra. rewrite Hx. done.
  - destruct (transformers sv !! slice1 (extname sv (ModuleInformation.path m)))
      as [transformer|] eqn:Htr.
    + destruct (settle (transformer content f)) as [e|[code map]] eqn:Hp;
        [discriminate|].
      simpl.
      destruct (parseImportsExports sv "" (ModuleInformation.name m)
                  (resolver_info sv)) as [imports exports] eqn:Hx.
      simpl. intros [= <-]. exists m, content. simpl.
      repeat (split; [done|]). right. left. split; [done|].
      exists transformer, code, map. rewrite Hx. done.
    + destruct (inherited sv (slice1 (extname sv (ModuleInformation.path m))))
        as [[call|]|] eqn:Hin.
      * destruct (call content f) as [e|p] eqn:Hcall; [discriminate|].
        destruct (settle p) as [e|[code map]] eqn:Hp; [discriminate|].
        simpl.
        destruct (parseImportsExports sv "" (ModuleInformation.name m)
                    (resolver_info sv)) as [imports exports] eqn:Hx.
        simpl. intros [= <-]. exists m, content. simpl.
        repeat (split; [done|]). right. right. repeat (split; [done|]). right.
        exists call, p, code, map. rewrite Hx. done.
      * discriminate.
      * simpl. intros [= <-]. exists m, content. simpl.
        repeat (split; [done|]). right. right. repeat (split; [done|]). by left.
Qed.

End LoadShape.

Section Rejections.
Variable sv : Services.

Lemma first_rejection_exists kids k tk ek :
  In k kids -> result k = Rejected tk ek -> exists tr e, first_rejection kids = Some (tr, e).
Proof.
  induction kids as [|k' kids IH]; [done|]. simpl.
  intros [<-|Hin] Hr.
  - rewrite Hr. destruct (first_rejection kids) as [[t1 e1]|]; [|eauto].
    destruct (tk <=? t1)%nat; eauto.
  - destruct (IH Hin Hr) as (tr & e & ->).
    destruct (result k') as [|t0 e0|]; eauto. destruct (t0 <=? tr)%nat; eauto.
Qed.

Lemma first_rejection_some kids tr e :
  first_rejection kids = Some (tr, e) ->
  (exists k, In k kids /\ result k = Rejected tr e)
  /\ forall k tk ek, In k kids -> result k = Rejected tk ek -> tr <= tk.
Proof.
  revert tr e. induction kids as [|k kids IH]; intros tr e; simpl; [discriminate|].
  destruct (result k) as [|t0 e0|t0 x] eqn:Hk.
  - intros H. destruct (IH _ _ H) as [(k' & Hin & Hr) Hmin]. split; [eauto|].
    intros k2 tk ek [<-|Hin2] Hr2; [congruence|eauto].
  - destruct (first_rejection kids) as [[t1 e1]|] eqn:Hf.
    + destruct (IH _ _ eq_refl) as [(k' & Hin & Hr) Hmin].
      destruct (t0 <=? t1)%nat eqn:E; intros [= <- <-].
      * apply Nat.leb_le in E. split; [eauto|].
        intros k2 tk ek [<-|Hin2] Hr2; [rewrite Hk in Hr2; injection Hr2; lia|].
        specialize (Hmin _ _ _ Hin2 Hr2). lia.
      * apply Nat.leb_gt in E. split; [eauto|].
        intros k2 tk ek [<-|Hin2] Hr2; [rewrite Hk in Hr2; injection Hr2; lia|eauto].
    + intros [= <- <-]. split; [eauto|].
      intros k2 tk ek [<-|Hin2] Hr2; [rewrite Hk in Hr2; injection Hr2; lia|].
      destruct (first_rejection_exists _ _ _ _ Hin2 Hr2) as (? & ? & ?). congruence.
  - intros H. destruct (IH _ _ H) as [(k' & Hin & Hr) Hmin]. split; [eauto|].
    intros k2 tk ek [<-|Hin2] Hr2; [congruence|eauto].
Qed.

Lemma join_rejected t item kids tr e :
  join t item kids = Rejected tr e ->
  exists tk, tr = tk + turns kids /\ first_rejection kids = Some (tk, e).
Proof.
  unfold join. destruct (first_rejection kids) as [[tk e']|].
  - intros [= <- <-]. eauto.
  - by destruct (existsb is_pending kids).
Qed.

(** A rejection anywhere in the tree rejects the entry. *)
Lemma rejection_reaches_root fuel : forall t f i c tc ec,
  In c (subcalls (parse sv fuel t f i)) ->
  result c = Rejected tc ec ->
  exists tr e, result (parse sv fuel t f i) = Rejected tr e.
Proof.
  induction fuel as [|n IH]; intros t f i c tc ec Hin Hc.
  - simpl in Hin. destruct Hin as [<-|[]]. discriminate.
  - destruct (loaded (load sv t f i)) as [e|item0] eqn:Hl.
    + rewrite (parse_failed sv n t f i e Hl). simpl. eauto.
    + rewrite (parse_loaded sv n t f i item0 Hl) in Hin |- *. cbn zeta in *.
      simpl in Hin. destruct Hin as [<-|Hin]; [simpl in Hc; eauto|].
      apply in_flat_map in Hin as (k & Hk & Hin).
      apply in_map_iff in Hk as (d & <- & Hd).
      destruct (IH _ _ _ _ _ _ Hin Hc) as (tk & ek & Hrk).
      simpl. unfold join.
      match goal with |- context [first_rejection ?ks] =>
        destruct (first_rejection_exists ks _ tk ek
                    (in_map _ _ _ Hd) Hrk) as (tr & e & ->) end.
      eauto.
Qed.

(** The error of a rejected call is the error of a call of its tree
    whose own resolution, read, parse or transform failed. *)
Lemma rejection_origin fuel : forall t f i tr e,
  result (parse sv fuel t f i) = Rejected tr e ->
  exists c, In c (subcalls (parse sv fuel t f i))
            /\ children c = []
            /\ (exists tc, result c = Rejected tc e)
            /\ loaded (load sv 0 (call_filePath c) (call_importer c)) = inl e.
Proof.
  induction fuel as [|n IH]; intros t f i tr e H; [discriminate|].
  destruct (loaded (load sv t f i)) as [e0|item0] eqn:Hl.
  - rewrite (parse_failed sv n t f i e0 Hl) in H |- *. simpl in H.
    injection H as <- <-. eexists. split; [left; reflexivity|]. simpl.
    split; [done|]. split; [eauto|]. by rewrite load_loaded_time in Hl.
  - rewrite (parse_loaded sv n t f i item0 Hl) in H |- *. cbn zeta in *. simpl in H.
    apply join_rejected in H as (tk & -> & Hf).
    apply first_rejection_some in Hf as [(k & Hk & Hrk) _].
    apply in_map_iff in Hk as (d & <- & Hd).
    destruct (IH _ _ _ _ _ Hrk) as (c & Hin & Hrest).
    exists c. split; [|done]. simpl. right.
    apply in_flat_map. eexists. split; [|exact Hin].
    apply in_map_iff. eauto.
Qed.

End Rejections.

(** ** Further properties of [parse] *)

(** X1. The node that [parse] returns carries the identity the resolver
    gave: [module] is the resolved info, [name] the base name of its
    [name], [extension] the extension of its [path] without the dot, and
    [rawContent] what the content source answered for its [name] (the
    graph cache is keyed by [path], the content source by [name]). *)
Theorem node_identity
        (sv : Services) (fuel t : nat) (filePath importer : string)
        (t' : nat) (item : ZipeModule.t) :
  result (parse sv fuel t filePath importer) = Resolved t' item ->
  exists m content,
    settle (resolver_info sv filePath importer) = inr m
    /\ settle (fileCache_get sv (ModuleInformation.name m)) = inr content
    /\ ZipeModule.module item = m
    /\ ZipeModule.name item = basename sv (ModuleInformation.name m)
    /\ ZipeModule.extension item = slice1 (extname sv (ModuleInformation.path m))
    /\ ZipeModule.rawContent item = content.
Proof.
  intros H.
  destruct (node_fields sv _ _ _ _ _ _ H)
    as (item0 & Hl & -> & -> & -> & -> & _).
  destruct (load_shape sv _ _ _ _ Hl) as (m & content & H1 & H2 & H3 & H4 & H5 & H6 & _).
  exists m, content. done.
Qed.

(** The theorem at the entry [main.ts] of the demo project. *)
Lemma node_identity_witness :
  exists t' item,
    result (parse Demo.services 2 0 "./main.ts" "") = Resolved t' item
    /\ ZipeModule.name item = "main.ts"
    /\ ZipeModule.extension item = "ts"
    /\ ZipeModule.rawContent item = Demo.import_ "./util.ts".
Proof.
  assert (Hres : exists t' item,
             result (parse Demo.services 2 0 "./main.ts" "") = Resolved t' item)
    by (vm_compute; eauto).
  destruct Hres as (t' & item & Hres). exists t', item. split; [exact Hres|].
  destruct (node_identity Demo.services 2 0 "./main.ts" "" t' item Hres)
    as (m & content & Hm & Hc & _ & Hn & He & Hr).
  vm_compute in Hm. injection Hm as <-.
  vm_compute in Hc. injection Hc as <-.
  rewrite Hn, He, Hr. vm_compute. auto.
Defined.

(** X2. The node of a composite file ([vue]) has no code and no map of
    its own and an empty [exports] list: the compiled parts live in
    [sfc], which is what the parser answered with the script's
    dependencies and exports filled in from the extractor, run over the
    script code of that answer; the node's direct dependencies are that
    same list of imports. *)
Theorem composite_node
        (sv : Services) (fuel t : nat) (filePath importer : string)
        (t' : nat) (item : ZipeModule.t) :
  result (parse sv fuel t filePath importer) = Resolved t' item ->
  ZipeModule.extension item = "vue" ->
  exists extra,
    settle (sfcParser sv (ZipeModule.rawContent item) filePath (transformers sv))
    = inr extra
    /\ ZipeModule.code item = None
    /\ ZipeModule.map item = None
    /\ ZipeModule.exports item = []
    /\ ZipeModule.dependencies item
       = (parseImportsExports sv (Sfc.code (Sfc.script extra))
            (ModuleInformation.name (ZipeModule.module item)) (resolver_info sv)).1
    /\ Sfc.dependencies (Sfc.script (ZipeModule.sfc item))
       = ZipeModule.dependencies item
    /\ Sfc.exports (Sfc.script (ZipeModule.sfc item))
       = (parseImportsExports sv (Sfc.code (Sfc.script extra))
            (ModuleInformation.name (ZipeModule.module item)) (resolver_info sv)).2
    /\ Sfc.code (Sfc.script (ZipeModule.sfc item)) = Sfc.code (Sfc.script extra)
    /\ Sfc.template (ZipeModule.sfc item) = Sfc.template extra
    /\ Sfc.styles (ZipeModule.sfc item) = Sfc.styles extra
    /\ Sfc.scopeId (ZipeModule.sfc item) = Sfc.scopeId extra.
Proof.
  intros H Hvue.
  destruct (node_fields sv _ _ _ _ _ _ H)
    as (item0 & Hl & _ & He & Hr & Hm & Hc & Hmap & Hs & Hx & Hd).
  destruct (load_shape sv _ _ _ _ Hl)
    as (m & content & _ & _ & H3 & _ & _ & H6 & Hbranch).
  rewrite He in Hvue. rewrite Hr, Hc, Hmap, Hx, Hd, Hs, Hm, H3, H6.
  destruct Hbranch as [(_ & extra & Hp & -> & -> & -> & -> & ->)
                      |[(Hn & _)|(Hn & _)]]; [|done|done].
  exists extra. done.
Qed.

(** The theorem at [A.vue] of the demo project, which imports [C.vue]. *)
Lemma composite_node_witness :
  exists t' item,
    result (parse Demo.services 5 0 "./A.vue" "") = Resolved t' item
    /\ ZipeModule.code item = None
    /\ ZipeModule.exports item = []
    /\ List.map ZipeDependency.importPath
         (Sfc.dependencies (Sfc.script (ZipeModule.sfc item))) = ["./C.vue"].
Proof.
  assert (Hres : exists t' item,
             result (parse Demo.services 5 0 "./A.vue" "") = Resolved t' item
             /\ ZipeModule.extension item = "vue"
             /\ List.map ZipeDependency.importPath (ZipeModule.dependencies item)
                = ["./C.vue"])
    by (vm_compute; eauto).
  destruct Hres as (t' & item & Hres & Hvue & Hdeps).
  exists t', item. split; [exact Hres|].
  destruct (composite_node Demo.services 5 0 "./A.vue" "" t' item Hres Hvue)
    as (extra & _ & Hc & _ & Hx & _ & Hd & _).
  split; [exact Hc|]. split; [exact Hx|]. by rewrite Hd.
Defined.

(** X3. For a file with a registered transform the node holds the
    transform's code and map, but its direct dependencies and its exports
    are what the extractor answers for the empty text and the resolved
    name: they depend neither on the content of the file nor on the
    compiled code, and the composite sub-result stays the initial one. *)
Theorem transformed_node
        (sv : Services) (fuel t : nat) (filePath importer : string)
        (t' : nat) (item : ZipeModule.t) (transformer : ZipeScriptTransform) :
  result (parse sv fuel t filePath importer) = Resolved t' item ->
  ZipeModule.extension item <> "vue" ->
  transformers sv !! ZipeModule.extension item = Some transformer ->
  exists code map,
    settle (transformer (ZipeModule.rawContent item) filePath) = inr (code, map)
    /\ ZipeModule.code item = Some code
    /\ ZipeModule.map item = map
    /\ ZipeModule.sfc item = Sfc.initial
    /\ ZipeModule.dependencies item
       = (parseImportsExports sv ""
            (ModuleInformation.name (ZipeModule.module item)) (resolver_info sv)).1
    /\ ZipeModule.exports item
       = (parseImportsExports sv ""
            (ModuleInformation.name (ZipeModule.module item)) (resolver_info sv)).2.
Proof.
  intros H Hvue Htr.
  destruct (node_fields sv _ _ _ _ _ _ H)
    as (item0 & Hl & _ & He & Hr & Hm & Hc & Hmap & Hs & Hx & Hd).
  destruct (load_shape sv _ _ _ _ Hl)
    as (m & content & _ & _ & H3 & _ & _ & H6 & Hbranch).
  rewrite He in Hvue, Htr. rewrite Hr, Hc, Hmap, Hx, Hd, Hs, Hm, H3, H6.
  destruct Hbranch as [(Hn & _)
                      |[(_ & tr & code & map & Htr' & Hp & -> & -> & -> & -> & ->)
                       |(_ & Hnone & _)]]; [done| |congruence].
  rewrite Htr in Htr'. injection Htr' as <-.
  exists code, map. done.
Qed.

(** The theorem at [main.ts], whose text imports [util.ts]. *)
Lemma transformed_node_witness :
  exists t' item,
    result (parse Demo.services 2 0 "./main.ts" "") = Resolved t' item
    /\ ZipeModule.code item = Some (Demo.import_ "./util.ts")
    /\ ZipeModule.dependencies item = [].
Proof.
  assert (Hres : exists t' item,
             result (parse Demo.services 2 0 "./main.ts" "") = Resolved t' item
             /\ ZipeModule.extension item = "ts"
             /\ ZipeModule.rawContent item = Demo.import_ "./util.ts"
             /\ ModuleInformation.name (ZipeModule.module item) = "/src/main.ts")
    by (vm_compute; eauto 10).
  destruct Hres as (t' & item & Hres & Hext & Hraw & Hname).
  exists t', item. split; [exact Hres|].
  destruct (transformed_node Demo.services 2 0 "./main.ts" "" t' item Demo.keep Hres)
    as (code & map & Hp & Hc & _ & _ & Hd & _).
  - rewrite Hext. discriminate.
  - rewrite Hext. vm_compute. reflexivity.
  - rewrite Hraw in Hp. rewrite Hname in Hd.
    split; [|exact Hd]. rewrite Hc. f_equal.
    vm_compute in Hp. by injection Hp as <- _.
Defined.

(** X4. The style headers of a node are never filled: every node that
    [parse] returns has an empty [extra.styles], since the list starts
    empty and only ever receives the lists of other nodes. *)
Theorem style_headers_stay_empty
        (sv : Services) (fuel t : nat) (filePath importer : string)
        (t' : nat) (item : ZipeModule.t) :
  result (parse sv fuel t filePath importer) = Resolved t' item ->
  ZipeModule.styles (ZipeModule.extra item) = [].
Proof. apply styles_never_collected. Qed.

(** The theorem at the entry [App.vue] of the demo project. *)
Lemma style_headers_stay_empty_witness :
  exists t' item,
    result (parse Demo.services 5 0 "/src/App.vue" "") = Resolved t' item
    /\ ZipeModule.styles (ZipeModule.extra item) = [].
Proof.
  assert (Hres : exists t' item,
             result (parse Demo.services 5 0 "/src/App.vue" "") = Resolved t' item)
    by (vm_compute; eauto).
  destruct Hres as (t' & item & Hres). exists t', item. split; [exact Hres|].
  exact (style_headers_stay_empty Demo.services 5 0 "/src/App.vue" "" t' item Hres).
Defined.

(** X5. When the resolver rejects, [parse] is rejected with the
    resolver's error; the only thing the call has done is to ask the
    resolver: nothing was put into the graph cache, nothing was read, no
    dependency was parsed. *)
Theorem resolution_error_is_raised
        (sv : Services) (fuel t : nat) (filePath importer : string) (e : Error) :
  settle (resolver_info sv filePath importer) = inl e ->
  let call := parse sv (S fuel) t filePath importer in
  result call = Rejected (t + S (ticks (resolver_info sv filePath importer))) e
  /\ events call = [resolver_info_call filePath importer]
  /\ children call = [].
Proof.
  intros Hr call. unfold call. simpl. unfold load. rewrite Hr. done.
Qed.

(** The theorem at the empty specifier, which the demo resolver rejects. *)
Lemma resolution_error_is_raised_witness :
  result (parse Demo.services 1 0 "" "/src/App.vue")
  = Rejected 1 (ResolutionError "" "/src/App.vue").
Proof.
  exact (proj1 (resolution_error_is_raised Demo.services 0 0 "" "/src/App.vue"
                  (ResolutionError "" "/src/App.vue") eq_refl)).
Defined.

(** X6. Errors travel up: if any call of the tree is rejected, the entry
    call is rejected, whatever the other sub-resolutions do; and the
    error an entry call is rejected with is the error of a call of its
    tree whose own resolution, read, parse or transform failed. *)
Theorem rejections_propagate
        (sv : Services) (fuel t : nat) (filePath importer : string) :
  (forall c tc ec,
     In c (subcalls (parse sv fuel t filePath importer)) ->
     result c = Rejected tc ec ->
     exists tr e, result (parse sv fuel t filePath importer) = Rejected tr e)
  /\ (forall tr e,
        result (parse sv fuel t filePath importer) = Rejected tr e ->
        exists c,
          In c (subcalls (parse sv fuel t filePath importer))
          /\ children c = []
          /\ (exists tc, result c = Rejected tc e)
          /\ loaded (load sv 0 (call_filePath c) (call_importer c)) = inl e).
Proof.
  split.
  - intros c tc ec. apply rejection_reaches_root.
  - apply rejection_origin.
Qed.

(** The theorem at [Broken.vue], which imports a file that is missing. *)
Lemma rejections_propagate_witness :
  exists tr,
    result (parse Diamond.services 3 0 "./Broken.vue" "")
    = Rejected tr (NotFound "/src/Missing.vue").
Proof.
  destruct (proj1 (rejections_propagate Diamond.services 3 0 "./Broken.vue" "")
              (parse Diamond.services 2 3 "/src/Missing.vue" "/src/Broken.vue")
              5 (NotFound "/src/Missing.vue")) as (tr & e & H).
  - vm_compute. auto.
  - vm_compute. reflexivity.
  - exists tr. rewrite H. f_equal.
    vm_compute in H. by injection H as _ <-.
Defined.

(** X7. Nothing is shared between the visits of a module: a fulfilled
    entry call has made one call of [parse] for itself and one for every
    edge of its transitive list that is not external, and each of these
    calls has asked the content source once. A module that two
    dependencies import is parsed and read twice. *)
Theorem one_call_per_edge
        (sv : Services) (fuel t : nat) (filePath importer : string)
        (t' : nat) (item : ZipeModule.t) :
  result (parse sv fuel t filePath importer) = Resolved t' item ->
  length (subcalls (parse sv fuel t filePath importer))
  = S (length (List.filter not_external (ZipeModule.fullDependencies item)))
  /\ length (List.filter is_read (all_events (parse sv fuel t filePath importer)))
     = length (subcalls (parse sv fuel t filePath importer)).
Proof.
  intros H. split; [|by eapply reads_count].
  rewrite (calls_count sv _ _ _ _ _ _ H). f_equal.
  apply Permutation_length.
  assert (Hp := tree_edges_parse sv _ _ _ _ _ _ H).
  clear H. induction Hp; simpl; try done.
  - destruct (not_external x); simpl; by rewrite ?IHHp.
  - destruct (not_external x), (not_external y); try done. apply perm_swap.
  - etransitivity; eauto.
Qed.

(** The theorem at [Top.vue]: [Shared.vue] is a dependency of both
    [Left.vue] and [Right.vue], and it is read twice. *)
Lemma one_call_per_edge_witness :
  length (subcalls (parse Diamond.services 4 0 "./Top.vue" "")) = 5
  /\ List.filter (fun e => match e with
                           | fileCache_get_call "/src/Shared.vue" => true
                           | _ => false
                           end)
                 (all_events (parse Diamond.services 4 0 "./Top.vue" ""))
     = [fileCache_get_call "/src/Shared.vue"; fileCache_get_call "/src/Shared.vue"].
Proof.
  split; [|vm_compute; reflexivity].
  assert (Hres : exists t' item,
             result (parse Diamond.services 4 0 "./Top.vue" "") = Resolved t' item
             /\ length (List.filter not_external (ZipeModule.fullDependencies item))
                = 4)
    by (vm_compute; eauto).
  destruct Hres as (t' & item & Hres & Hlen).
  rewrite (proj1 (one_call_per_edge Diamond.services 4 0 "./Top.vue" "" t' item Hres)).
  by rewrite Hlen.
Defined.

(** ** More facts about the artifact cache *)

Section MoreCacheFacts.
Context {V : Type}.

Lemma LRU_find_remove_ne (k k' : string) (c : LRU.t V) :
  k <> k' -> LRU.find k (LRU.remove k' c) = LRU.find k c.
Proof.
  intros Hne. induction c as [|[k0 v] c IH]; simpl; [done|].
  destruct (String.eqb_spec k0 k') as [->|Hk0]; simpl.
  - rewrite IH. destruct (String.eqb_spec k' k); [congruence|done].
  - by rewrite IH.
Qed.

Lemma LRU_find_get_any (k k' : string) (c : LRU.t V) :
  LRU.find k (LRU.get k' c).2 = LRU.find k c.
Proof.
  destruct (decide (k = k')) as [->|Hne]; [apply LRU_find_get|].
  unfold LRU.get. destruct (LRU.find k' c) eqn:E; simpl; [|done].
  destruct (String.eqb_spec k' k); [congruence|]. by apply LRU_find_remove_ne.
Qed.

Lemma LRU_remove_length (k : string) (c : LRU.t V) :
  length (LRU.remove k c) <= length c.
Proof.
  induction c as [|[k0 v] c IH]; simpl; [done|].
  destruct (String.eqb k0 k); simpl; lia.
Qed.

Lemma LRU_remove_length_found (k : string) (c : LRU.t V) v :
  LRU.find k c = Some v -> length (LRU.remove k c) < length c.
Proof.
  induction c as [|[k0 v0] c IH]; simpl; [done|].
  destruct (String.eqb k0 k); simpl.
  - intros _. pose proof (LRU_remove_length k c). lia.
  - intros H. specialize (IH H). lia.
Qed.

Lemma LRU_remove_keys (k : string) (c : LRU.t V) :
  ~ In k (List.map fst (LRU.remove k c))
  /\ (forall k', In k' (List.map fst (LRU.remove k c)) -> In k' (List.map fst c))
  /\ (List.NoDup (List.map fst c) -> List.NoDup (List.map fst (LRU.remove k c))).
Proof.
  induction c as [|[k0 v] c (IH1 & IH2 & IH3)]; simpl.
  - split; [tauto|]. split; [tauto|]. intros; constructor.
  - destruct (String.eqb_spec k0 k) as [->|Hne]; simpl.
    + split; [done|]. split; [auto|]. intros H. apply List.NoDup_cons_iff in H as [_ H]. auto.
    + split; [intros [?|?]; auto|]. split; [intros k' [?|?]; auto|].
      intros H. apply List.NoDup_cons_iff in H as [Hin H].
      apply List.NoDup_cons_iff. split; [|auto]. intros Hk. apply Hin. auto.
Qed.

Lemma NoDup_take_keys (n : nat) (c : LRU.t V) :
  List.NoDup (List.map fst c) -> List.NoDup (List.map fst (take n c)).
Proof.
  revert n. induction c as [|[k v] c IH]; intros [|n]; simpl; try constructor.
  - intros Hin. inversion H; subst. apply H2.
    clear -Hin. revert n Hin. induction c as [|[k0 v0] c IH]; intros [|n]; simpl; try done.
    intros [?|?]; eauto.
  - inversion H; subst. by apply IH.
Qed.

Lemma LRU_get_well_kept (max : nat) (k : string) (c : LRU.t V) :
  well_kept max c -> well_kept max (LRU.get k c).2.
Proof.
  intros [Hlen Hnd]. unfold LRU.get.
  destruct (LRU.find k c) as [v|] eqn:E; simpl; [|done].
  destruct (LRU_remove_keys k c) as (Hk & _ & Hnd').
  split.
  - simpl. pose proof (LRU_remove_length_found k c v E). lia.
  - simpl. apply List.NoDup_cons_iff. auto.
Qed.

Lemma LRU_set_well_kept (max : nat) (k : string) (v : V) (c : LRU.t V) :
  List.NoDup (List.map fst c) -> well_kept max (LRU.set max k v c).
Proof.
  intros Hnd. unfold LRU.set. split.
  - rewrite length_take. lia.
  - apply NoDup_take_keys. simpl.
    destruct (LRU_remove_keys k c) as (Hk & _ & Hnd').
    apply List.NoDup_cons_iff. auto.
Qed.

Lemma LRU_find_set_ne (max : nat) (k k' : string) (v : V) (c : LRU.t V) :
  k' <> k -> length c < max ->
  LRU.find k' (LRU.set max k v c) = LRU.find k' c.
Proof.
  intros Hne Hlen. unfold LRU.set.
  rewrite take_ge.
  - simpl. destruct (String.eqb_spec k k'); [congruence|].
    by apply LRU_find_remove_ne.
  - simpl. pose proof (LRU_remove_length k c). lia.
Qed.

Lemma LRU_get_length (k : string) (c : LRU.t V) :
  length (LRU.get k c).2 <= length c.
Proof.
  unfold LRU.get. destruct (LRU.find k c) as [v|] eqn:E; simpl; [|done].
  pose proof (LRU_remove_length_found k c v E). lia.
Qed.

End MoreCacheFacts.

Section StepCache.
Variable tc : Toolchain.

Lemma array_get_set_ne {A} (i j : nat) (v : A) (a : list (option A)) :
  i <> j -> array_get j (array_set i v a) = array_get j a.
Proof.
  revert j a. induction i as [|i IH]; intros [|j] [|x a] Hne; try done.
  - specialize (IH j [] ltac:(lia)). unfold array_get in *. simpl in *.
    by rewrite IH.
  - apply (IH j a). lia.
Qed.

(** Each step either leaves the entries as they are or stores one entry
    under its path, which differs from the entry held before (or from
    [{ styles: [] }]) in the step's own sub-field only. *)
Lemma parseSFC_cache root filename content w :
  let old := or_empty (LRU.find filename (vueCache w)) in
  exists stored,
    cache_step filename (vueCache w) (vueCache (parseSFC tc root filename content w).2)
               stored
    /\ forall e', stored = Some e' ->
         (parseSFC tc root filename content w).1 = inr (entry_descriptor e')
         /\ entry_template e' = entry_template old
         /\ entry_script e' = entry_script old
         /\ entry_styles e' = entry_styles old.
Proof.
  cbn zeta. unfold parseSFC.
  pose proof (LRU_get_find filename (vueCache w)) as Hfind.
  destruct (LRU.get filename (vueCache w)) as [cached cache] eqn:Hg.
  simpl in Hfind. subst cached.
  destruct (LRU.find filename (vueCache w) ≫= entry_descriptor) as [d|]; simpl.
  - exists None. split; [unfold cache_step; by rewrite Hg|done].
  - match goal with |- context [match ?r.1 with _ => _ end] =>
      destruct r as [[err|c] calls] end; simpl.
    + exists None. split; [unfold cache_step; by rewrite Hg|done].
    + destruct (compiler_parse tc root c filename) as [d errors].
      destruct (report _ _ errors) as [printed []]; simpl.
      * eexists (Some _). split; [unfold cache_step; by rewrite Hg|].
        by intros e' [= <-].
      * exists None. split; [unfold cache_step; by rewrite Hg|done].
Qed.

Lemma compileSFCMain_cache descriptor filePath publicPath w :
  let old := or_empty (LRU.find filePath (vueCache w)) in
  exists stored,
    cache_step filePath (vueCache w)
               (vueCache (compileSFCMain tc descriptor filePath publicPath w).2) stored
    /\ forall e', stored = Some e' ->
         entry_descriptor e' = entry_descriptor old
         /\ entry_template e' = entry_template old
         /\ entry_script e'
            = Some (compileSFCMain tc descriptor filePath publicPath w).1
         /\ entry_styles e' = entry_styles old.
Proof.
  cbn zeta. unfold compileSFCMain.
  pose proof (LRU_get_find filePath (vueCache w)) as Hfind.
  destruct (LRU.get filePath (vueCache w)) as [cached cache] eqn:Hg.
  simpl in Hfind. subst cached.
  destruct (truthy_text (LRU.find filePath (vueCache w) ≫= entry_script)) as [code|];
    simpl.
  - exists None. split; [unfold cache_step; by rewrite Hg|done].
  - eexists (Some _). split; [unfold cache_step; by rewrite Hg|]. by intros e' [= <-].
Qed.

Lemma compileSFCTemplate_cache root block filename publicPath flag w :
  let old := or_empty (LRU.find filename (vueCache w)) in
  exists stored,
    cache_step filename (vueCache w)
               (vueCache (compileSFCTemplate tc root block filename publicPath flag w).2)
               stored
    /\ forall e', stored = Some e' ->
         entry_descriptor e' = entry_descriptor old
         /\ (exists code,
              (compileSFCTemplate tc root block filename publicPath flag w).1
              = inr code
              /\ entry_template e' = Some code)
         /\ entry_script e' = entry_script old
         /\ entry_styles e' = entry_styles old.
Proof.
  cbn zeta. unfold compileSFCTemplate.
  pose proof (LRU_get_find filename (vueCache w)) as Hfind.
  destruct (LRU.get filename (vueCache w)) as [cached cache] eqn:Hg.
  simpl in Hfind. subst cached.
  destruct (truthy_text (LRU.find filename (vueCache w) ≫= entry_template)) as [code|];
    simpl.
  - exists None. split; [unfold cache_step; by rewrite Hg|done].
  - destruct (compileTemplate tc root (content block) filename (block_map block)
                (dirname tc publicPath)
                (if flag then Some ("data-v-" +:+ hash_sum tc publicPath) else None)
                (lang block)) as [[code map] errors].
    destruct (report _ _ errors) as [printed []]; simpl.
    + eexists (Some _). split; [unfold cache_step; by rewrite Hg|].
      intros e' [= <-]. simpl. eauto 10.
    + exists None. split; [unfold cache_step; by rewrite Hg|done].
Qed.

Lemma compileSFCStyle_cache root style index filename publicPath w :
  let old := or_empty (LRU.find filename (vueCache w)) in
  exists stored,
    cache_step filename (vueCache w)
               (vueCache (compileSFCStyle tc root style index filename publicPath w).2)
               stored
    /\ forall e', stored = Some e' ->
         entry_descriptor e' = entry_descriptor old
         /\ entry_template e' = entry_template old
         /\ entry_script e' = entry_script old
         /\ exists r,
              (compileSFCStyle tc root style index filename publicPath w).1 = inr r
              /\ entry_styles e' = array_set index r (entry_styles old).
Proof.
  cbn zeta. unfold compileSFCStyle.
  pose proof (LRU_get_find filename (vueCache w)) as Hfind.
  destruct (LRU.get filename (vueCache w)) as [cached cache] eqn:Hg.
  simpl in Hfind. subst cached.
  destruct (LRU.find filename (vueCache w)
              ≫= (fun e => array_get index (entry_styles e))) as [r|]; simpl.
  - exists None. split; [unfold cache_step; by rewrite Hg|done].
  - destruct (report _ _ _) as [printed []]; simpl.
    + eexists (Some _). split; [unfold cache_step; by rewrite Hg|].
      intros e' [= <-]. simpl. eauto 10.
    + exists None. split; [unfold cache_step; by rewrite Hg|done].
Qed.

(** What [cache_step] means for lookups and for the shape of the cache. *)
Lemma cache_step_find path c c' stored :
  cache_step path c c' stored ->
  LRU.find path c'
  = match stored with Some e' => Some e' | None => LRU.find path c end.
Proof.
  destruct stored as [e'|]; simpl; intros ->.
  - apply vueCache_find_set.
  - apply LRU_find_get.
Qed.

Lemma cache_step_other path c c' stored other :
  cache_step path c c' stored ->
  other <> path -> length c < vueCache_max ->
  LRU.find other c' = LRU.find other c.
Proof.
  destruct stored as [e'|]; simpl; intros -> Hne Hlen.
  - rewrite LRU_find_set_ne; [apply LRU_find_get_any|done|].
    pose proof (LRU_get_length path c). lia.
  - apply LRU_find_get_any.
Qed.

Lemma cache_step_well_kept path c c' stored :
  cache_step path c c' stored ->
  well_kept vueCache_max c -> well_kept vueCache_max c'.
Proof.
  destruct stored as [e'|]; simpl; intros -> Hc.
  - apply LRU_set_well_kept. by apply (LRU_get_well_kept vueCache_max path c Hc).
  - by apply LRU_get_well_kept.
Qed.

End StepCache.

(** ** Further properties of the compile steps *)

(** X8. When no structure is cached for the file, no content is handed
    in (or the empty text is) and the file cannot be read, [parseSFC]
    answers [undefined]: the compiler is not called, nothing is stored,
    and every path of the cache still has the entry it had. *)
Theorem parseSFC_unreadable
        (tc : Toolchain) (root filename : string) (content : option string)
        (w : World) (e : Error) :
  LRU.find filename (vueCache w) ≫= entry_descriptor = None ->
  truthy_text content = None ->
  cachedRead tc filename = inl e ->
  let r := parseSFC tc root filename content w in
  r.1 = inr None
  /\ invoked r.2 = invoked w ++ [invoke_cachedRead filename]
  /\ forall path, LRU.find path (vueCache r.2) = LRU.find path (vueCache w).
Proof.
  intros Hmiss Hcontent Hread r. unfold r, parseSFC.
  pose proof (LRU_get_find filename (vueCache w)) as Hfind.
  pose proof (fun p => LRU_find_get_any p filename (vueCache w)) as Hany.
  destruct (LRU.get filename (vueCache w)) as [cached cache].
  simpl in Hfind, Hany. subst cached. rewrite Hmiss.
  assert (Hr : (match content with
                | Some c => if truthy_string c then (inr c, [])
                            else (cachedRead tc filename, [invoke_cachedRead filename])
                | None => (cachedRead tc filename, [invoke_cachedRead filename])
                end) = (inl e, [invoke_cachedRead filename])).
  { destruct content as [c|]; simpl in *; [|by rewrite Hread].
    destruct (truthy_string c); [discriminate|by rewrite Hread]. }
  rewrite Hr. simpl. done.
Qed.

(** The theorem on the demo toolchain, whose reader knows no file. *)
Lemma parseSFC_unreadable_witness :
  (parseSFC DemoSFC.toolchain "/" "/abs/App.vue" None DemoSFC.empty_world).1
  = inr None
  /\ vueCache (parseSFC DemoSFC.toolchain "/" "/abs/App.vue" (Some "")
                 DemoSFC.empty_world).2 = [].
Proof.
  split.
  - exact (proj1 (parseSFC_unreadable DemoSFC.toolchain "/" "/abs/App.vue" None
                    DemoSFC.empty_world (NotFound "/abs/App.vue")
                    eq_refl eq_refl eq_refl)).
  - vm_compute. reflexivity.
Defined.

(** The loop over the errors gets to all of them when the lines of each
    can be written. *)
Lemma reached_all ok errors : forallb ok errors = true -> reached ok errors = errors.
Proof.
  induction errors as [|e errors IH]; simpl; [done|].
  intros H. apply andb_true_iff in H as [-> H]. by rewrite IH.
Qed.

(** X9. When no structure is cached and a non-empty text is handed in,
    [parseSFC] does not read the file and calls the parser once on that
    text; when the parser reports errors a block of diagnostics is
    written. If every error has a location, the descriptor is answered
    and cached whether or not there are errors. If some error has none,
    the diagnostics stop at the first such error and the step is
    rejected with a [TypeError]; nothing is stored then, and every path
    of the cache still has the entry it had. *)
Theorem parseSFC_answers_unless_diagnostics_throw
        (tc : Toolchain) (root filename text : string) (w : World) :
  LRU.find filename (vueCache w) ≫= entry_descriptor = None ->
  text <> "" ->
  let r := parseSFC tc root filename (Some text) w in
  let parsed := compiler_parse tc root text filename in
  invoked r.2
  = invoked w ++ [invoke_parse root text filename]
    ++ match parsed.2 with
       | [] => []
       | _ :: _ => [diagnostics "[vite] SFC parse error: "
                                (reached parse_error_laid_out parsed.2)]
       end
  /\ (forallb parse_error_laid_out parsed.2 = true ->
      r.1 = inr (Some parsed.1)
      /\ reached parse_error_laid_out parsed.2 = parsed.2
      /\ LRU.find filename (vueCache r.2) ≫= entry_descriptor = Some parsed.1)
  /\ (forallb parse_error_laid_out parsed.2 = false ->
      r.1 = inl TypeError
      /\ forall path, LRU.find path (vueCache r.2) = LRU.find path (vueCache w)).
Proof.
  intros Hmiss Htext r parsed. unfold r, parsed, parseSFC.
  pose proof (LRU_get_find filename (vueCache w)) as Hfind.
  pose proof (fun p => LRU_find_get_any p filename (vueCache w)) as Hany.
  destruct (LRU.get filename (vueCache w)) as [cached cache].
  simpl in Hfind, Hany. subst cached. rewrite Hmiss.
  assert (truthy_string text = true) as ->.
  { unfold truthy_string. by apply negb_true_iff, String.eqb_neq. }
  cbn [fst snd]. destruct (compiler_parse tc root text filename) as [d errors].
  cbn [fst snd]. unfold report.
  destruct errors as [|e errors].
  { cbn [fst snd app forallb reached]. split; [done|]. split; [|done].
    intros _. split; [done|]. split; [done|].
    cbn [vueCache]. by rewrite vueCache_find_set. }
  set (l := e :: errors). cbn [fst snd app].
  destruct (forallb parse_error_laid_out l) eqn:Hall; cbn [fst snd].
  - split; [done|]. split; [|done]. intros _. split; [done|].
    split; [by apply reached_all|]. cbn [vueCache]. by rewrite vueCache_find_set.
  - split; [done|]. split; [done|]. intros _. split; [done|]. exact Hany.
Qed.

(** The theorem on compilers that report an error without a location:
    the step is rejected and the cache stays empty. *)
Lemma parseSFC_answers_unless_diagnostics_throw_witness :
  (parseSFC DemoSFC.faulty "/" "/abs/App.vue" (Some "<template/>")
     DemoSFC.empty_world).1 = inl TypeError
  /\ LRU.find "/abs/App.vue"
       (vueCache (parseSFC DemoSFC.faulty "/" "/abs/App.vue" (Some "<template/>")
                    DemoSFC.empty_world).2) = None
  /\ invoked (parseSFC DemoSFC.toolchain "/" "/abs/App.vue" (Some "<template/>")
                DemoSFC.empty_world).2
     = [invoke_parse "/" "<template/>" "/abs/App.vue"].
Proof.
  destruct (parseSFC_answers_unless_diagnostics_throw
              DemoSFC.faulty "/" "/abs/App.vue" "<template/>" DemoSFC.empty_world
              eq_refl) as (_ & _ & Hthrown); [discriminate|].
  destruct (Hthrown eq_refl) as [Hr Hcache].
  split; [exact Hr|]. split; [by rewrite Hcache|].
  destruct (parseSFC_answers_unless_diagnostics_throw
              DemoSFC.toolchain "/" "/abs/App.vue" "<template/>" DemoSFC.empty_world
              eq_refl) as (H & _); [discriminate|].
  rewrite H. reflexivity.
Defined.

(** What each step leaves under its path, sub-field by sub-field, when
    it answers, and that it leaves every entry as it was when it
    throws. *)
Lemma step_entries (tc : Toolchain) (w : World) (path : string) :
  let old := or_empty (LRU.find path (vueCache w)) in
  (forall root content d,
     (parseSFC tc root path content w).1 = inr (Some d) ->
     exists e',
       LRU.find path (vueCache (parseSFC tc root path content w).2) = Some e'
       /\ entry_descriptor e' = Some d
       /\ entry_template e' = entry_template old
       /\ entry_script e' = entry_script old
       /\ entry_styles e' = entry_styles old)
  /\ (forall descriptor publicPath,
        exists e',
          LRU.find path (vueCache (compileSFCMain tc descriptor path publicPath w).2)
          = Some e'
          /\ entry_descriptor e' = entry_descriptor old
          /\ entry_template e' = entry_template old
          /\ entry_styles e' = entry_styles old)
  /\ (forall root block publicPath flag code,
        (compileSFCTemplate tc root block path publicPath flag w).1 = inr code ->
        exists e',
          LRU.find path
            (vueCache (compileSFCTemplate tc root block path publicPath flag w).2)
          = Some e'
          /\ entry_descriptor e' = entry_descriptor old
          /\ entry_script e' = entry_script old
          /\ entry_styles e' = entry_styles old)
  /\ (forall root style index publicPath r,
        (compileSFCStyle tc root style index path publicPath w).1 = inr r ->
        exists e',
          LRU.find path
            (vueCache (compileSFCStyle tc root style index path publicPath w).2)
          = Some e'
          /\ entry_descriptor e' = entry_descriptor old
          /\ entry_template e' = entry_template old
          /\ entry_script e' = entry_script old
          /\ forall j, j <> index ->
               array_get j (entry_styles e') = array_get j (entry_styles old))
  /\ (forall root err other,
        (forall content,
           (parseSFC tc root path content w).1 = inl err ->
           LRU.find other (vueCache (parseSFC tc root path content w).2)
           = LRU.find other (vueCache w))
        /\ (forall block publicPath flag,
              (compileSFCTemplate tc root block path publicPath flag w).1 = inl err ->
              LRU.find other
                (vueCache (compileSFCTemplate tc root block path publicPath flag w).2)
              = LRU.find other (vueCache w))
        /\ (forall style index publicPath,
              (compileSFCStyle tc root style index path publicPath w).1 = inl err ->
              LRU.find other
                (vueCache (compileSFCStyle tc root style index path publicPath w).2)
              = LRU.find other (vueCache w))).
Proof.
  intros old. split; [|split; [|split; [|split]]].
  - intros root content d Hd.
    destruct (parseSFC_cache tc root path content w) as (stored & Hstep & Hfields).
    apply cache_step_find in Hstep. rewrite Hstep.
    destruct stored as [e'|].
    + exists e'. destruct (Hfields e' eq_refl) as (H1 & H2 & H3 & H4).
      rewrite Hd in H1. injection H1 as H1. done.
    + destruct (parseSFC_stores tc root path content w d Hd) as (e & Hf & He).
      rewrite Hstep in Hf. exists e. rewrite Hf. unfold old. rewrite Hf.
      done.
  - intros descriptor publicPath.
    destruct (compileSFCMain_cache tc descriptor path publicPath w)
      as (stored & Hstep & Hfields).
    apply cache_step_find in Hstep. rewrite Hstep.
    destruct stored as [e'|].
    + exists e'. destruct (Hfields e' eq_refl) as (H1 & H2 & H3 & H4). done.
    + destruct (compileSFCMain_stores tc descriptor path publicPath w)
        as (e & Hf & _).
      rewrite Hstep in Hf. exists e. unfold old. rewrite Hf. done.
  - intros root block publicPath flag code Hcode.
    destruct (compileSFCTemplate_cache tc root block path publicPath flag w)
      as (stored & Hstep & Hfields).
    apply cache_step_find in Hstep. rewrite Hstep.
    destruct stored as [e'|].
    + exists e'. destruct (Hfields e' eq_refl) as (H1 & H2 & H3 & H4). done.
    + destruct (compileSFCTemplate_stores tc root block path publicPath flag w
                  code Hcode) as (e & Hf & _).
      rewrite Hstep in Hf. exists e. unfold old. rewrite Hf. done.
  - intros root style index publicPath r Hr.
    destruct (compileSFCStyle_cache tc root style index path publicPath w)
      as (stored & Hstep & Hfields).
    apply cache_step_find in Hstep. rewrite Hstep.
    destruct stored as [e'|].
    + exists e'. destruct (Hfields e' eq_refl) as (H1 & H2 & H3 & r' & _ & H4).
      rewrite H4. repeat (split; [done|]).
      intros j Hj. apply array_get_set_ne. congruence.
    + destruct (compileSFCStyle_stores tc root style index path publicPath w r Hr)
        as (e & Hf & _).
      rewrite Hstep in Hf. exists e. unfold old. rewrite Hf. done.
  - intros root err other. split; [|split].
    + intros content H. apply parseSFC_thrown in H as [_ ->].
      apply LRU_find_get_any.
    + intros block publicPath flag H.
      apply compileSFCTemplate_thrown in H as [_ ->]. apply LRU_find_get_any.
    + intros style index publicPath H.
      apply compileSFCStyle_thrown in H as [_ ->]. apply LRU_find_get_any.
Qed.

(** X10. The steps fill one entry side by side: whatever a step stores
    under its path keeps the other sub-fields of the entry that was there
    (or of an empty entry). The structure step changes the descriptor
    only, the behaviour step the script only, the view step the template
    only, and the style step one slot of the styles only: every other
    slot reads as before. The structure, view and style steps store when
    they answer; when one of them throws (its diagnostics read a
    location or a source that is missing), every path of the cache has
    the entry it had. *)
Theorem steps_keep_the_other_artifacts (tc : Toolchain) (w : World) (path : string) :
  let old := or_empty (LRU.find path (vueCache w)) in
  (forall root content d,
     (parseSFC tc root path content w).1 = inr (Some d) ->
     exists e',
       LRU.find path (vueCache (parseSFC tc root path content w).2) = Some e'
       /\ entry_descriptor e' = Some d
       /\ entry_template e' = entry_template old
       /\ entry_script e' = entry_script old
       /\ entry_styles e' = entry_styles old)
  /\ (forall descriptor publicPath,
        exists e',
          LRU.find path (vueCache (compileSFCMain tc descriptor path publicPath w).2)
          = Some e'
          /\ entry_descriptor e' = entry_descriptor old
          /\ entry_template e' = entry_template old
          /\ entry_styles e' = entry_styles old)
  /\ (forall root block publicPath flag code,
        (compileSFCTemplate tc root block path publicPath flag w).1 = inr code ->
        exists e',
          LRU.find path
            (vueCache (compileSFCTemplate tc root block path publicPath flag w).2)
          = Some e'
          /\ entry_descriptor e' = entry_descriptor old
          /\ entry_script e' = entry_script old
          /\ entry_styles e' = entry_styles old)
  /\ (forall root style index publicPath r,
        (compileSFCStyle tc root style index path publicPath w).1 = inr r ->
        exists e',
          LRU.find path
            (vueCache (compileSFCStyle tc root style index path publicPath w).2)
          = Some e'
          /\ entry_descriptor e' = entry_descriptor old
          /\ entry_template e' = entry_template old
          /\ entry_script e' = entry_script old
          /\ forall j, j <> index ->
               array_get j (entry_styles e') = array_get j (entry_styles old))
  /\ (forall root err other,
        (forall content,
           (parseSFC tc root path content w).1 = inl err ->
           LRU.find other (vueCache (parseSFC tc root path content w).2)
           = LRU.find other (vueCache w))
        /\ (forall block publicPath flag,
              (compileSFCTemplate tc root block path publicPath flag w).1 = inl err ->
              LRU.find other
                (vueCache (compileSFCTemplate tc root block path publicPath flag w).2)
              = LRU.find other (vueCache w))
        /\ (forall style index publicPath,
              (compileSFCStyle tc root style index path publicPath w).1 = inl err ->
              LRU.find other
                (vueCache (compileSFCStyle tc root style index path publicPath w).2)
              = LRU.find other (vueCache w))).
Proof. exact (step_entries tc w path). Qed.

(** The theorem on a fresh entry: a style compiled at index 2 leaves
    slot 0 empty and stores no behaviour code; and a view step that
    throws stores no entry at all. *)
Lemma steps_keep_the_other_artifacts_witness :
  (exists e',
     LRU.find "/abs/App.vue"
       (vueCache (compileSFCStyle DemoSFC.toolchain "/" DemoSFC.theme_style 2
                    "/abs/App.vue" "/App.vue" DemoSFC.empty_world).2) = Some e'
     /\ entry_script e' = None
     /\ array_get 0 (entry_styles e') = None)
  /\ LRU.find "/abs/App.vue"
       (vueCache (compileSFCTemplate DemoSFC.faulty "/" (mkBlock "<div/>" None None)
                    "/abs/App.vue" "/App.vue" false DemoSFC.empty_world).2) = None.
Proof.
  split.
  - destruct (steps_keep_the_other_artifacts DemoSFC.toolchain DemoSFC.empty_world
                "/abs/App.vue") as (_ & _ & _ & Hstyle & _).
    destruct (Hstyle "/" DemoSFC.theme_style 2 "/App.vue"
                     (mkStyleResults ".a { color: red }" None []) eq_refl)
      as (e' & Hf & _ & _ & Hs & Hslots).
    exists e'. split; [exact Hf|]. split; [exact Hs|].
    rewrite (Hslots 0); [reflexivity|lia].
  - destruct (steps_keep_the_other_artifacts DemoSFC.faulty DemoSFC.empty_world
                "/abs/App.vue") as (_ & _ & _ & _ & Hthrown).
    destruct (Hthrown "/" TypeError "/abs/App.vue") as (_ & Hview & _).
    by rewrite (Hview (mkBlock "<div/>" None None) "/App.vue" false eq_refl).
Defined.

(** X11. Once the behaviour code, the view and a style block of a file
    have been compiled, in this order and from any state of the cache,
    and the view step and the style step have answered (the view a text
    that is not empty), compiling any of the three again calls no
    compiler and answers what the first run answered. The later steps do
    not undo the earlier ones. *)
Theorem compiled_file_is_served_from_cache
        (tc : Toolchain) (root path publicPath : string) (descriptor : SFCDescriptor)
        (block : SFCBlock) (flag : bool) (style : SFCStyleBlock) (index : nat)
        (w : World) (code : string) (r : SFCStyleCompileResults) :
  let main := compileSFCMain tc descriptor path publicPath w in
  let view := compileSFCTemplate tc root block path publicPath flag main.2 in
  let sheet := compileSFCStyle tc root style index path publicPath view.2 in
  view.1 = inr code ->
  code <> "" ->
  sheet.1 = inr r ->
  (compileSFCMain tc descriptor path publicPath sheet.2).1 = main.1
  /\ invoked (compileSFCMain tc descriptor path publicPath sheet.2).2 = invoked sheet.2
  /\ (compileSFCTemplate tc root block path publicPath flag sheet.2).1 = view.1
  /\ invoked (compileSFCTemplate tc root block path publicPath flag sheet.2).2
     = invoked sheet.2
  /\ (compileSFCStyle tc root style index path publicPath sheet.2).1 = sheet.1
  /\ invoked (compileSFCStyle tc root style index path publicPath sheet.2).2
     = invoked sheet.2.
Proof.
  intros main view sheet Hview Hcode Hsheet.
  (* what the behaviour step left *)
  destruct (compileSFCMain_stores tc descriptor path publicPath w)
    as (e1 & Hf1 & Hs1 & Ht1). fold main in Hf1, Hs1, Ht1.
  (* what the view step left *)
  destruct (compileSFCTemplate_stores tc root block path publicPath flag main.2
              code Hview) as (e2 & Hf2 & Hv2). fold view in Hf2.
  destruct (step_entries tc main.2 path) as (_ & _ & Hkeep2 & _).
  destruct (Hkeep2 root block publicPath flag code Hview)
    as (e2' & Hf2' & _ & Hscript2 & _).
  fold view in Hf2'. rewrite Hf2 in Hf2'. injection Hf2' as <-.
  rewrite Hf1 in Hscript2. simpl in Hscript2.
  (* what the style step left *)
  destruct (compileSFCStyle_stores tc root style index path publicPath view.2
              r Hsheet) as (e3 & Hf3 & Hs3). fold sheet in Hf3.
  destruct (step_entries tc view.2 path) as (_ & _ & _ & Hkeep3 & _).
  destruct (Hkeep3 root style index publicPath r Hsheet)
    as (e3' & Hf3' & _ & Htemplate3 & Hscript3 & _).
  fold sheet in Hf3'. rewrite Hf3 in Hf3'. injection Hf3' as <-.
  rewrite Hf2 in Htemplate3, Hscript3. simpl in Htemplate3, Hscript3.
  assert (Htruthy : truthy_string code = true).
  { unfold truthy_string. by apply negb_true_iff, String.eqb_neq. }
  rewrite (truthy_text_some _ Htruthy) in Hv2.
  destruct (entry_template e2) as [code'|] eqn:Hc; [|discriminate].
  simpl in Hv2. destruct (truthy_string code') eqn:Ht; [|discriminate].
  injection Hv2 as ->.
  rewrite Hscript2, Hs1 in Hscript3.
  destruct (compileSFCMain_hit tc descriptor path publicPath sheet.2 e3 main.1
              Hf3 Hscript3 Ht1) as [H1 H2].
  destruct (compileSFCTemplate_hit tc root block path publicPath flag sheet.2 e3 code
              Hf3 Htemplate3 Ht) as [H3 H4].
  destruct (compileSFCStyle_hit tc root style index path publicPath sheet.2 e3 r
              Hf3 Hs3) as [H5 H6].
  rewrite Hview, Hsheet. done.
Qed.

(** The theorem on the demo toolchain: three compilers run, and a second
    request for the behaviour code runs none. *)
Lemma compiled_file_is_served_from_cache_witness :
  invoked
    (compileSFCMain DemoSFC.toolchain (DemoSFC.descriptor_of [DemoSFC.theme_style])
       "/abs/App.vue" "/App.vue"
       (compileSFCStyle DemoSFC.toolchain "/" DemoSFC.theme_style 0
          "/abs/App.vue" "/App.vue"
          (compileSFCTemplate DemoSFC.toolchain "/" (mkBlock "<div/>" None None)
             "/abs/App.vue" "/App.vue" false
             (compileSFCMain DemoSFC.toolchain
                (DemoSFC.descriptor_of [DemoSFC.theme_style])
                "/abs/App.vue" "/App.vue" DemoSFC.empty_world).2).2).2).2
  = [invoke_compileTemplate "/" "<div/>" "/abs/App.vue" None;
     invoke_compileStyleAsync "/" ".a { color: red }" "/abs/App.vue" "data-v-h8"
                              false true].
Proof.
  destruct (compiled_file_is_served_from_cache
              DemoSFC.toolchain "/" "/abs/App.vue" "/App.vue"
              (DemoSFC.descriptor_of [DemoSFC.theme_style])
              (mkBlock "<div/>" None None) false DemoSFC.theme_style 0
              DemoSFC.empty_world "export function render() {}"
              (mkStyleResults ".a { color: red }" None []))
    as (_ & H & _).
  - vm_compute. reflexivity.
  - discriminate.
  - vm_compute. reflexivity.
  - rewrite H. vm_compute. reflexivity.
Defined.

(** X12. The steps keep the cache in shape: if it holds at most 65535
    entries and at most one for a path, it still does after any step. *)
Theorem steps_keep_the_cache_bounded (tc : Toolchain) (w : World) :
  well_kept vueCache_max (vueCache w) ->
  (forall root filename content,
     well_kept vueCache_max (vueCache (parseSFC tc root filename content w).2))
  /\ (forall descriptor filePath publicPath,
        well_kept vueCache_max
          (vueCache (compileSFCMain tc descriptor filePath publicPath w).2))
  /\ (forall root block filename publicPath flag,
        well_kept vueCache_max
          (vueCache (compileSFCTemplate tc root block filename publicPath flag w).2))
  /\ (forall root style index filename publicPath,
        well_kept vueCache_max
          (vueCache (compileSFCStyle tc root style index filename publicPath w).2)).
Proof.
  intros Hw. split; [|split; [|split]].
  - intros root filename content.
    destruct (parseSFC_cache tc root filename content w) as (stored & Hstep & _).
    by eapply cache_step_well_kept.
  - intros descriptor filePath publicPath.
    destruct (compileSFCMain_cache tc descriptor filePath publicPath w)
      as (stored & Hstep & _).
    by eapply cache_step_well_kept.
  - intros root block filename publicPath flag.
    destruct (compileSFCTemplate_cache tc root block filename publicPath flag w)
      as (stored & Hstep & _).
    by eapply cache_step_well_kept.
  - intros root style index filename publicPath.
    destruct (compileSFCStyle_cache tc root style index filename publicPath w)
      as (stored & Hstep & _).
    by eapply cache_step_well_kept.
Qed.

Lemma empty_cache_well_kept : well_kept vueCache_max (vueCache DemoSFC.empty_world).
Proof. split; simpl; [lia|constructor]. Qed.

(** The theorem from the empty cache. *)
Lemma steps_keep_the_cache_bounded_witness :
  well_kept vueCache_max
    (vueCache (compileSFCMain DemoSFC.toolchain (DemoSFC.descriptor_of [])
                 "/abs/App.vue" "/App.vue" DemoSFC.empty_world).2).
Proof.
  exact (proj1 (proj2 (steps_keep_the_cache_bounded DemoSFC.toolchain
                         DemoSFC.empty_world empty_cache_well_kept))
               (DemoSFC.descriptor_of []) "/abs/App.vue" "/App.vue").
Defined.

Lemma vueCache_max_value : vueCache_max = N.to_nat 65535.
Proof. reflexivity. Qed.

(** X13. While the cache has room (fewer than 65535 entries), a step on
    one path leaves the entry of every other path as it is. *)
Theorem steps_leave_other_files_alone (tc : Toolchain) (w : World) (other : string) :
  length (vueCache w) < vueCache_max ->
  (forall root filename content,
     other <> filename ->
     LRU.find other (vueCache (parseSFC tc root filename content w).2)
     = LRU.find other (vueCache w))
  /\ (forall descriptor filePath publicPath,
        other <> filePath ->
        LRU.find other (vueCache (compileSFCMain tc descriptor filePath publicPath w).2)
        = LRU.find other (vueCache w))
  /\ (forall root block filename publicPath flag,
        other <> filename ->
        LRU.find other
          (vueCache (compileSFCTemplate tc root block filename publicPath flag w).2)
        = LRU.find other (vueCache w))
  /\ (forall root style index filename publicPath,
        other <> filename ->
        LRU.find other
          (vueCache (compileSFCStyle tc root style index filename publicPath w).2)
        = LRU.find other (vueCache w)).
Proof.
  intros Hroom. split; [|split; [|split]].
  - intros root filename content Hne.
    destruct (parseSFC_cache tc root filename content w) as (stored & Hstep & _).
    by eapply cache_step_other.
  - intros descriptor filePath publicPath Hne.
    destruct (compileSFCMain_cache tc descriptor filePath publicPath w)
      as (stored & Hstep & _).
    by eapply cache_step_other.
  - intros root block filename publicPath flag Hne.
    destruct (compileSFCTemplate_cache tc root block filename publicPath flag w)
      as (stored & Hstep & _).
    by eapply cache_step_other.
  - intros root style index filename publicPath Hne.
    destruct (compileSFCStyle_cache tc root style index filename publicPath w)
      as (stored & Hstep & _).
    by eapply cache_step_other.
Qed.

(** The theorem after one file has been compiled: compiling a second
    file keeps the first file's behaviour code. *)
Lemma steps_leave_other_files_alone_witness :
  LRU.find "/abs/App.vue"
    (vueCache
       (compileSFCMain DemoSFC.toolchain (DemoSFC.descriptor_of [])
          "/abs/Other.vue" "/Other.vue"
          (compileSFCMain DemoSFC.toolchain (DemoSFC.descriptor_of [])
             "/abs/App.vue" "/App.vue" DemoSFC.empty_world).2).2)
  = LRU.find "/abs/App.vue"
      (vueCache (compileSFCMain DemoSFC.toolchain (DemoSFC.descriptor_of [])
                   "/abs/App.vue" "/App.vue" DemoSFC.empty_world).2).
Proof.
  refine (proj1 (proj2 (steps_leave_other_files_alone DemoSFC.toolchain _
                          "/abs/App.vue" _)) _ _ _ _).
  - rewrite vueCache_max_value. apply (Nat.lt_le_trans _ 2); [vm_compute; lia|lia].
  - discriminate.
Defined.

(** ** More facts about the style wiring *)

Section MoreWiring.
Variable tc : Toolchain.
Variables id publicPath : string.

(** The fragments are told apart by how they begin. *)
Lemma declaration_distinct i name :
  cssModules_declaration <> updateStyle_import tc
  /\ cssModules_declaration <> updateStyle_call id publicPath i
  /\ cssModules_declaration <> style_import publicPath i
  /\ cssModules_declaration <> cssModules_assignment name i
  /\ cssModules_declaration <> scopeId_assignment id.
Proof. repeat split; discriminate. Qed.

Lemma assignment_distinct i j name :
  cssModules_assignment name i <> updateStyle_import tc
  /\ cssModules_assignment name i <> updateStyle_call id publicPath j
  /\ cssModules_assignment name i <> style_import publicPath j
  /\ cssModules_assignment name i <> cssModules_declaration
  /\ cssModules_assignment name i <> scopeId_assignment id.
Proof. repeat split; discriminate. Qed.

Lemma scopeId_distinct i name :
  scopeId_assignment id <> updateStyle_import tc
  /\ scopeId_assignment id <> updateStyle_call id publicPath i
  /\ scopeId_assignment id <> style_import publicPath i
  /\ scopeId_assignment id <> cssModules_assignment name i
  /\ scopeId_assignment id <> cssModules_declaration.
Proof. repeat split; discriminate. Qed.

(** What one pass of the loop appends. *)
Lemma style_step_appends st i s :
  exists added,
    emitted (style_step id publicPath st i s) = emitted st ++ added
    /\ added
       = (if truthy_module (module s)
          then (if hasCSSModules st then [] else [cssModules_declaration])
               ++ [style_import publicPath i;
                   cssModules_assignment (moduleName s) i]
          else [])
         ++ [updateStyle_call id publicPath i]
    /\ hasCSSModules (style_step id publicPath st i s)
       = hasCSSModules st || truthy_module (module s).
Proof.
  unfold style_step. destruct (truthy_module (module s)); simpl.
  - destruct (hasCSSModules st); simpl; eexists; (split; [|split; [reflexivity|done]]);
      by rewrite <- ?app_assoc.
  - eexists. split; [reflexivity|]. split; [done|]. by rewrite orb_false_r.
Qed.

Lemma count_occ_one (l : list string) (x : string) :
  0 < count_occ string_dec l x -> exists m, l !! m = Some x.
Proof.
  intros H. apply count_occ_In in H. apply list_elem_of_In in H.
  by apply list_elem_of_lookup in H.
Qed.

Lemma style_step_wired st i s :
  wired (emitted st) (hasCSSModules st) ->
  wired (emitted (style_step id publicPath st i s))
        (hasCSSModules (style_step id publicPath st i s)).
Proof.
  intros [Hcount Huse].
  destruct (style_step_appends st i s) as (added & -> & Hadded & ->).
  destruct (declaration_distinct i (moduleName s)) as (_ & D2 & D3 & D4 & _).
  split.
  - rewrite count_occ_app, Hcount, Hadded.
    destruct (truthy_module (module s)), (hasCSSModules st); simpl;
      repeat (destruct (string_dec _ _); try congruence); reflexivity.
  - intros n name j Hn.
    apply lookup_app_Some in Hn as [Hn|[Hlen Hn]].
    + destruct (Huse n name j Hn) as (m & Hm & Hdecl). exists m. split; [done|].
      by apply lookup_app_l_Some.
    + destruct (assignment_distinct j i name) as (_ & A2 & A3 & A4 & _).
      rewrite Hadded in Hn.
      destruct (truthy_module (module s)) eqn:Hmod; simpl in Hn.
      * destruct (hasCSSModules st) eqn:Hflag; simpl in Hn.
        -- destruct (count_occ_one (emitted st) cssModules_declaration) as [m Hm];
             [rewrite Hcount; lia|].
           exists m. split; [|by apply lookup_app_l_Some].
           apply lookup_lt_Some in Hm. lia.
        -- exists (length (emitted st)). split.
           ++ destruct (n - length (emitted st)) as [|k] eqn:Hk; [|lia].
              simpl in Hn. injection Hn as Hn. congruence.
           ++ rewrite lookup_app_r by lia. rewrite Hadded, Nat.sub_diag. reflexivity.
      * destruct (n - length (emitted st)) as [|k]; simpl in Hn; [|by destruct k].
        injection Hn as Hn. congruence.
Qed.

Lemma style_loop_wired l : forall st i,
  wired (emitted st) (hasCSSModules st) ->
  wired (emitted (style_loop id publicPath st i l))
        (hasCSSModules (style_loop id publicPath st i l)).
Proof.
  induction l as [|s l IH]; intros st i H; simpl; [done|].
  by apply IH, style_step_wired.
Qed.

Lemma style_loop_hasCSSModules l : forall st i,
  hasCSSModules (style_loop id publicPath st i l)
  = hasCSSModules st || existsb (fun s => truthy_module (module s)) l.
Proof.
  induction l as [|s l IH]; intros st i; simpl; [by rewrite orb_false_r|].
  rewrite IH. destruct (style_step_appends st i s) as (_ & _ & _ & ->).
  by rewrite orb_assoc.
Qed.

Lemma style_loop_registers l : forall st i j s,
  l !! j = Some s ->
  In (updateStyle_call id publicPath (i + j))
     (emitted (style_loop id publicPath st i l)).
Proof.
  induction l as [|s0 l IH]; intros st i j s Hj; [discriminate|].
  destruct j as [|j]; simpl.
  - rewrite Nat.add_0_r. apply style_loop_keeps.
    destruct (style_step_appends st i s0) as (added & -> & -> & _).
    rewrite !in_app_iff. right. right. by left.
  - replace (i + S j) with (S i + j) by lia. by eapply IH.
Qed.

(** No pass of the loop appends the assignment of [__scopeId]. *)
Lemma style_loop_no_scopeId l : forall st i,
  ~ In (scopeId_assignment id) (emitted st) ->
  ~ In (scopeId_assignment id) (emitted (style_loop id publicPath st i l)).
Proof.
  induction l as [|s l IH]; intros st i H; simpl; [done|].
  apply IH. intros Hin.
  apply style_step_emitted in Hin as [Hin|[Heq|(_ & [Heq|[Heq|Heq]])]]; [done| | | |];
    destruct (scopeId_distinct i (moduleName s)) as (_ & S2 & S3 & S4 & S5);
    congruence.
Qed.

End MoreWiring.

(** ** Further properties of the generated behaviour code *)


(** X15. The assignment of [__scopeId] is the last fragment of the style
    wiring when some style block is scoped, and it occurs nowhere else;
    when no style block is scoped it does not occur at all. *)
Theorem scopeId_assigned_iff_scoped
        (tc : Toolchain) (descriptor : SFCDescriptor) (publicPath : string) :
  let wiring := style_wiring tc descriptor publicPath in
  let assignment := scopeId_assignment (hash_sum tc publicPath) in
  (existsb (fun s => truthy_flag (scoped s)) (styles descriptor) = true ->
   exists front, wiring = front ++ [assignment] /\ ~ In assignment front)
  /\ (existsb (fun s => truthy_flag (scoped s)) (styles descriptor) = false ->
      ~ In assignment wiring).
Proof.
  intros wiring assignment. unfold wiring, assignment, style_wiring.
  set (id := hash_sum tc publicPath).
  set (start := mkWiring [updateStyle_import tc] false false).
  assert (Hnone : ~ In (scopeId_assignment id)
                    (emitted (style_loop id publicPath start 0 (styles descriptor)))).
  { apply (style_loop_no_scopeId tc). simpl. intros [E|[]]. discriminate E. }
  rewrite style_loop_hasScoped. simpl.
  split; intros ->; [eauto|done].
Qed.

(** X16. The style wiring starts with the import of [updateStyle], also
    for a file with no style block, and it registers every style block,
    whatever its attributes, with a call of [updateStyle] for its index. *)
Theorem every_style_block_is_registered
        (tc : Toolchain) (descriptor : SFCDescriptor) (publicPath : string) :
  let wiring := style_wiring tc descriptor publicPath in
  wiring !! 0 = Some (updateStyle_import tc)
  /\ forall i s,
       styles descriptor !! i = Some s ->
       In (updateStyle_call (hash_sum tc publicPath) publicPath i) wiring.
Proof.
  intros wiring. unfold wiring, style_wiring.
  set (id := hash_sum tc publicPath).
  set (start := mkWiring [updateStyle_import tc] false false).
  split.
  - assert (H : In (updateStyle_import tc) (emitted start)) by (by left).
    assert (Hhead : forall l st i,
              emitted st !! 0 = Some (updateStyle_import tc) ->
              emitted (style_loop id publicPath st i l) !! 0
              = Some (updateStyle_import tc)).
    { induction l as [|s l IH]; intros st i Hst; simpl; [done|].
      apply IH. destruct (style_step_appends id publicPath st i s)
        as (added & -> & _). by apply lookup_app_l_Some. }
    specialize (Hhead (styles descriptor) start 0 eq_refl).
    destruct (hasScoped _); [by apply lookup_app_l_Some|done].
  - intros i s Hi.
    pose proof (style_loop_registers id publicPath (styles descriptor) start 0 i s Hi)
      as H. simpl in H.
    destruct (hasScoped _); rewrite ?in_app_iff; auto.
Qed.

(** The theorem on a file with three style blocks. *)
Lemma every_style_block_is_registered_witness :
  In (updateStyle_call "h8" "/App.vue" 2)
     (style_wiring DemoSFC.toolchain
        (DemoSFC.descriptor_of
           [DemoSFC.plain_style; DemoSFC.scoped_style; DemoSFC.theme_style])
        "/App.vue").
Proof.
  exact (proj2 (every_style_block_is_registered DemoSFC.toolchain
                  (DemoSFC.descriptor_of
                     [DemoSFC.plain_style; DemoSFC.scoped_style; DemoSFC.theme_style])
                  "/App.vue") 2 DemoSFC.theme_style eq_refl).
Defined.


(** The theorem on a file with a scoped style block followed by a plain
    one. *)
Lemma scopeId_assigned_iff_scoped_witness :
  exists front,
    style_wiring DemoSFC.toolchain
      (DemoSFC.descriptor_of [DemoSFC.scoped_style; DemoSFC.plain_style]) "/App.vue"
    = front ++ [scopeId_assignment "h8"].
Proof.
  destruct (proj1 (scopeId_assigned_iff_scoped DemoSFC.toolchain
                     (DemoSFC.descriptor_of [DemoSFC.scoped_style; DemoSFC.plain_style])
                     "/App.vue") eq_refl) as (front & H & _).
  exists front. exact H.
Defined.

(** ** The behaviour block and the scope id *)

Section TextFacts.

Lemma replace_first_unfold p r s :
  replace_first p r s
  = match strip_prefix p s with
    | Some rest => r +:+ rest
    | None => match s with
              | EmptyString => EmptyString
              | String c s' => String c (replace_first p r s')
              end
    end.
Proof. by destruct s. Qed.

(** A text without the pattern is left as it is. *)
Lemma replace_first_absent p r s :
  ~ occurs_in p s -> replace_first p r s = s.
Proof.
  induction s as [|c s IH]; intros H; rewrite replace_first_unfold.
  - destruct (strip_prefix p "") as [rest|] eqn:E; [|done].
    apply strip_prefix_append in E. destruct H. by exists "", rest.
  - destruct (strip_prefix p (String c s)) as [rest|] eqn:E.
    + apply strip_prefix_append in E. destruct H. by exists "", rest.
    + f_equal. apply IH. intros (a & b & ->). apply H.
      by exists (String c a), b.
Qed.

(** The occurrence that no other one starts before is the one
    replaced. *)
Lemma replace_first_at p r b : forall a,
  (forall a' b', a +:+ p +:+ b = a' +:+ p +:+ b' ->
                 String.length a <= String.length a') ->
  replace_first p r (a +:+ p +:+ b) = a +:+ r +:+ b.
Proof.
  induction a as [|c a IH]; intros H; rewrite replace_first_unfold.
  - change ("" +:+ p +:+ b) with (p +:+ b).
    by rewrite (proj2 (strip_prefix_append p (p +:+ b) b) eq_refl).
  - destruct (strip_prefix p (String c a +:+ p +:+ b)) as [rest|] eqn:E.
    + apply strip_prefix_append in E.
      specialize (H "" rest E). simpl in H. lia.
    + rewrite !append_cons. f_equal. apply IH. intros a' b' Heq.
      specialize (H (String c a') b'). rewrite !append_cons, Heq in H.
      specialize (H eq_refl). simpl in H. lia.
Qed.

End TextFacts.

(** X17. Of the text of the behaviour block (what the compiler answers
    for it when its language is [ts], its content otherwise) the first
    [export default] becomes [const __script =] and nothing else
    changes; a text without [export default] is taken over as it is. *)
Theorem first_default_export_becomes_script
        (tc : Toolchain) (descriptor : SFCDescriptor) (publicPath : string)
        (s : SFCBlock) :
  script descriptor = Some s ->
  let text := if bool_decide (lang s = Some "ts")
              then (transform tc (content s) publicPath "ts").1
              else content s in
  let code := (script_code tc descriptor publicPath).1 in
  (~ occurs_in "export default" text -> code = text)
  /\ (forall before after,
        text = before +:+ "export default" +:+ after ->
        (forall before' after',
            text = before' +:+ "export default" +:+ after' ->
            String.length before <= String.length before') ->
        code = before +:+ "const __script =" +:+ after).
Proof.
  intros Hs text code. unfold code, script_code. rewrite Hs.
  fold text.
  assert (Hcode : (let '(content, calls) :=
                     if bool_decide (lang s = Some "ts")
                     then ((transform tc (content s) publicPath "ts").1,
                           [invoke_transform (content s) publicPath "ts"])
                     else (content s, []) in
                   (replace_first "export default" "const __script =" content,
                    calls)).1
                  = replace_first "export default" "const __script =" text).
  { unfold text. by destruct (bool_decide _). }
  rewrite Hcode. split.
  - apply replace_first_absent.
  - intros before after Heq Hfirst. rewrite Heq.
    apply replace_first_at. intros a' b' H. apply (Hfirst a' b'). by rewrite Heq.
Qed.

(** The theorem on a behaviour block with two default exports: the
    second one stays. *)
Lemma first_default_export_becomes_script_witness :
  (script_code DemoSFC.toolchain
     (mkDescriptor
        (Some (mkBlock ("export default {}" +:+ nl +:+ "export default 1") None None))
        None [])
     "/App.vue").1
  = "" +:+ "const __script =" +:+ (" {}" +:+ nl +:+ "export default 1").
Proof.
  refine (proj2 (first_default_export_becomes_script DemoSFC.toolchain
                   (mkDescriptor
                      (Some (mkBlock ("export default {}" +:+ nl +:+ "export default 1")
                                     None None))
                      None [])
                   "/App.vue" _ eq_refl)
                "" (" {}" +:+ nl +:+ "export default 1") eq_refl _).
  intros before' after' _. simpl. lia.
Defined.

(** X18. One scope id for a file: when its artifacts are not in the
    cache and a style block is scoped, the main module assigns
    [data-v-] followed by the hash of the public path to [__scopeId],
    and that same id is what the view compiler and the style compiler
    are called with. *)
Theorem scope_id_is_shared
        (tc : Toolchain) (root filePath publicPath : string)
        (descriptor : SFCDescriptor) (view : SFCBlock)
        (index : nat) (s : SFCStyleBlock) (w1 w2 w3 : World) :
  styles descriptor !! index = Some s ->
  truthy_flag (scoped s) = true ->
  truthy_text (LRU.find filePath (vueCache w1) ≫= entry_script) = None ->
  truthy_text (LRU.find filePath (vueCache w2) ≫= entry_template) = None ->
  LRU.find filePath (vueCache w3)
    ≫= (fun e => array_get index (entry_styles e)) = None ->
  let scopeId := "data-v-" +:+ hash_sum tc publicPath in
  occurs_in (scopeId_assignment (hash_sum tc publicPath))
            (compileSFCMain tc descriptor filePath publicPath w1).1
  /\ In (invoke_compileTemplate root (content view) filePath (Some scopeId))
        (invoked (compileSFCTemplate tc root view filePath publicPath true w2).2)
  /\ In (invoke_compileStyleAsync root (style_content s) filePath scopeId true
                                  (bool_decide (is_Some (module s))))
        (invoked (compileSFCStyle tc root s index filePath publicPath w3).2).
Proof.
  intros Hi Hscoped H1 H2 H3 scopeId. repeat split.
  - unfold compileSFCMain.
    pose proof (LRU_get_find filePath (vueCache w1)) as Hfind.
    destruct (LRU.get filePath (vueCache w1)) as [cached cache]. simpl in Hfind.
    rewrite Hfind, H1. cbn [fst].
    apply occurs_in_join. unfold fragments. rewrite !in_app_iff. right. left.
    unfold style_wiring.
    rewrite style_loop_hasScoped. cbn [hasScoped orb].
    assert (E : existsb (fun s => truthy_flag (scoped s)) (styles descriptor) = true).
    { apply existsb_exists. exists s. split; [|done].
      apply list_elem_of_In. by eapply list_elem_of_lookup_2. }
    rewrite E. rewrite in_app_iff. right. by left.
  - unfold compileSFCTemplate.
    pose proof (LRU_get_find filePath (vueCache w2)) as Hfind.
    destruct (LRU.get filePath (vueCache w2)) as [cached cache]. simpl in Hfind.
    rewrite Hfind, H2.
    destruct (compileTemplate tc _ _ _ _ _ _ _) as [[code map] errors].
    destruct (report _ _ errors) as [printed []];
      cbn [fst snd invoked]; rewrite !in_app_iff; right; left; by left.
  - unfold compileSFCStyle.
    pose proof (LRU_get_find filePath (vueCache w3)) as Hfind.
    destruct (LRU.get filePath (vueCache w3)) as [cached cache]. simpl in Hfind.
    rewrite Hfind, H3.
    assert (E : bool_decide (is_Some (scoped s)) = true).
    { apply bool_decide_eq_true. destruct (scoped s); [by eexists|discriminate]. }
    rewrite E.
    destruct (report _ _ _) as [printed []];
      cbn [fst snd invoked]; rewrite !in_app_iff; right; left; by left.
Qed.

(** The theorem on a file with a plain and a scoped style block, nothing
    of it compiled yet. *)
Lemma scope_id_is_shared_witness :
  In (invoke_compileStyleAsync "/root" "a { color: red }" "/src/App.vue"
                               "data-v-h8" true false)
     (invoked (compileSFCStyle DemoSFC.toolchain "/root" DemoSFC.scoped_style 1
                               "/src/App.vue" "/App.vue" DemoSFC.empty_world).2).
Proof.
  exact (proj2 (proj2 (scope_id_is_shared DemoSFC.toolchain "/root" "/src/App.vue"
      "/App.vue" (DemoSFC.descriptor_of [DemoSFC.plain_style; DemoSFC.scoped_style])
      (mkBlock "<div/>" None None) 1 DemoSFC.scoped_style
      DemoSFC.empty_world DemoSFC.empty_world DemoSFC.empty_world
      eq_refl eq_refl eq_refl eq_refl eq_refl))).
Defined.

(** ** The registry of [vite/transformers.ts] under [parse] *)

(** Each of the five entries calls the compiler with its own key as the
    loader. *)
Lemma scriptTransforms_lookup esbuild (k : string) :
  In k ["ts"; "js"; "jsx"; "tsx"; "json"] ->
  scriptTransforms esbuild !! k
  = Some (fun content filepath => esbuild content filepath k).
Proof.
  intros H. simpl in H.
  destruct H as [<-|[<-|[<-|[<-|[<-|[]]]]]]; reflexivity.
Qed.

(** X19. Under the registry of [vite/transformers.ts], the node of a
    file whose extension is [ts], [js], [jsx], [tsx] or [json] holds the
    code and the map that the compiler answers for the content of the
    file, the path [parse] was called with (not the resolved one) and
    the extension as the loader. *)
Theorem registered_script_is_compiled_with_its_extension
        (esbuild : string -> string -> string -> Async (string * option string))
        (sv : Services) (fuel t : nat) (filePath importer : string)
        (t' : nat) (item : ZipeModule.t) :
  transformers sv = scriptTransforms esbuild ->
  result (parse sv fuel t filePath importer) = Resolved t' item ->
  In (ZipeModule.extension item) ["ts"; "js"; "jsx"; "tsx"; "json"] ->
  exists code map,
    settle (esbuild (ZipeModule.rawContent item) filePath (ZipeModule.extension item))
    = inr (code, map)
    /\ ZipeModule.code item = Some code
    /\ ZipeModule.map item = map.
Proof.
  intros Hreg H Hext.
  destruct (node_fields sv _ _ _ _ _ _ H)
    as (item0 & Hl & _ & He & Hr & Hm & Hc & Hmap & Hs & Hx & Hd).
  destruct (load_shape sv _ _ _ _ Hl)
    as (m & content & _ & _ & H3 & _ & _ & H6 & Hbranch).
  rewrite He in Hext. rewrite He, Hr, Hc, Hmap, H6.
  pose proof (scriptTransforms_lookup esbuild _ Hext) as Hlook.
  rewrite <- Hreg in Hlook.
  destruct Hbranch as [(Hn & _)
                      |[(_ & tr & code & map & Htr & Hp & -> & -> & _)
                       |(_ & Hnone & _)]].
  - rewrite Hn in Hext. simpl in Hext.
    destruct Hext as [E|[E|[E|[E|[E|[]]]]]]; discriminate E.
  - rewrite Hlook in Htr. injection Htr as <-. by exists code, map.
  - congruence.
Qed.

(** The theorem on [main.ts] of the project. *)
Lemma registered_script_is_compiled_with_its_extension_witness :
  exists t' item,
    result (parse DemoTransforms.services 2 0 "./main.ts" "") = Resolved t' item
    /\ ZipeModule.code item
       = Some ("/* ts */ " +:+ Demo.import_ "./util.ts").
Proof.
  assert (Hres : exists t' item,
             result (parse DemoTransforms.services 2 0 "./main.ts" "")
             = Resolved t' item
             /\ ZipeModule.extension item = "ts"
             /\ ZipeModule.rawContent item = Demo.import_ "./util.ts")
    by (vm_compute; eauto 10).
  destruct Hres as (t' & item & Hres & Hext & Hraw).
  exists t', item. split; [exact Hres|].
  destruct (registered_script_is_compiled_with_its_extension
              DemoTransforms.esbuild DemoTransforms.services 2 0 "./main.ts" ""
              t' item eq_refl Hres)
    as (code & map & Hp & Hc & _).
  - rewrite Hext. simpl. auto.
  - rewrite Hc. f_equal. rewrite Hraw, Hext in Hp.
    vm_compute in Hp. injection Hp as <- _. vm_compute. reflexivity.
Defined.
